(** * nefi: queue, histogram, dependency and codec properties

    A shallow embedding of the parts of the nefi agent and server that the
    specification makes claims about:

    - [model]     internal/model/event.go
    - [f64]       the float64 arithmetic the Go code computes with
    - [exporter]  internal/agent/exporter/grpc.go
    - [metrics]   internal/server/metrics/aggregator.go
    - [graph]     the dependency computer (package graph)
    - [ingestion] the ingestion server (package ingestion)
    - [k8s]       internal/agent/k8s/cache.go
    - [ebpf]      internal/agent/ebpf/loader.go

    Conventions.  A Go fixed-width integer is a [Z] and every operation that can
    leave the width is followed by the wrap-around of its type ([uint64],
    [uint16], ...).  A Go string is a [string] (a sequence of bytes).  A Go map
    is a [gmap].  A run-time panic is [None] in an [option] result.  Logging is
    kept as a list of entries in the state of the object that logs.  Mutexes are
    not modelled: each function body between [Lock] and [Unlock] is one atomic
    step, and where a function has two critical sections the steps of other
    goroutines that may run between them are an explicit argument. *)

From Stdlib Require Import ZArith QArith Qround Lia Lqa Bool.
From Stdlib Require Import Floats.PrimFloat Floats.SpecFloat Floats.FloatOps.
From Stdlib Require Import Strings.Byte Sorting.Sorted.
From stdpp Require Import gmap strings list sorting pretty.

Set Default Proof Using "Type".
Set Warnings "-abstract-large-number,-inexact-float".


(** ** Fixed-width integers *)

Definition uint8 (x : Z) : Z := (x mod 2 ^ 8)%Z.
Definition uint16 (x : Z) : Z := (x mod 2 ^ 16)%Z.
Definition uint32 (x : Z) : Z := (x mod 2 ^ 32)%Z.
Definition uint64 (x : Z) : Z := (x mod 2 ^ 64)%Z.
Definition int64 (x : Z) : Z := ((x + 2 ^ 63) mod 2 ^ 64 - 2 ^ 63)%Z.

Definition is_uint16 (x : Z) : Prop := (0 ≤ x < 2 ^ 16)%Z.
Definition is_uint32 (x : Z) : Prop := (0 ≤ x < 2 ^ 32)%Z.
Definition is_uint64 (x : Z) : Prop := (0 ≤ x < 2 ^ 64)%Z.
Definition is_int64 (x : Z) : Prop := (- 2 ^ 63 ≤ x < 2 ^ 63)%Z.

(** A log line: level and message (zap fields are not kept). *)
Inductive Level := DebugLevel | InfoLevel | WarnLevel | ErrorLevel.

Record LogEntry := { level : Level; msg : string }.

Definition isWarn (l : LogEntry) (m : string) : bool :=
  match level l with
  | WarnLevel => String.eqb (msg l) m
  | _ => false
  end.

(** ** internal/model/event.go *)

Module model.

Module Endpoint.
Record t := {
  IP : string;
  Port : Z;               (* uint16 *)
  Pod : string;
  Namespace : string;
  Workload : string;
  WorkloadType : string;
  Service : string
}.

(** The zero value [model.Endpoint{}]. *)
Definition zero : t :=
  {| IP := ""; Port := 0; Pod := ""; Namespace := ""; Workload := "";
     WorkloadType := ""; Service := "" |}.

(** The port is a uint16. *)
Definition wf (ep : t) : Prop := is_uint16 (Port ep).
End Endpoint.

(** [time.Time] is the instant, in nanoseconds since the Unix epoch.  Both
    places that build an event's timestamp, the loader and the ingestion
    server, call [time.Unix(0, ns)] on an int64. *)

(** [unixToInternal] of package [time]: the seconds from January 1 of
    year 1, 00:00:00 UTC, to the Unix epoch. *)
Definition unixToInternal : Z :=
  (1969 * 365 + 1969 / 4 - 1969 / 100 + 1969 / 400) * 86400.

(** [time.Time{}], the zero time, which the timestamp of an event holds
    when nothing sets it: January 1 of year 1, 00:00:00 UTC. *)
Definition zeroTime : Z := - unixToInternal * 1000000000.

Module ConnectionEvent.
Record t := {
  Timestamp : Z;          (* time.Time *)
  Node : string;
  Source : Endpoint.t;
  Destination : Endpoint.t;
  BytesSent : Z;          (* uint64 *)
  BytesRecv : Z;          (* uint64 *)
  DurationNs : Z;         (* uint64 *)
  Retransmits : Z;        (* uint32 *)
  Protocol : string
}.

(** Every field holds a value of its Go type. *)
Definition wf (ce : t) : Prop :=
  is_int64 (Timestamp ce) ∧ Endpoint.wf (Source ce) ∧
  Endpoint.wf (Destination ce) ∧ is_uint64 (BytesSent ce) ∧
  is_uint64 (BytesRecv ce) ∧ is_uint64 (DurationNs ce) ∧
  is_uint32 (Retransmits ce).

(** The event with a blank [Node] replaced by [node]. *)
Definition withDefaultNode (ce : t) (node : string) : t :=
  {| Timestamp := Timestamp ce;
     Node := if String.eqb (Node ce) "" then node else Node ce;
     Source := Source ce; Destination := Destination ce;
     BytesSent := BytesSent ce; BytesRecv := BytesRecv ce;
     DurationNs := DurationNs ce; Retransmits := Retransmits ce;
     Protocol := Protocol ce |}.
End ConnectionEvent.

Module HTTPRequestEvent.
Record t := {
  Timestamp : Z;          (* time.Time *)
  Node : string;
  Source : Endpoint.t;
  Destination : Endpoint.t;
  Method : string;
  Path : string;
  StatusCode : Z;         (* uint16 *)
  LatencyNs : Z;          (* uint64 *)
  Protocol : string
}.
(** Every field holds a value of its Go type. *)
Definition wf (he : t) : Prop :=
  is_int64 (Timestamp he) ∧ Endpoint.wf (Source he) ∧
  Endpoint.wf (Destination he) ∧ is_uint16 (StatusCode he) ∧
  is_uint64 (LatencyNs he).

(** The event with a blank [Node] replaced by [node]. *)
Definition withDefaultNode (he : t) (node : string) : t :=
  {| Timestamp := Timestamp he;
     Node := if String.eqb (Node he) "" then node else Node he;
     Source := Source he; Destination := Destination he;
     Method := Method he; Path := Path he;
     StatusCode := StatusCode he; LatencyNs := LatencyNs he;
     Protocol := Protocol he |}.

End HTTPRequestEvent.

Module DependencyLink.
Record t := {
  Parent : string;
  Child : string;
  CallCount : Z;          (* uint64 *)
  ErrorCount : Z;         (* uint64 *)
  P99LatencyNs : Z        (* uint64 *)
}.
End DependencyLink.

(** [TimeSeriesPoint], over the type [F] of its float64 value; [Labels] is
    the map of the label names to their values. *)
Module TimeSeriesPoint.
Record t (F : Type) := {
  Timestamp : Z;          (* time.Time *)
  Value : F;              (* float64 *)
  Labels : gmap string string
}.
Arguments Timestamp {F} _.
Arguments Value {F} _.
Arguments Labels {F} _.
End TimeSeriesPoint.

End model.

(** ** float64

    The aggregator computes with float64.  Its functions are written once,
    over the operations of the class [Float64], and read at two instances:
    [f64.ieee], the IEEE 754 binary64 numbers of the Go run time, on which
    the functions are evaluated, and [f64.exact], the rationals, which is
    float64 without rounding and on which the order properties are proved. *)

Module f64.

Class Float64 (F : Type) := {
  zero : F;
  add : F → F → F;
  sub : F → F → F;
  mul : F → F → F;
  div : F → F → F;
  leb : F → F → bool;       (* x <= y *)
  ofZ : Z → F               (* the conversion float64(n) of an integer *)
}.

(** [float64(n)]: the integer rounded to the nearest binary64, ties to even. *)
Definition ieee_ofZ (n : Z) : float :=
  SF2Prim (binary_normalize prec emax n 0 false).

(** [int(x)]: truncation towards zero of a finite float (an infinity or a
    NaN, which no index computation here produces, gives 0). *)
Definition ieee_toZ (x : float) : Z :=
  match Prim2SF x with
  | S754_finite s m e =>
      let v := if (0 <=? e)%Z then (Z.pos m * 2 ^ e)%Z
               else (Z.pos m / 2 ^ (- e))%Z in
      if s then (- v)%Z else v
  | _ => 0%Z
  end.

#[global] Instance ieee : Float64 float := {|
  zero := 0%float;
  add := PrimFloat.add;
  sub := PrimFloat.sub;
  mul := PrimFloat.mul;
  div := PrimFloat.div;
  leb := PrimFloat.leb;
  ofZ := ieee_ofZ
|}.

#[global] Instance exact : Float64 Q := {|
  zero := 0%Q;
  add := Qplus;
  sub := Qminus;
  mul := Qmult;
  div := Qdiv;
  leb := Qle_bool;
  ofZ := inject_Z
|}.

End f64.

(** ** internal/agent/exporter/grpc.go *)

Module exporter.

Definition defaultBatchSize : nat := 100.
Definition defaultFlushInterval : Z := 100 * 1000000.   (* 100ms, in ns *)
Definition defaultQueueLimit : nat := 10000.

Module EndpointProto.
Record t := {
  IP : string;
  Port : Z;               (* uint32 *)
  Pod : string;
  Namespace : string;
  Workload : string;
  WorkloadType : string;
  Service : string
}.
End EndpointProto.

Module ConnectionEventProto.
Record t := {
  TimestampNs : Z;        (* int64 *)
  Node : string;
  Source : option EndpointProto.t;        (* *EndpointProto *)
  Destination : option EndpointProto.t;   (* *EndpointProto *)
  BytesSent : Z;
  BytesRecv : Z;
  DurationNs : Z;
  Retransmits : Z;
  Protocol : string
}.
End ConnectionEventProto.

Module HTTPRequestEventProto.
Record t := {
  TimestampNs : Z;        (* int64 *)
  Node : string;
  Source : option EndpointProto.t;
  Destination : option EndpointProto.t;
  Method : string;
  Path : string;
  StatusCode : Z;         (* uint32 *)
  LatencyNs : Z;
  Protocol : string
}.
End HTTPRequestEventProto.

Module EventBatchProto.
Record t := {
  Node : string;
  Connections : list ConnectionEventProto.t;
  HttpRequests : list HTTPRequestEventProto.t
}.
End EventBatchProto.

(** What the queue holds: an [interface{}], which the callers fill with a
    connection event or a request event; [Unknown] is any other value. *)
Inductive Event :=
  | ConnectionEvent (v : model.ConnectionEvent.t)
  | HTTPRequestEvent (v : model.HTTPRequestEvent.t)
  | Unknown (v : string).

(** [EventIngestion_StreamEventsClient]: [Send] answers [None] for a nil
    error and [Some err] for a failed send. *)
Record Stream := { Send : EventBatchProto.t → option string }.

(** The exporter.  [conn] is left out: only [connect] and [closeConn],
    which are not modelled, touch it. *)
Record Exporter := {
  logger : list LogEntry;
  addr : string;
  nodeName : string;
  queue : list Event;
  stream : option Stream;
  batchSize : nat;
  flushInterval : Z;
  queueLimit : nat
}.

Definition with_queue (e : Exporter) (q : list Event) : Exporter :=
  {| logger := logger e; addr := addr e; nodeName := nodeName e; queue := q;
     stream := stream e; batchSize := batchSize e;
     flushInterval := flushInterval e; queueLimit := queueLimit e |}.

Definition log (e : Exporter) (l : Level) (m : string) : Exporter :=
  {| logger := logger e ++ [{| level := l; msg := m |}]; addr := addr e;
     nodeName := nodeName e; queue := queue e; stream := stream e;
     batchSize := batchSize e; flushInterval := flushInterval e;
     queueLimit := queueLimit e |}.

Definition NewExporter (serverAddr nodeName : string) : Exporter :=
  {| logger := []; addr := serverAddr; nodeName := nodeName; queue := [];
     stream := None; batchSize := defaultBatchSize;
     flushInterval := defaultFlushInterval;
     queueLimit := defaultQueueLimit |}.

Definition dropWarning : string := "event queue full, dropping oldest event".

(** [Enqueue].  [e.queue[1:]] panics on an empty slice, which only a
    [queueLimit] of zero can reach. *)
Definition Enqueue (e : Exporter) (evt : Event) : option Exporter :=
  if (queueLimit e <=? length (queue e))%nat then
    match queue e with
    | [] => None
    | _ :: rest =>
        let e := with_queue e rest in
        let e := log e WarnLevel dropWarning in
        Some (with_queue e (queue e ++ [evt]))
    end
  else Some (with_queue e (queue e ++ [evt])).

(** A run of [Enqueue] calls, in order. *)
Fixpoint EnqueueAll (e : Exporter) (evts : list Event) : option Exporter :=
  match evts with
  | [] => Some e
  | evt :: rest =>
      match Enqueue e evt with
      | Some e' => EnqueueAll e' rest
      | None => None
      end
  end.

(** The number of events the exporter has dropped: one warning each. *)
Definition dropped (e : Exporter) : nat :=
  length (filter (λ l, isWarn l dropWarning = true) (logger e)).

Definition endpointToProto (ep : model.Endpoint.t) : EndpointProto.t :=
  {| EndpointProto.IP := model.Endpoint.IP ep;
     EndpointProto.Port := uint32 (model.Endpoint.Port ep);
     EndpointProto.Pod := model.Endpoint.Pod ep;
     EndpointProto.Namespace := model.Endpoint.Namespace ep;
     EndpointProto.Workload := model.Endpoint.Workload ep;
     EndpointProto.WorkloadType := model.Endpoint.WorkloadType ep;
     EndpointProto.Service := model.Endpoint.Service ep |}.

(** [ce.Timestamp.UnixNano()] is the instant as an int64. *)
Definition connectionEventToProto (ce : model.ConnectionEvent.t)
  : ConnectionEventProto.t :=
  {| ConnectionEventProto.TimestampNs := int64 (model.ConnectionEvent.Timestamp ce);
     ConnectionEventProto.Node := model.ConnectionEvent.Node ce;
     ConnectionEventProto.Source :=
       Some (endpointToProto (model.ConnectionEvent.Source ce));
     ConnectionEventProto.Destination :=
       Some (endpointToProto (model.ConnectionEvent.Destination ce));
     ConnectionEventProto.BytesSent := model.ConnectionEvent.BytesSent ce;
     ConnectionEventProto.BytesRecv := model.ConnectionEvent.BytesRecv ce;
     ConnectionEventProto.DurationNs := model.ConnectionEvent.DurationNs ce;
     ConnectionEventProto.Retransmits := model.ConnectionEvent.Retransmits ce;
     ConnectionEventProto.Protocol := model.ConnectionEvent.Protocol ce |}.

Definition httpRequestEventToProto (he : model.HTTPRequestEvent.t)
  : HTTPRequestEventProto.t :=
  {| HTTPRequestEventProto.TimestampNs := int64 (model.HTTPRequestEvent.Timestamp he);
     HTTPRequestEventProto.Node := model.HTTPRequestEvent.Node he;
     HTTPRequestEventProto.Source :=
       Some (endpointToProto (model.HTTPRequestEvent.Source he));
     HTTPRequestEventProto.Destination :=
       Some (endpointToProto (model.HTTPRequestEvent.Destination he));
     HTTPRequestEventProto.Method := model.HTTPRequestEvent.Method he;
     HTTPRequestEventProto.Path := model.HTTPRequestEvent.Path he;
     HTTPRequestEventProto.StatusCode := uint32 (model.HTTPRequestEvent.StatusCode he);
     HTTPRequestEventProto.LatencyNs := model.HTTPRequestEvent.LatencyNs he;
     HTTPRequestEventProto.Protocol := model.HTTPRequestEvent.Protocol he |}.

(** The loop of [flush] that fills the proto batch; it also counts the
    events of unknown type, each of which is logged with a warning. *)
Fixpoint buildBatch (pb : EventBatchProto.t) (unknown : nat) (batch : list Event)
  : EventBatchProto.t * nat :=
  match batch with
  | [] => (pb, unknown)
  | ConnectionEvent v :: rest =>
      buildBatch
        {| EventBatchProto.Node := EventBatchProto.Node pb;
           EventBatchProto.Connections :=
             EventBatchProto.Connections pb ++ [connectionEventToProto v];
           EventBatchProto.HttpRequests := EventBatchProto.HttpRequests pb |}
        unknown rest
  | HTTPRequestEvent v :: rest =>
      buildBatch
        {| EventBatchProto.Node := EventBatchProto.Node pb;
           EventBatchProto.Connections := EventBatchProto.Connections pb;
           EventBatchProto.HttpRequests :=
             EventBatchProto.HttpRequests pb ++ [httpRequestEventToProto v] |}
        unknown rest
  | Unknown _ :: rest => buildBatch pb (S unknown) rest
  end.

(** [&EventBatchProto{Node: e.nodeName}]. *)
Definition emptyBatch (node : string) : EventBatchProto.t :=
  {| EventBatchProto.Node := node; EventBatchProto.Connections := [];
   EventBatchProto.HttpRequests := [] |}.

Definition logN (e : Exporter) (l : Level) (m : string) (n : nat) : Exporter :=
  Nat.iter n (λ e, log e l m) e.

(** The second critical section of [flush], entered when [Send] failed:
    the batch goes back in front of the queue, and
    [remaining[len(remaining)-e.queueLimit:]] keeps the last [queueLimit]
    elements of the result. *)
Definition requeue (e : Exporter) (batch : list Event) : Exporter :=
  let remaining := batch ++ queue e in
  let remaining :=
    if (queueLimit e <? length remaining)%nat
    then drop (length remaining - queueLimit e) remaining
    else remaining in
  with_queue e remaining.

(** [flush].  [meanwhile] are the events that other goroutines [Enqueue]
    after the first critical section has taken the batch and before the
    second one puts it back.  The result is the exporter and the error
    returned ([None] for nil); a panic of an interleaved [Enqueue] is
    [None]. *)
Definition flush (e : Exporter) (meanwhile : list Event)
  : option (Exporter * option string) :=
  if (length (queue e) =? 0)%nat then Some (e, None)
  else
    let n := batchSize e in
    let n := if (length (queue e) <? n)%nat then length (queue e) else n in
    let batch := take n (queue e) in
    let e := with_queue e (drop n (queue e)) in
    match EnqueueAll e meanwhile with
    | None => None
    | Some e =>
        let '(pbBatch, unknown) :=
          buildBatch (emptyBatch (nodeName e)) 0 batch in
        let e := logN e WarnLevel "unknown event type in queue" unknown in
        match stream e with
        | None =>
            Some (log e DebugLevel
                    "no active gRPC stream, batch buffered locally", None)
        | Some s =>
            match Send s pbBatch with
            | Some err =>
                Some (requeue e batch, Some ("stream send: " +:+ err))
            | None => Some (log e DebugLevel "flushed event batch", None)
            end
        end
    end.

(** The connection events, the request events and the other values of a
    batch, each in the order of the batch. *)
Definition connectionOf (evt : Event) : option model.ConnectionEvent.t :=
  match evt with
  | ConnectionEvent v => Some v
  | _ => None
  end.

Definition requestOf (evt : Event) : option model.HTTPRequestEvent.t :=
  match evt with
  | HTTPRequestEvent v => Some v
  | _ => None
  end.

Definition isUnknown (evt : Event) : bool :=
  match evt with
  | Unknown _ => true
  | _ => false
  end.

(** The fields of the event hold values of their Go types. *)
Definition eventWf (evt : Event) : Prop :=
  match evt with
  | ConnectionEvent v => model.ConnectionEvent.wf v
  | HTTPRequestEvent v => model.HTTPRequestEvent.wf v
  | Unknown _ => True
  end.

(** [connect]: [dial] is what [grpc.DialContext] answers, [Some err] for an
    error.  A successful dial leaves the stream nil. *)
Definition connect (e : Exporter) (dial : option string) : Exporter * option string :=
  match dial with
  | Some err => (e, Some ("grpc dial: " +:+ err))
  | None =>
      ({| logger := logger e; addr := addr e; nodeName := nodeName e;
          queue := queue e; stream := None; batchSize := batchSize e;
          flushInterval := flushInterval e; queueLimit := queueLimit e |}, None)
  end.

(** [initialReconnectBackoff] and [maxReconnectBackoff]: a [time.Duration]
    is an int64 count of nanoseconds. *)
Definition initialReconnectBackoff : Z := 500 * 1000000.
Definition maxReconnectBackoff : Z := 30 * 1000000000.

(** [math.Min] of the Go library, with its special cases. *)
Definition mathMin (x y : float) : float :=
  if PrimFloat.eqb x neg_infinity || PrimFloat.eqb y neg_infinity then neg_infinity
  else if is_nan x || is_nan y then nan
  else if PrimFloat.eqb x 0 && PrimFloat.eqb x y then
    (if get_sign x then x else y)
  else if PrimFloat.ltb x y then x else y.

(** The step of the backoff in [Start]:
    [time.Duration(math.Min(float64(backoff)*2, float64(maxReconnectBackoff)))]. *)
Definition nextBackoff (backoff : Z) : Z :=
  int64 (f64.ieee_toZ
           (mathMin (f64.ieee_ofZ backoff * 2)%float (f64.ieee_ofZ maxReconnectBackoff))).

(** The waits of [Start] between its attempts to connect: [dials] lists the
    attempts in order, [true] for one that succeeds; a failed attempt is
    followed by a wait of the current backoff, which then steps, and a
    success sets the backoff to its initial value. *)
Fixpoint retryWaits (backoff : Z) (dials : list bool) : list Z :=
  match dials with
  | [] => []
  | true :: rest => retryWaits initialReconnectBackoff rest
  | false :: rest => backoff :: retryWaits (nextBackoff backoff) rest
  end.

End exporter.

(** ** internal/server/metrics/aggregator.go *)

Module metrics.

Import f64.

(** [defaultBucketBoundaries], in nanoseconds: every boundary is an integer,
    and is a float64 without rounding. *)
Definition defaultBucketBoundariesNs : list Z :=
  [ 1000000; 5000000; 10000000; 25000000; 50000000; 100000000;
    250000000; 500000000; 1000000000; 2500000000; 5000000000;
    10000000000 ]%Z.

Section WithFloat64.

Context {F : Type} `{Float64 F}.

Definition defaultBucketBoundaries : list F := ofZ <$> defaultBucketBoundariesNs.

(** [serviceMetrics].  [lastObserved] holds a reading of [time.Now()]. *)
Record serviceMetrics := {
  namespace : string;
  latencyCounts : list Z;     (* []uint64, len == len(buckets)+1 *)
  latencySum : F;
  callCount : Z;              (* uint64 *)
  errorCount : Z;             (* uint64 *)
  bytesSent : Z;              (* uint64 *)
  bytesRecv : Z;              (* uint64 *)
  lastObserved : Z
}.

(** [Aggregator]: the fields that the observation path reads and writes.
    [services] maps a service to its accumulator; the Go map holds pointers,
    each reachable through its map entry only, so an update of the
    accumulator is an update of the entry. *)
Record Aggregator := {
  buckets : list F;
  services : gmap string serviceMetrics
}.

Definition NewAggregator : Aggregator :=
  {| buckets := defaultBucketBoundaries; services := ∅ |}.

(** The accumulator that [getOrCreate] makes:
    [&serviceMetrics{namespace: ..., latencyCounts: make([]uint64, len(a.buckets)+1)}]. *)
Definition newServiceMetrics (bs : list F) (namespace : string) : serviceMetrics :=
  {| namespace := namespace;
     latencyCounts := replicate (length bs + 1) 0%Z;
     latencySum := zero; callCount := 0; errorCount := 0;
     bytesSent := 0; bytesRecv := 0; lastObserved := 0 |}.

(** [getOrCreate]: the accumulator of [service], made on first use. *)
Definition getOrCreate (a : Aggregator) (service namespace : string)
  : serviceMetrics :=
  match services a !! service with
  | Some sm => sm
  | None => newServiceMetrics (buckets a) namespace
  end.

(** The [for i, boundary := range a.buckets] loop of [observeLatency]: the
    index at which it breaks, or [None] when it runs to the end. *)
Fixpoint findBucket (bs : list F) (i : nat) (latencyNs : F) : option nat :=
  match bs with
  | [] => None
  | boundary :: rest =>
      if leb latencyNs boundary then Some i
      else findBucket rest (S i) latencyNs
  end.

(** [counts[i]++] on a []uint64; an index out of range panics. *)
Definition incr (counts : list Z) (i : nat) : option (list Z) :=
  match counts !! i with
  | Some c => Some (<[i := uint64 (c + 1)]> counts)
  | None => None
  end.

(** The bucket that [observeLatency] increments. *)
Definition bucketIndex (bs : list F) (latencyNs : F) : nat :=
  match findBucket bs 0 latencyNs with
  | Some i => i
  | None => length bs
  end.

Definition observeLatency (bs : list F) (sm : serviceMetrics) (latencyNs : F)
  : option serviceMetrics :=
  match incr (latencyCounts sm) (bucketIndex bs latencyNs) with
  | Some counts =>
      Some {| namespace := namespace sm;
              latencyCounts := counts;
              latencySum := add (latencySum sm) latencyNs;
              callCount := callCount sm; errorCount := errorCount sm;
              bytesSent := bytesSent sm; bytesRecv := bytesRecv sm;
              lastObserved := lastObserved sm |}
  | None => None
  end.

(** A run of [observeLatency] calls on one accumulator. *)
Fixpoint observeAll (bs : list F) (sm : serviceMetrics) (xs : list F)
  : option serviceMetrics :=
  match xs with
  | [] => Some sm
  | x :: rest =>
      match observeLatency bs sm x with
      | Some sm' => observeAll bs sm' rest
      | None => None
      end
  end.

Definition store (a : Aggregator) (svc : string) (sm : serviceMetrics)
  : Aggregator :=
  {| buckets := buckets a; services := <[svc := sm]> (services a) |}.

(** [ObserveConnection]; [now] is what [time.Now()] returns. *)
Definition ObserveConnection (now : Z) (a : Aggregator)
    (ev : model.ConnectionEvent.t) : option Aggregator :=
  let svc := model.Endpoint.Service (model.ConnectionEvent.Source ev) in
  let svc := if String.eqb svc "" then
               model.Endpoint.Service (model.ConnectionEvent.Destination ev)
             else svc in
  if String.eqb svc "" then Some a
  else
    let sm := getOrCreate a svc
                (model.Endpoint.Namespace (model.ConnectionEvent.Source ev)) in
    let sm :=
      {| namespace := namespace sm; latencyCounts := latencyCounts sm;
         latencySum := latencySum sm;
         callCount := uint64 (callCount sm + 1);
         errorCount := errorCount sm;
         bytesSent := uint64 (bytesSent sm + model.ConnectionEvent.BytesSent ev);
         bytesRecv := uint64 (bytesRecv sm + model.ConnectionEvent.BytesRecv ev);
         lastObserved := now |} in
    if (0 <? model.ConnectionEvent.DurationNs ev)%Z then
      match observeLatency (buckets a) sm
              (ofZ (model.ConnectionEvent.DurationNs ev)) with
      | Some sm => Some (store a svc sm)
      | None => None
      end
    else Some (store a svc sm).

(** [ObserveHTTPRequest]. *)
Definition ObserveHTTPRequest (now : Z) (a : Aggregator)
    (ev : model.HTTPRequestEvent.t) : option Aggregator :=
  let svc := model.Endpoint.Service (model.HTTPRequestEvent.Destination ev) in
  let svc := if String.eqb svc "" then
               model.Endpoint.Service (model.HTTPRequestEvent.Source ev)
             else svc in
  if String.eqb svc "" then Some a
  else
    let sm := getOrCreate a svc
                (model.Endpoint.Namespace (model.HTTPRequestEvent.Destination ev)) in
    let sm :=
      {| namespace := namespace sm; latencyCounts := latencyCounts sm;
         latencySum := latencySum sm;
         callCount := uint64 (callCount sm + 1);
         errorCount := if (500 <=? model.HTTPRequestEvent.StatusCode ev)%Z
                       then uint64 (errorCount sm + 1) else errorCount sm;
         bytesSent := bytesSent sm; bytesRecv := bytesRecv sm;
         lastObserved := now |} in
    if (0 <? model.HTTPRequestEvent.LatencyNs ev)%Z then
      match observeLatency (buckets a) sm
              (ofZ (model.HTTPRequestEvent.LatencyNs ev)) with
      | Some sm => Some (store a svc sm)
      | None => None
      end
    else Some (store a svc sm).

(** [totalHistogramCount]: the uint64 sum of the bucket counts. *)
Definition totalHistogramCount (counts : list Z) : Z :=
  fold_left (λ total c, uint64 (total + c)) counts 0%Z.

(** The lower end of bucket [i] in [histogramPercentile]: [lower] stays at
    its zero value for [i == 0] and for [i > len(buckets)]. *)
Definition bucketLower (bs : list F) (i : nat) : F :=
  if (i =? 0)%nat then zero
  else if (i <=? length bs)%nat then nth (i - 1) bs zero
  else zero.

(** The upper end of bucket [i]: its boundary, and for the +Inf bucket twice
    the last boundary ([upper] stays zero when there is no boundary). *)
Definition bucketUpper (bs : list F) (i : nat) : F :=
  if (i <? length bs)%nat then nth i bs zero
  else if (0 <? length bs)%nat then mul (nth (length bs - 1) bs zero) (ofZ 2)
  else zero.

(** The [for i, count := range counts] loop of [histogramPercentile];
    [None] when the loop ends without returning. *)
Fixpoint percentileLoop (bs : list F) (counts : list Z) (i : nat)
    (cumulative target : F) : option F :=
  match counts with
  | [] => None
  | count :: rest =>
      let cumulative := add cumulative (ofZ count) in
      if leb target cumulative then
        let lower := bucketLower bs i in
        let upper := bucketUpper bs i in
        let prevCumulative := sub cumulative (ofZ count) in
        if (count =? 0)%Z then Some lower
        else
          let fraction := div (sub target prevCumulative) (ofZ count) in
          Some (add lower (mul fraction (sub upper lower)))
      else percentileLoop bs rest (S i) cumulative target
  end.

Definition histogramPercentile (bs : list F) (counts : list Z) (total : Z)
    (quantile : F) : F :=
  let target := mul quantile (ofZ total) in
  match percentileLoop bs counts 0 zero target with
  | Some r => r
  | None =>
      if (0 <? length bs)%nat then nth (length bs - 1) bs zero else zero
  end.




(** Every accumulator of the aggregator has one count per bucket, as
    [getOrCreate] makes them. *)
Definition wellFormed (a : Aggregator) : Prop :=
  map_Forall (λ _ sm, length (latencyCounts sm) = (length (buckets a) + 1)%nat)
    (services a).


End WithFloat64.

Arguments serviceMetrics F : clear implicits.
Arguments Aggregator F : clear implicits.

(** One call of the observation API by an ingestion stream, with the
    reading of [time.Now()] in it.  Streams run concurrently and every call
    holds the mutex to its end, so what the aggregator sees is one sequence
    of calls. *)
Inductive Observation :=
| ConnectionObserved (now : Z) (ev : model.ConnectionEvent.t)
| HTTPRequestObserved (now : Z) (ev : model.HTTPRequestEvent.t).

Section Observations.

Context {F : Type} `{Float64 F}.

Definition observe (a : Aggregator F) (o : Observation) : option (Aggregator F) :=
  match o with
  | ConnectionObserved now ev => ObserveConnection now a ev
  | HTTPRequestObserved now ev => ObserveHTTPRequest now a ev
  end.

Fixpoint observeEach (a : Aggregator F) (os : list Observation)
  : option (Aggregator F) :=
  match os with
  | [] => Some a
  | o :: rest =>
      match observe a o with
      | Some a => observeEach a rest
      | None => None
      end
  end.

(** The service that a call accounts its event to: the source service of a
    connection and the destination service of a request, and the other end
    when that one is not known. *)
Definition serviceOf (o : Observation) : string :=
  match o with
  | ConnectionObserved _ ev =>
      if String.eqb (model.Endpoint.Service (model.ConnectionEvent.Source ev)) ""
      then model.Endpoint.Service (model.ConnectionEvent.Destination ev)
      else model.Endpoint.Service (model.ConnectionEvent.Source ev)
  | HTTPRequestObserved _ ev =>
      if String.eqb (model.Endpoint.Service (model.HTTPRequestEvent.Destination ev)) ""
      then model.Endpoint.Service (model.HTTPRequestEvent.Source ev)
      else model.Endpoint.Service (model.HTTPRequestEvent.Destination ev)
  end.

(** The namespace that the call hands to [getOrCreate]. *)
Definition namespaceOf (o : Observation) : string :=
  match o with
  | ConnectionObserved _ ev =>
      model.Endpoint.Namespace (model.ConnectionEvent.Source ev)
  | HTTPRequestObserved _ ev =>
      model.Endpoint.Namespace (model.HTTPRequestEvent.Destination ev)
  end.

Definition clockOf (o : Observation) : Z :=
  match o with
  | ConnectionObserved now _ | HTTPRequestObserved now _ => now
  end.

Definition isError (o : Observation) : bool :=
  match o with
  | ConnectionObserved _ _ => false
  | HTTPRequestObserved _ ev => (500 <=? model.HTTPRequestEvent.StatusCode ev)%Z
  end.

Definition sentOf (o : Observation) : Z :=
  match o with
  | ConnectionObserved _ ev => model.ConnectionEvent.BytesSent ev
  | HTTPRequestObserved _ _ => 0
  end.

Definition recvOf (o : Observation) : Z :=
  match o with
  | ConnectionObserved _ ev => model.ConnectionEvent.BytesRecv ev
  | HTTPRequestObserved _ _ => 0
  end.

(** The latency sample of the call, when it has one. *)
Definition latencyOf (o : Observation) : option Z :=
  match o with
  | ConnectionObserved _ ev =>
      if (0 <? model.ConnectionEvent.DurationNs ev)%Z
      then Some (model.ConnectionEvent.DurationNs ev) else None
  | HTTPRequestObserved _ ev =>
      if (0 <? model.HTTPRequestEvent.LatencyNs ev)%Z
      then Some (model.HTTPRequestEvent.LatencyNs ev) else None
  end.

(** [counts] is the histogram of [samples]: one count per bucket, each the
    number of samples of that bucket as a uint64. *)
Definition histogramOf (bs : list F) (counts : list Z) (samples : list Z) : Prop :=
  length counts = (length bs + 1)%nat ∧
  ∀ i, (i < length counts)%nat →
    counts !! i
    = Some (uint64 (Z.of_nat (length
              (filter (λ x, bucketIndex bs (ofZ x) = i) samples)))).

Definition sumZ (l : list Z) : Z := foldr Z.add 0%Z l.

(** The counters of an accumulator are the totals of the calls [mine], in
    this order. *)
Definition totals (bs : list F) (sm : serviceMetrics F) (mine : list Observation)
  : Prop :=
  callCount sm = uint64 (Z.of_nat (length mine)) ∧
  errorCount sm = uint64 (Z.of_nat (length (filter (λ o, isError o = true) mine))) ∧
  bytesSent sm = uint64 (sumZ (sentOf <$> mine)) ∧
  bytesRecv sm = uint64 (sumZ (recvOf <$> mine)) ∧
  histogramOf bs (latencyCounts sm) (omap latencyOf mine) ∧
  latencySum sm = foldl add zero (ofZ <$> omap latencyOf mine).

(** What the entry of a service is after the calls [mine] accounted to it:
    none before the first call; then the totals of the calls, under the
    namespace of the first call and with the clock of the last one. *)
Definition accounted (bs : list F) (entry : option (serviceMetrics F))
    (mine : list Observation) : Prop :=
  match mine with
  | [] => entry = None
  | first :: _ =>
      ∃ sm, entry = Some sm ∧
        namespace sm = namespaceOf first ∧
        Some (lastObserved sm) = clockOf <$> last mine ∧
        totals bs sm mine
  end.

(** The aggregator after the calls [os]. *)
Definition accountedAll (bs : list F) (a : Aggregator F) (os : list Observation)
  : Prop :=
  buckets a = bs ∧ services a !! "" = None ∧
  ∀ svc, svc ≠ "" →
    accounted bs (services a !! svc) (filter (λ o, serviceOf o = svc) os).

End Observations.

Section Flush.

Context {F : Type} `{Float64 F}.

(** [copyLabels]: a new map with the entries of [src]. *)
Definition copyLabels (src : gmap string string) : gmap string string :=
  map_fold (λ k v dst, <[k := v]> dst) ∅ src.

(** [withLabel]: a new map with the entries of [src], and then [key]. *)
Definition withLabel (src : gmap string string) (key value : string)
  : gmap string string :=
  <[key := value]> (map_fold (λ k v dst, <[k := v]> dst) ∅ src).

(** The quantile literals 0.50, 0.95 and 0.99, as the quotients n/100:
    float64 division rounds to nearest, as the compiler does the literal. *)
Definition quantile (percent : Z) : F := div (ofZ percent) (ofZ 100).

Definition labelsOf (svc : string) (sm : serviceMetrics F) : gmap string string :=
  <["namespace" := namespace sm]> (<["service" := svc]> ∅).

(** The body of the [for svc, sm := range snapshot] loop of [flush], one
    function for each slice that it appends to. *)
Definition latencyPointsOf (now : Z) (bs : list F) (svc : string)
    (sm : serviceMetrics F) : list (model.TimeSeriesPoint.t F) :=
  let labels := labelsOf svc sm in
  let totalCount := totalHistogramCount (latencyCounts sm) in
  if (0 <? totalCount)%Z then
    let p50 := histogramPercentile bs (latencyCounts sm) totalCount (quantile 50) in
    let p95 := histogramPercentile bs (latencyCounts sm) totalCount (quantile 95) in
    let p99 := histogramPercentile bs (latencyCounts sm) totalCount (quantile 99) in
    [ {| model.TimeSeriesPoint.Timestamp := now; model.TimeSeriesPoint.Value := p50;
         model.TimeSeriesPoint.Labels := withLabel labels "quantile" "0.5" |};
      {| model.TimeSeriesPoint.Timestamp := now; model.TimeSeriesPoint.Value := p95;
         model.TimeSeriesPoint.Labels := withLabel labels "quantile" "0.95" |};
      {| model.TimeSeriesPoint.Timestamp := now; model.TimeSeriesPoint.Value := p99;
         model.TimeSeriesPoint.Labels := withLabel labels "quantile" "0.99" |} ]
  else [].

Definition callPointOf (now : Z) (svc : string) (sm : serviceMetrics F)
  : model.TimeSeriesPoint.t F :=
  {| model.TimeSeriesPoint.Timestamp := now;
     model.TimeSeriesPoint.Value := ofZ (callCount sm);
     model.TimeSeriesPoint.Labels := copyLabels (labelsOf svc sm) |}.

Definition errorRateOf (sm : serviceMetrics F) : F :=
  if (0 <? callCount sm)%Z
  then div (ofZ (errorCount sm)) (ofZ (callCount sm))
  else zero.

Definition errorPointOf (now : Z) (svc : string) (sm : serviceMetrics F)
  : model.TimeSeriesPoint.t F :=
  {| model.TimeSeriesPoint.Timestamp := now;
     model.TimeSeriesPoint.Value := errorRateOf sm;
     model.TimeSeriesPoint.Labels := copyLabels (labelsOf svc sm) |}.

Definition trafficPointsOf (now : Z) (svc : string) (sm : serviceMetrics F)
  : list (model.TimeSeriesPoint.t F) :=
  let labels := labelsOf svc sm in
  [ {| model.TimeSeriesPoint.Timestamp := now;
       model.TimeSeriesPoint.Value := ofZ (bytesSent sm);
       model.TimeSeriesPoint.Labels := withLabel labels "direction" "sent" |};
    {| model.TimeSeriesPoint.Timestamp := now;
       model.TimeSeriesPoint.Value := ofZ (bytesRecv sm);
       model.TimeSeriesPoint.Labels := withLabel labels "direction" "recv" |} ].

(** One call of [metricWriter.WriteMetrics]. *)
Record Write := {
  metricType : string;
  points : list (model.TimeSeriesPoint.t F)
}.

Definition writeIfAny (metricType : string) (points : list (model.TimeSeriesPoint.t F))
  : list Write :=
  match points with
  | [] => []
  | _ => [ {| metricType := metricType; points := points |} ]
  end.

(** [flush]: the aggregator it leaves and the calls of the metric writer
    it makes, in order ([now] is the reading of [time.Now()]).  What the
    writer answers is only logged.  The snapshot is ranged over in the order
    of [map_to_list]. *)
Definition flush (now : Z) (a : Aggregator F) : Aggregator F * list Write :=
  let snapshot := services a in
  let a := {| buckets := buckets a; services := ∅ |} in
  if (size snapshot =? 0)%nat then (a, [])
  else
    let entries := map_to_list snapshot in
    let latencyPoints :=
      entries ≫= (λ kv, latencyPointsOf now (buckets a) kv.1 kv.2) in
    let callPoints := (λ kv, callPointOf now kv.1 kv.2) <$> entries in
    let errorPoints := (λ kv, errorPointOf now kv.1 kv.2) <$> entries in
    let trafficPoints := entries ≫= (λ kv, trafficPointsOf now kv.1 kv.2) in
    (a, writeIfAny "latency" latencyPoints ++ writeIfAny "call_rate" callPoints
        ++ writeIfAny "error_rate" errorPoints ++ writeIfAny "traffic" trafficPoints).

End Flush.

Arguments Write F : clear implicits.

End metrics.

(** ** The dependency computer (package graph) *)

Module graph.

(** [linkAccumulator]: the counts and the latency samples of one edge. *)
Record linkAccumulator := {
  parent : string;
  child : string;
  callCount : Z;              (* uint64 *)
  errorCount : Z;             (* uint64 *)
  latencies : list Z          (* []uint64 *)
}.

(** [DependencyComputer]: the accumulators, keyed by "parent->child".  As in
    the aggregator, the map holds pointers that nothing else aliases. *)
Record DependencyComputer := {
  deps : gmap string linkAccumulator
}.

Definition key (src dst : string) : string := src +:+ "->" +:+ dst.

Definition getAcc (dc : DependencyComputer) (src dst : string) : linkAccumulator :=
  match deps dc !! key src dst with
  | Some acc => acc
  | None => {| parent := src; child := dst; callCount := 0; errorCount := 0;
               latencies := [] |}
  end.

Definition addConnectionEvent (dc : DependencyComputer)
    (ev : model.ConnectionEvent.t) : DependencyComputer :=
  let src := model.Endpoint.Service (model.ConnectionEvent.Source ev) in
  let dst := model.Endpoint.Service (model.ConnectionEvent.Destination ev) in
  if String.eqb src "" || String.eqb dst "" || String.eqb src dst then dc
  else
    let acc := getAcc dc src dst in
    let acc :=
      {| parent := parent acc; child := child acc;
         callCount := uint64 (callCount acc + 1);
         errorCount := errorCount acc;
         latencies :=
           if (0 <? model.ConnectionEvent.DurationNs ev)%Z
           then latencies acc ++ [model.ConnectionEvent.DurationNs ev]
           else latencies acc |} in
    {| deps := <[key src dst := acc]> (deps dc) |}.

Definition addHTTPRequestEvent (dc : DependencyComputer)
    (ev : model.HTTPRequestEvent.t) : DependencyComputer :=
  let src := model.Endpoint.Service (model.HTTPRequestEvent.Source ev) in
  let dst := model.Endpoint.Service (model.HTTPRequestEvent.Destination ev) in
  if String.eqb src "" || String.eqb dst "" || String.eqb src dst then dc
  else
    let acc := getAcc dc src dst in
    let acc :=
      {| parent := parent acc; child := child acc;
         callCount := uint64 (callCount acc + 1);
         errorCount :=
           if (500 <=? model.HTTPRequestEvent.StatusCode ev)%Z
           then uint64 (errorCount acc + 1) else errorCount acc;
         latencies :=
           if (0 <? model.HTTPRequestEvent.LatencyNs ev)%Z
           then latencies acc ++ [model.HTTPRequestEvent.LatencyNs ev]
           else latencies acc |} in
    {| deps := <[key src dst := acc]> (deps dc) |}.

(** [sort.Slice(sorted, func(i, j) bool { return sorted[i] < sorted[j] })]:
    the ascending arrangement of the values, here built by insertion. *)
Fixpoint insertSorted (x : Z) (l : list Z) : list Z :=
  match l with
  | [] => [x]
  | y :: rest => if (x <? y)%Z then x :: l else y :: insertSorted x rest
  end.

Definition sortSlice (l : list Z) : list Z := foldr insertSorted [] l.

(** The index that [computeP99] reads, for n > 0 samples.  It is computed
    in float64 and converted with [int(...)]; the literal is the float64
    nearest to 0.99. *)
Definition p99Index (n : Z) : Z :=
  let idx :=
    (f64.ieee_toZ (f64.ieee_ofZ n * 0x1.fae147ae147aep-1 + 0.5)%float - 1)%Z in
  let idx := if (idx <? 0)%Z then 0%Z else idx in
  if (n <=? idx)%Z then (n - 1)%Z else idx.

Definition computeP99 (latencies : list Z) : Z :=
  let n := Z.of_nat (length latencies) in
  if (n =? 0)%Z then 0%Z
  else
    let sorted := sortSlice latencies in
    nth (Z.to_nat (p99Index n)) sorted 0%Z.

(** The index of the specification, to compare [p99Index] with:
    ceil(0.99 * n) - 1, clamped to [0, n-1]. *)
Definition specP99Index (n : Z) : Z :=
  let idx := (Qceiling ((99 # 100) * inject_Z n) - 1)%Z in
  Z.max 0 (Z.min idx (n - 1)).

(** The P99 of the specification: the element at that index of the samples
    in ascending order, and 0 for no sample. *)
Definition specP99 (latencies : list Z) : Z :=
  let n := Z.of_nat (length latencies) in
  if (n =? 0)%Z then 0%Z
  else nth (Z.to_nat (specP99Index n)) (sortSlice latencies) 0%Z.

(** [buildLinks]: one link per accumulator, in the order in which the map
    is ranged over. *)
Definition buildLinks (dc : DependencyComputer) : list model.DependencyLink.t :=
  (λ kv : string * linkAccumulator,
     {| model.DependencyLink.Parent := parent kv.2;
        model.DependencyLink.Child := child kv.2;
        model.DependencyLink.CallCount := callCount kv.2;
        model.DependencyLink.ErrorCount := errorCount kv.2;
        model.DependencyLink.P99LatencyNs := computeP99 (latencies kv.2) |})
  <$> map_to_list (deps dc).

(** [compute], up to the links it hands to the writer.  [conns] and [reqs]
    are the answers of the event reader, [None] for an error, in which case
    the events of that kind are skipped. *)
Definition compute (dc : DependencyComputer)
    (conns : option (list model.ConnectionEvent.t))
    (reqs : option (list model.HTTPRequestEvent.t))
  : DependencyComputer * list model.DependencyLink.t :=
  let dc := {| deps := ∅ |} in
  let dc := match conns with
            | Some conns => foldl addConnectionEvent dc conns
            | None => dc
            end in
  let dc := match reqs with
            | Some reqs => foldl addHTTPRequestEvent dc reqs
            | None => dc
            end in
  (dc, buildLinks dc).

(** An accumulator of a proper edge: both ends named, and different. *)
Definition properEdge (acc : linkAccumulator) : Prop :=
  parent acc ≠ "" ∧ child acc ≠ "" ∧ parent acc ≠ child acc.

Definition properEdges (dc : DependencyComputer) : Prop :=
  map_Forall (λ _ acc, properEdge acc) (deps dc).

(** The byte '>' (0x3E), bit 0 first. *)
Definition gt : Ascii.ascii :=
  Ascii.Ascii false true true true true true false false.

(** Whether a string has a '>' in it. *)
Fixpoint hasGt (s : string) : bool :=
  match s with
  | EmptyString => false
  | String c rest => Ascii.eqb c gt || hasGt rest
  end.

(** The connection events and the request events of the edge from service
    [p] to service [c]. *)
Definition edgeConns (p c : string) (conns : list model.ConnectionEvent.t)
  : list model.ConnectionEvent.t :=
  filter (λ ev, model.Endpoint.Service (model.ConnectionEvent.Source ev) = p ∧
                model.Endpoint.Service (model.ConnectionEvent.Destination ev) = c)
    conns.

Definition edgeReqs (p c : string) (reqs : list model.HTTPRequestEvent.t)
  : list model.HTTPRequestEvent.t :=
  filter (λ ev, model.Endpoint.Service (model.HTTPRequestEvent.Source ev) = p ∧
                model.Endpoint.Service (model.HTTPRequestEvent.Destination ev) = c)
    reqs.

(** The latency samples of an edge: the positive durations of its
    connection events, then the positive latencies of its request events. *)
Definition edgeLatencies (ec : list model.ConnectionEvent.t)
    (er : list model.HTTPRequestEvent.t) : list Z :=
  (model.ConnectionEvent.DurationNs
     <$> filter (λ ev, 0 < model.ConnectionEvent.DurationNs ev)%Z ec)
  ++ (model.HTTPRequestEvent.LatencyNs
        <$> filter (λ ev, 0 < model.HTTPRequestEvent.LatencyNs ev)%Z er).

(** The request events answered with a server error. *)
Definition edgeErrors (er : list model.HTTPRequestEvent.t)
  : list model.HTTPRequestEvent.t :=
  filter (λ ev, 500 ≤ model.HTTPRequestEvent.StatusCode ev)%Z er.

(** The totals of the events of one edge. *)
Definition edgeTotals (p c : string) (ec : list model.ConnectionEvent.t)
    (er : list model.HTTPRequestEvent.t) : linkAccumulator :=
  {| parent := p; child := c;
     callCount := uint64 (Z.of_nat (length ec + length er));
     errorCount := uint64 (Z.of_nat (length (edgeErrors er)));
     latencies := edgeLatencies ec er |}.

(** The accumulators hold, for every proper edge, the totals of its events
    among [cs] and [rs], and nothing else. *)
Definition totalsOf (dc : DependencyComputer)
    (cs : list model.ConnectionEvent.t) (rs : list model.HTTPRequestEvent.t)
  : Prop :=
  (∀ k acc, deps dc !! k = Some acc →
     k = key (parent acc) (child acc) ∧ hasGt (parent acc) = false ∧
     properEdge acc) ∧
  (∀ p c, hasGt p = false → p ≠ "" → c ≠ "" → p ≠ c →
     deps dc !! key p c =
       if (length (edgeConns p c cs) + length (edgeReqs p c rs) =? 0)%nat
       then None
       else Some (edgeTotals p c (edgeConns p c cs) (edgeReqs p c rs))).

End graph.

(** ** The ingestion server (package ingestion) *)

Module ingestion.

Import f64.

Module EndpointProto.
Record t := {
  IP : string;
  Port : Z;                   (* uint32 *)
  Pod : string;
  Namespace : string;
  Workload : string;
  WorkloadType : string;
  Service : string
}.
End EndpointProto.

Module ConnectionEventProto.
Record t := {
  TimestampNs : Z;            (* int64 *)
  Node : string;
  Source : option EndpointProto.t;
  Destination : option EndpointProto.t;
  BytesSent : Z;
  BytesRecv : Z;
  DurationNs : Z;
  Retransmits : Z;
  Protocol : string
}.
End ConnectionEventProto.

Module HTTPRequestEventProto.
Record t := {
  TimestampNs : Z;            (* int64 *)
  Node : string;
  Source : option EndpointProto.t;
  Destination : option EndpointProto.t;
  Method : string;
  Path : string;
  StatusCode : Z;             (* uint32 *)
  LatencyNs : Z;
  Protocol : string
}.
End HTTPRequestEventProto.

Module EventBatch.
Record t := {
  Node : string;
  Connections : list ConnectionEventProto.t;
  HTTPRequests : list HTTPRequestEventProto.t
}.
End EventBatch.

Module StreamResponse.
Record t := { Accepted : Z; Error : string }.
End StreamResponse.

Definition protoToEndpoint (ep : option EndpointProto.t) : model.Endpoint.t :=
  match ep with
  | None => model.Endpoint.zero
  | Some ep =>
      {| model.Endpoint.IP := EndpointProto.IP ep;
         model.Endpoint.Port := uint16 (EndpointProto.Port ep);
         model.Endpoint.Pod := EndpointProto.Pod ep;
         model.Endpoint.Namespace := EndpointProto.Namespace ep;
         model.Endpoint.Workload := EndpointProto.Workload ep;
         model.Endpoint.WorkloadType := EndpointProto.WorkloadType ep;
         model.Endpoint.Service := EndpointProto.Service ep |}
  end.

(** [time.Unix(0, c.TimestampNs)] is the instant [c.TimestampNs]. *)
Definition protoToConnectionEvent (c : ConnectionEventProto.t) (node : string)
  : model.ConnectionEvent.t :=
  let n := ConnectionEventProto.Node c in
  let n := if String.eqb n "" then node else n in
  {| model.ConnectionEvent.Timestamp := ConnectionEventProto.TimestampNs c;
     model.ConnectionEvent.Node := n;
     model.ConnectionEvent.Source := protoToEndpoint (ConnectionEventProto.Source c);
     model.ConnectionEvent.Destination :=
       protoToEndpoint (ConnectionEventProto.Destination c);
     model.ConnectionEvent.BytesSent := ConnectionEventProto.BytesSent c;
     model.ConnectionEvent.BytesRecv := ConnectionEventProto.BytesRecv c;
     model.ConnectionEvent.DurationNs := ConnectionEventProto.DurationNs c;
     model.ConnectionEvent.Retransmits := ConnectionEventProto.Retransmits c;
     model.ConnectionEvent.Protocol := ConnectionEventProto.Protocol c |}.

Definition protoToHTTPRequestEvent (r : HTTPRequestEventProto.t) (node : string)
  : model.HTTPRequestEvent.t :=
  let n := HTTPRequestEventProto.Node r in
  let n := if String.eqb n "" then node else n in
  {| model.HTTPRequestEvent.Timestamp := HTTPRequestEventProto.TimestampNs r;
     model.HTTPRequestEvent.Node := n;
     model.HTTPRequestEvent.Source := protoToEndpoint (HTTPRequestEventProto.Source r);
     model.HTTPRequestEvent.Destination :=
       protoToEndpoint (HTTPRequestEventProto.Destination r);
     model.HTTPRequestEvent.Method := HTTPRequestEventProto.Method r;
     model.HTTPRequestEvent.Path := HTTPRequestEventProto.Path r;
     model.HTTPRequestEvent.StatusCode := uint16 (HTTPRequestEventProto.StatusCode r);
     model.HTTPRequestEvent.LatencyNs := HTTPRequestEventProto.LatencyNs r;
     model.HTTPRequestEvent.Protocol := HTTPRequestEventProto.Protocol r |}.

(** Modelled from the spec: internal/proto/nefi.proto and the gRPC codec
    generated from it, which carry a batch from the exporter's
    [EventBatchProto] to the server's [EventBatch], are not in the source
    tree.  The batch carries [node] and the two repeated lists, and every
    field arrives with the value it was sent with. *)
Definition wireEndpoint (ep : exporter.EndpointProto.t) : EndpointProto.t :=
  {| EndpointProto.IP := exporter.EndpointProto.IP ep;
     EndpointProto.Port := exporter.EndpointProto.Port ep;
     EndpointProto.Pod := exporter.EndpointProto.Pod ep;
     EndpointProto.Namespace := exporter.EndpointProto.Namespace ep;
     EndpointProto.Workload := exporter.EndpointProto.Workload ep;
     EndpointProto.WorkloadType := exporter.EndpointProto.WorkloadType ep;
     EndpointProto.Service := exporter.EndpointProto.Service ep |}.

(** Modelled from the spec: the connection message of the same wire. *)
Definition wireConnection (c : exporter.ConnectionEventProto.t)
  : ConnectionEventProto.t :=
  {| ConnectionEventProto.TimestampNs := exporter.ConnectionEventProto.TimestampNs c;
     ConnectionEventProto.Node := exporter.ConnectionEventProto.Node c;
     ConnectionEventProto.Source :=
       wireEndpoint <$> exporter.ConnectionEventProto.Source c;
     ConnectionEventProto.Destination :=
       wireEndpoint <$> exporter.ConnectionEventProto.Destination c;
     ConnectionEventProto.BytesSent := exporter.ConnectionEventProto.BytesSent c;
     ConnectionEventProto.BytesRecv := exporter.ConnectionEventProto.BytesRecv c;
     ConnectionEventProto.DurationNs := exporter.ConnectionEventProto.DurationNs c;
     ConnectionEventProto.Retransmits := exporter.ConnectionEventProto.Retransmits c;
     ConnectionEventProto.Protocol := exporter.ConnectionEventProto.Protocol c |}.

(** Modelled from the spec: the request message of the same wire. *)
Definition wireRequest (r : exporter.HTTPRequestEventProto.t)
  : HTTPRequestEventProto.t :=
  {| HTTPRequestEventProto.TimestampNs := exporter.HTTPRequestEventProto.TimestampNs r;
     HTTPRequestEventProto.Node := exporter.HTTPRequestEventProto.Node r;
     HTTPRequestEventProto.Source :=
       wireEndpoint <$> exporter.HTTPRequestEventProto.Source r;
     HTTPRequestEventProto.Destination :=
       wireEndpoint <$> exporter.HTTPRequestEventProto.Destination r;
     HTTPRequestEventProto.Method := exporter.HTTPRequestEventProto.Method r;
     HTTPRequestEventProto.Path := exporter.HTTPRequestEventProto.Path r;
     HTTPRequestEventProto.StatusCode := exporter.HTTPRequestEventProto.StatusCode r;
     HTTPRequestEventProto.LatencyNs := exporter.HTTPRequestEventProto.LatencyNs r;
     HTTPRequestEventProto.Protocol := exporter.HTTPRequestEventProto.Protocol r |}.

(** Modelled from the spec: the batch envelope of the same wire. *)
Definition wire (b : exporter.EventBatchProto.t) : EventBatch.t :=
  {| EventBatch.Node := exporter.EventBatchProto.Node b;
     EventBatch.Connections := wireConnection <$> exporter.EventBatchProto.Connections b;
     EventBatch.HTTPRequests := wireRequest <$> exporter.EventBatchProto.HttpRequests b |}.

(** [model.EventWriter]: a store with state [W]; a write answers the new
    state and the error ([None] for nil). *)
Class EventWriter (W : Type) := {
  WriteConnectionEvents : W → list model.ConnectionEvent.t → W * option string;
  WriteHTTPRequestEvents : W → list model.HTTPRequestEvent.t → W * option string
}.

Section Server.

Context {F : Type} `{Float64 F} {W : Type} `{EventWriter W}.

Record IngestionServer := {
  writer : W;
  aggregator : metrics.Aggregator F;
  logger : list LogEntry;
  accepted : Z                (* atomic.Uint64 *)
}.

Definition NewIngestionServer (w : W) (a : metrics.Aggregator F) : IngestionServer :=
  {| writer := w; aggregator := a; logger := []; accepted := 0 |}.

Definition log (s : IngestionServer) (l : Level) (m : string) : IngestionServer :=
  {| writer := writer s; aggregator := aggregator s;
     logger := logger s ++ [{| level := l; msg := m |}];
     accepted := accepted s |}.

(** [TotalAccepted]: the cumulative count of accepted events. *)
Definition TotalAccepted (s : IngestionServer) : Z := accepted s.

(** The two fan-out loops of [processBatch]; [clock i] is the reading of
    [time.Now()] in the i-th observation of the batch. *)
Fixpoint observeConnections (clock : nat → Z) (i : nat)
    (a : metrics.Aggregator F) (conns : list model.ConnectionEvent.t)
  : option (metrics.Aggregator F) :=
  match conns with
  | [] => Some a
  | c :: rest =>
      a' ← metrics.ObserveConnection (clock i) a c;
      observeConnections clock (S i) a' rest
  end.

Fixpoint observeRequests (clock : nat → Z) (i : nat)
    (a : metrics.Aggregator F) (reqs : list model.HTTPRequestEvent.t)
  : option (metrics.Aggregator F) :=
  match reqs with
  | [] => Some a
  | r :: rest =>
      a' ← metrics.ObserveHTTPRequest (clock i) a r;
      observeRequests clock (S i) a' rest
  end.

(** The model events of a batch: each proto event decoded with the node of
    the envelope. *)
Definition decodeConnections (batch : EventBatch.t) : list model.ConnectionEvent.t :=
  (λ c, protoToConnectionEvent c (EventBatch.Node batch))
  <$> EventBatch.Connections batch.

Definition decodeRequests (batch : EventBatch.t) : list model.HTTPRequestEvent.t :=
  (λ r, protoToHTTPRequestEvent r (EventBatch.Node batch))
  <$> EventBatch.HTTPRequests batch.

(** The server with the store and the aggregator in a new state. *)
Definition with_store (s : IngestionServer) (w : W) (a : metrics.Aggregator F)
  : IngestionServer :=
  {| writer := w; aggregator := a; logger := logger s; accepted := accepted s |}.

(** [s.accepted.Add(n)]. *)
Definition count (s : IngestionServer) (n : Z) : IngestionServer :=
  {| writer := writer s; aggregator := aggregator s; logger := logger s;
     accepted := uint64 (accepted s + n) |}.

(** A write that is made only for a list that is not empty, as the two
    [if len(...) > 0] of [processBatch] have it. *)
Definition writeIfAny {A : Type} (write : W → list A → W * option string)
    (w : W) (evs : list A) : W * option string :=
  if (0 <? length evs)%nat then write w evs else (w, None).

(** The first half of [processBatch]: the connection events.  The result is
    the server, the count accepted so far and the error of the write. *)
Definition processConnections (clock : nat → Z) (s : IngestionServer)
    (batch : EventBatch.t) : option (IngestionServer * Z * option string) :=
  let accepted := 0%Z in
  if (0 <? length (EventBatch.Connections batch))%nat then
    let conns := decodeConnections batch in
    let '(w, err) := WriteConnectionEvents (writer s) conns in
    let s := with_store s w (aggregator s) in
    match err with
    | Some err => Some (s, accepted, Some err)
    | None =>
        a ← observeConnections clock 0 (aggregator s) conns;
        Some (with_store s (writer s) a,
              uint64 (accepted + Z.of_nat (length conns)), None)
    end
  else Some (s, accepted, None).

(** The second half: the request events, reached when the first half
    returned no error. *)
Definition processRequests (clock : nat → Z) (s : IngestionServer)
    (batch : EventBatch.t) (accepted : Z)
  : option (IngestionServer * Z * option string) :=
  if (0 <? length (EventBatch.HTTPRequests batch))%nat then
    let reqs := decodeRequests batch in
    let '(w, err) := WriteHTTPRequestEvents (writer s) reqs in
    let s := with_store s w (aggregator s) in
    match err with
    | Some err => Some (s, accepted, Some err)
    | None =>
        a ← observeRequests clock (length (EventBatch.Connections batch))
              (aggregator s) reqs;
        Some (with_store s (writer s) a,
              uint64 (accepted + Z.of_nat (length reqs)), None)
    end
  else Some (s, accepted, None).

(** [processBatch]: the server after the batch, the number of events
    accepted and the error.  [s.accepted.Add(accepted)] runs only on the
    path that returns no error. *)
Definition processBatch (clock : nat → Z) (s : IngestionServer)
    (batch : EventBatch.t) : option (IngestionServer * Z * option string) :=
  '(s, accepted, err) ← processConnections clock s batch;
  match err with
  | Some err => Some (s, accepted, Some err)
  | None =>
      '(s, accepted, err) ← processRequests clock s batch accepted;
      match err with
      | Some err => Some (s, accepted, Some err)
      | None => Some (count s accepted, accepted, None)
      end
  end.

(** The log line of [StreamEvents] after a batch. *)
Definition logBatch (s : IngestionServer) (processErr : option string)
  : IngestionServer :=
  match processErr with
  | Some _ => log s ErrorLevel "failed to process batch"
  | None => log s DebugLevel "processed batch"
  end.

(** What [stream.Recv()] answers before [io.EOF]: a batch or an error. *)
Inductive Recv :=
| RecvBatch (batch : EventBatch.t)
| RecvError (err : string).

(** How [StreamEvents] returns: with the call of [SendAndClose] on a
    response, or with the error of [Recv]. *)
Inductive Outcome :=
| SendAndClose (resp : StreamResponse.t)
| ReturnError (err : string).

(** The [for] loop of [StreamEvents].  [stream] lists the answers of
    [Recv] in order, and [io.EOF] follows the last one; [clock k] is the
    clock while the k-th batch is processed. *)
Fixpoint streamLoop (clock : nat → nat → Z) (k : nat) (s : IngestionServer)
    (totalAccepted : Z) (stream : list Recv)
  : option (IngestionServer * Outcome) :=
  match stream with
  | [] =>
      Some (log s InfoLevel "stream finished",
            SendAndClose {| StreamResponse.Accepted := totalAccepted;
                            StreamResponse.Error := "" |})
  | RecvError err :: _ =>
      Some (log s ErrorLevel "failed to receive batch", ReturnError err)
  | RecvBatch batch :: rest =>
      '(s, accepted, processErr) ← processBatch (clock k) s batch;
      let totalAccepted := uint64 (totalAccepted + accepted) in
      streamLoop clock (S k) (logBatch s processErr) totalAccepted rest
  end.

Definition StreamEvents (clock : nat → nat → Z) (s : IngestionServer)
    (stream : list Recv) : option (IngestionServer * Outcome) :=
  streamLoop clock 0 s 0 stream.

End Server.

Arguments IngestionServer F W : clear implicits.

Section StoreCounts.

Context {W : Type} `{EventWriter W}.

(** What a batch asks of the store, and what [processBatch] returns with
    each answer: the store after the batch, the count and the error.  The
    connection events are written first, when there are any; when that
    write fails the count is 0 and the request events are not written.
    Then the request events are written, when there are any; when that
    write fails the count is the number of connection events.  Otherwise
    the count is the number of all events of the batch. *)
Definition batchCount (w : W) (batch : EventBatch.t) : W * (Z * option string) :=
  match writeIfAny WriteConnectionEvents w (decodeConnections batch) with
  | (w1, Some err) => (w1, (0%Z, Some err))
  | (w1, None) =>
      match writeIfAny WriteHTTPRequestEvents w1 (decodeRequests batch) with
      | (w2, Some err) =>
          (w2, (uint64 (Z.of_nat (length (EventBatch.Connections batch))), Some err))
      | (w2, None) =>
          (w2, (uint64 (Z.of_nat (length (EventBatch.Connections batch))
                        + Z.of_nat (length (EventBatch.HTTPRequests batch))), None))
      end
  end.

(** The count and the error of each batch of a stream, in order, on a
    store that starts as [w]: each batch meets the store as the writes of
    the batches before it left it. *)
Fixpoint streamCounts (w : W) (batches : list EventBatch.t)
  : list (Z * option string) :=
  match batches with
  | [] => []
  | batch :: rest =>
      let '(w', r) := batchCount w batch in r :: streamCounts w' rest
  end.

End StoreCounts.

End ingestion.

(** ** internal/agent/k8s/cache.go *)

Module k8s.

Module OwnerReference.
Record t := { Kind : string; Name : string }.
End OwnerReference.

Module Pod.
Record t := {
  Name : string;
  Namespace : string;
  OwnerReferences : list OwnerReference.t
}.
End Pod.

Module ReplicaSet.
Record t := { OwnerReferences : list OwnerReference.t }.
End ReplicaSet.

(** [Cache]: of the cache, workload resolution uses the clientset only, and
    of the clientset the [Get] of a ReplicaSet by namespace and name, which
    answers [None] for an error. *)
Record Cache := {
  getReplicaSet : string → string → option ReplicaSet.t
}.

(** [strings.LastIndex]: the byte index of the last instance of [sep] in
    [s], or -1.  The scan keeps the last position at which [sep] starts. *)
Fixpoint lastIndexFrom (s sep : string) (i : nat) (found : Z) : Z :=
  let found := if String.prefix sep s then Z.of_nat i else found in
  match s with
  | EmptyString => found
  | String _ rest => lastIndexFrom rest sep (S i) found
  end.

Definition LastIndex (s sep : string) : Z := lastIndexFrom s sep 0 (-1).

Definition stripReplicaSetHash (name : string) : string :=
  let idx := LastIndex name "-" in
  if (idx <=? 0)%Z then name
  else
    let idx := Z.to_nat idx in
    let suffix := String.substring (idx + 1) (String.length name - (idx + 1)) name in
    if (5 <=? String.length suffix)%nat && (String.length suffix <=? 16)%nat
    then String.substring 0 idx name
    else name.

(** The hash suffix of the specification, to compare [stripReplicaSetHash]
    with: a token of length 5 to 16 that consists of alphanumeric
    characters only. *)
Definition isAlphanumeric (c : Ascii.ascii) : bool :=
  let n := Ascii.nat_of_ascii c in
  ((48 <=? n) && (n <=? 57) || (65 <=? n) && (n <=? 90) ||
   (97 <=? n) && (n <=? 122))%nat.

(** The byte '-' (0x2D), bit 0 first. *)
Definition dash : Ascii.ascii :=
  Ascii.Ascii true false true true false true false false.

(** Whether a string has a '-' in it. *)
Fixpoint hasDash (s : string) : bool :=
  match s with
  | EmptyString => false
  | String c rest => Ascii.eqb c dash || hasDash rest
  end.

Definition specIsHashSuffix (token : string) : bool :=
  (5 <=? String.length token)%nat && (String.length token <=? 16)%nat &&
  forallb isAlphanumeric (String.list_ascii_of_string token).

(** The first reference of kind "Deployment" among the owners of the
    ReplicaSet, or "". *)
Fixpoint firstDeployment (refs : list OwnerReference.t) : string :=
  match refs with
  | [] => ""
  | ref :: rest =>
      if String.eqb (OwnerReference.Kind ref) "Deployment"
      then OwnerReference.Name ref
      else firstDeployment rest
  end.

Definition resolveReplicaSetOwner (c : Cache) (namespace rsName : string) : string :=
  match getReplicaSet c namespace rsName with
  | None => ""
  | Some rs => firstDeployment (ReplicaSet.OwnerReferences rs)
  end.

Definition resolveWorkload (c : Cache) (pod : Pod.t) : string * string :=
  match Pod.OwnerReferences pod with
  | [] => (Pod.Name pod, "Pod")
  | owner :: _ =>
      let kind := OwnerReference.Kind owner in
      if String.eqb kind "ReplicaSet" then
        let deployName :=
          resolveReplicaSetOwner c (Pod.Namespace pod) (OwnerReference.Name owner) in
        if negb (String.eqb deployName "") then (deployName, "Deployment")
        else (stripReplicaSetHash (OwnerReference.Name owner), "ReplicaSet")
      else if String.eqb kind "StatefulSet" then
        (OwnerReference.Name owner, "StatefulSet")
      else if String.eqb kind "DaemonSet" then
        (OwnerReference.Name owner, "DaemonSet")
      else if String.eqb kind "Job" then
        (OwnerReference.Name owner, "Job")
      else (OwnerReference.Name owner, kind)
  end.

(** A pod as an informer hands it to a handler: its metadata, and
    [Status.PodIP]. *)
Module PodObject.
Record t := { Meta : Pod.t; PodIP : string }.
End PodObject.

Module ObjectReference.
Record t := { Kind : string; Name : string }.
End ObjectReference.

(** [discoveryv1.Endpoint]: [TargetRef] is [None] for nil. *)
Module SliceEndpoint.
Record t := {
  TargetRef : option ObjectReference.t;
  Addresses : list string
}.
End SliceEndpoint.

Module EndpointSlice.
Record t := {
  Namespace : string;
  Labels : gmap string string;
  Endpoints : list SliceEndpoint.t
}.
End EndpointSlice.

(** [discoveryv1.LabelServiceName]. *)
Definition LabelServiceName : string := "kubernetes.io/service-name".

(** The [obj interface{}] of a handler: a pod, an EndpointSlice, a
    [cache.DeletedFinalStateUnknown] around an object, or a value of another
    type. *)
Inductive Object :=
| PodObj (pod : PodObject.t)
| SliceObj (eps : EndpointSlice.t)
| DeletedFinalStateUnknown (obj : Object)
| OtherObj.

(** The two maps of the cache.  [endpoints] holds pointers that nothing
    else keeps: an update through the pointer is an update of the entry. *)
Record Tables := {
  endpoints : gmap string model.Endpoint.t;       (* IP -> Endpoint *)
  podToServices : gmap string string              (* "namespace/podName" -> service *)
}.

(** [Lookup]: a copy of the entry, [None] for nil. *)
Definition Lookup (t : Tables) (ip : string) : option model.Endpoint.t :=
  endpoints t !! ip.

Definition podKey (namespace podName : string) : string :=
  namespace +:+ "/" +:+ podName.

(** [lookupServiceForPod]: a missing key reads as "". *)
Definition lookupServiceForPod (t : Tables) (namespace podName : string) : string :=
  default "" (podToServices t !! podKey namespace podName).

(** [onPodAdd], also the handler of pod updates.  The service is read in
    one critical section and the entry written in another: [meanwhile] is
    what the handlers of the other informer do to the maps between the two. *)
Definition onPodAdd (c : Cache) (t : Tables) (meanwhile : Tables → Tables)
    (obj : Object) : Tables :=
  match obj with
  | PodObj pod =>
      let podIP := PodObject.PodIP pod in
      if String.eqb podIP "" then t
      else
        let '(workload, workloadType) := resolveWorkload c (PodObject.Meta pod) in
        let svcName :=
          lookupServiceForPod t (Pod.Namespace (PodObject.Meta pod))
            (Pod.Name (PodObject.Meta pod)) in
        let ep :=
          {| model.Endpoint.IP := podIP; model.Endpoint.Port := 0;
             model.Endpoint.Pod := Pod.Name (PodObject.Meta pod);
             model.Endpoint.Namespace := Pod.Namespace (PodObject.Meta pod);
             model.Endpoint.Workload := workload;
             model.Endpoint.WorkloadType := workloadType;
             model.Endpoint.Service := svcName |} in
        let t := meanwhile t in
        {| endpoints := <[podIP := ep]> (endpoints t);
           podToServices := podToServices t |}
  | _ => t
  end.

(** The pod that a delete handler is given: the object itself, or the one
    inside a tombstone. *)
Definition deletedPod (obj : Object) : option PodObject.t :=
  match obj with
  | PodObj pod => Some pod
  | DeletedFinalStateUnknown (PodObj pod) => Some pod
  | _ => None
  end.

Definition onPodDelete (t : Tables) (obj : Object) : Tables :=
  match deletedPod obj with
  | None => t
  | Some pod =>
      let podIP := PodObject.PodIP pod in
      if String.eqb podIP "" then t
      else {| endpoints := delete podIP (endpoints t);
              podToServices := podToServices t |}
  end.

(** The endpoint with its [Service] set to [svcName]. *)
Definition withService (existing : model.Endpoint.t) (svcName : string)
  : model.Endpoint.t :=
  {| model.Endpoint.IP := model.Endpoint.IP existing;
     model.Endpoint.Port := model.Endpoint.Port existing;
     model.Endpoint.Pod := model.Endpoint.Pod existing;
     model.Endpoint.Namespace := model.Endpoint.Namespace existing;
     model.Endpoint.Workload := model.Endpoint.Workload existing;
     model.Endpoint.WorkloadType := model.Endpoint.WorkloadType existing;
     model.Endpoint.Service := svcName |}.

(** [existing.Service = svcName] on the entry of [addr], when there is one. *)
Definition setService (svcName : string) (t : Tables) (addr : string) : Tables :=
  match endpoints t !! addr with
  | Some existing =>
      {| endpoints := <[addr := withService existing svcName]> (endpoints t);
         podToServices := podToServices t |}
  | None => t
  end.

(** Whether [ep.TargetRef != nil && ep.TargetRef.Kind == "Pod"], and then
    the name of the pod. *)
Definition targetPod (ep : SliceEndpoint.t) : option string :=
  match SliceEndpoint.TargetRef ep with
  | Some ref =>
      if String.eqb (ObjectReference.Kind ref) "Pod"
      then Some (ObjectReference.Name ref) else None
  | None => None
  end.

(** The body of the loop of [onEndpointSliceUpdate] for one endpoint. *)
Definition updateEndpoint (namespace svcName : string) (t : Tables)
    (ep : SliceEndpoint.t) : Tables :=
  let t :=
    match targetPod ep with
    | Some name =>
        {| endpoints := endpoints t;
           podToServices := <[podKey namespace name := svcName]> (podToServices t) |}
    | None => t
    end in
  foldl (setService svcName) t (SliceEndpoint.Addresses ep).

Definition onEndpointSliceUpdate (t : Tables) (obj : Object) : Tables :=
  match obj with
  | SliceObj eps =>
      let svcName := default "" (EndpointSlice.Labels eps !! LabelServiceName) in
      if String.eqb svcName "" then t
      else foldl (updateEndpoint (EndpointSlice.Namespace eps) svcName) t
             (EndpointSlice.Endpoints eps)
  | _ => t
  end.

(** The slice that the delete handler is given. *)
Definition deletedSlice (obj : Object) : option EndpointSlice.t :=
  match obj with
  | SliceObj eps => Some eps
  | DeletedFinalStateUnknown (SliceObj eps) => Some eps
  | _ => None
  end.

(** The body of the loop of [onEndpointSliceDelete] for one endpoint. *)
Definition deleteEndpoint (namespace : string) (t : Tables)
    (ep : SliceEndpoint.t) : Tables :=
  let t :=
    match targetPod ep with
    | Some name =>
        {| endpoints := endpoints t;
           podToServices := delete (podKey namespace name) (podToServices t) |}
    | None => t
    end in
  foldl (setService "") t (SliceEndpoint.Addresses ep).

Definition onEndpointSliceDelete (t : Tables) (obj : Object) : Tables :=
  match deletedSlice obj with
  | None => t
  | Some eps =>
      foldl (deleteEndpoint (EndpointSlice.Namespace eps)) t
        (EndpointSlice.Endpoints eps)
  end.

End k8s.

(** ** internal/agent/ebpf/loader.go *)

Module ebpf.

(** [HttpEvent], the raw record; [Method] is the uint8 as a byte and [Path]
    the 128 bytes of the path buffer. *)
Record HttpEvent := {
  TimestampNs : Z;            (* uint64 *)
  SrcIP : Z;                  (* uint32 *)
  DstIP : Z;                  (* uint32 *)
  SrcPort : Z;                (* uint16 *)
  DstPort : Z;                (* uint16 *)
  Method : byte;              (* uint8 *)
  StatusCode : Z;             (* uint16 *)
  LatencyNs : Z;              (* uint64 *)
  Path : list byte            (* [128]byte *)
}.

(** [httpMethods]: the map from the method byte to the method string. *)
Definition httpMethods : gmap N string :=
  list_to_map
    [ (0%N, "UNKNOWN"); (1%N, "GET"); (2%N, "POST"); (3%N, "PUT");
      (4%N, "DELETE"); (5%N, "PATCH"); (6%N, "HEAD"); (7%N, "OPTIONS") ].

(** [net.IPv4(a, b, c, d).String()] of the four bytes of [ip], lowest first. *)
Definition intToIPv4 (ip : Z) : string :=
  pretty (uint8 ip) +:+ "." +:+
  pretty (uint8 (Z.shiftr ip 8)) +:+ "." +:+
  pretty (uint8 (Z.shiftr ip 16)) +:+ "." +:+
  pretty (uint8 (Z.shiftr ip 24)).

(** The [for i, b := range pathBytes] loop: the index of the first NUL, or
    the number of bytes when there is none. *)
Fixpoint pathLen (pathBytes : list byte) (i : nat) : nat :=
  match pathBytes with
  | [] => i
  | b :: rest => if Byte.eqb b x00 then i else pathLen rest (S i)
  end.

Definition httpEventToModel (he : HttpEvent) : model.HTTPRequestEvent.t :=
  let method := match httpMethods !! Byte.to_N (Method he) with
                | Some method => method
                | None => "UNKNOWN"
                end in
  let path := String.string_of_list_byte (take (pathLen (Path he) 0) (Path he)) in
  {| model.HTTPRequestEvent.Timestamp := int64 (TimestampNs he);
     model.HTTPRequestEvent.Node := "";
     model.HTTPRequestEvent.Source :=
       {| model.Endpoint.IP := intToIPv4 (SrcIP he);
          model.Endpoint.Port := SrcPort he;
          model.Endpoint.Pod := ""; model.Endpoint.Namespace := "";
          model.Endpoint.Workload := ""; model.Endpoint.WorkloadType := "";
          model.Endpoint.Service := "" |};
     model.HTTPRequestEvent.Destination :=
       {| model.Endpoint.IP := intToIPv4 (DstIP he);
          model.Endpoint.Port := DstPort he;
          model.Endpoint.Pod := ""; model.Endpoint.Namespace := "";
          model.Endpoint.Workload := ""; model.Endpoint.WorkloadType := "";
          model.Endpoint.Service := "" |};
     model.HTTPRequestEvent.Method := method;
     model.HTTPRequestEvent.Path := path;
     model.HTTPRequestEvent.StatusCode := StatusCode he;
     model.HTTPRequestEvent.LatencyNs := LatencyNs he;
     model.HTTPRequestEvent.Protocol := "HTTP" |}.

(** The method strings by method byte, as the record format lists them. *)
Definition methodNames : list string :=
  [ "UNKNOWN"; "GET"; "POST"; "PUT"; "DELETE"; "PATCH"; "HEAD"; "OPTIONS" ].

(** [ConnEvent], the raw record; [Pad] is left out. *)
Module ConnEvent.
Record t := {
  TimestampNs : Z;            (* uint64 *)
  SrcIP : Z;                  (* uint32 *)
  DstIP : Z;                  (* uint32 *)
  SrcPort : Z;                (* uint16 *)
  DstPort : Z;                (* uint16 *)
  BytesSent : Z;              (* uint64 *)
  BytesRecv : Z;              (* uint64 *)
  DurationNs : Z;             (* uint64 *)
  Retransmits : Z;            (* uint32 *)
  Protocol : byte             (* uint8 *)
}.

(** Every field holds a value of its Go type. *)
Definition wf (ce : t) : Prop :=
  is_uint64 (TimestampNs ce) ∧ is_uint32 (SrcIP ce) ∧ is_uint32 (DstIP ce) ∧
  is_uint16 (SrcPort ce) ∧ is_uint16 (DstPort ce) ∧ is_uint64 (BytesSent ce) ∧
  is_uint64 (BytesRecv ce) ∧ is_uint64 (DurationNs ce) ∧
  is_uint32 (Retransmits ce).
End ConnEvent.


(** [unsafe.Sizeof] of a struct value, as the gc compiler lays structs out:
    each field, given by its size and its alignment, starts at the next
    multiple of its alignment, and the size is rounded up to the largest
    alignment among the fields.  On the 64-bit platforms a uint64 is aligned
    to 8 bytes. *)
Definition alignUp (offset align : nat) : nat :=
  ((offset + align - 1) / align * align)%nat.

Definition structSize (fields : list (nat * nat)) : nat :=
  let end_ :=
    foldl (λ acc field, (alignUp acc.1 field.2 + field.1, acc.2 `max` field.2)%nat)
      (0, 1)%nat fields in
  alignUp end_.1 end_.2.

(** The fields of [ConnEvent] and of [HttpEvent], in the order of their
    declaration: size and alignment. *)
Definition connEventFields : list (nat * nat) :=
  [ (8, 8); (4, 4); (4, 4); (2, 2); (2, 2); (8, 8); (8, 8); (8, 8); (4, 4);
    (1, 1); (3, 1) ]%nat.

Definition httpEventFields : list (nat * nat) :=
  [ (8, 8); (4, 4); (4, 4); (2, 2); (2, 2); (1, 1); (2, 2); (8, 8); (128, 1);
    (1, 1) ]%nat.

(** [binary.LittleEndian.Uint16], [Uint32] and [Uint64] of a slice of 2, 4
    and 8 bytes. *)
Fixpoint littleEndian (b : list byte) : Z :=
  match b with
  | [] => 0
  | x :: rest => Z.of_N (Byte.to_N x) + 256 * littleEndian rest
  end.

(** [raw[lo:hi]], for [hi] within the slice. *)
Definition slice (raw : list byte) (lo hi : nat) : list byte :=
  take (hi - lo) (drop lo raw).

(** What [readConnEvents] does with the raw sample of a record: [None]
    when the sample is too small and the record is skipped. *)
Definition decodeConnSample (raw : list byte) : option ConnEvent.t :=
  let expectedSize := structSize connEventFields in
  if (length raw <? expectedSize)%nat then None
  else
    Some {| ConnEvent.TimestampNs := littleEndian (slice raw 0 8);
            ConnEvent.SrcIP := littleEndian (slice raw 8 12);
            ConnEvent.DstIP := littleEndian (slice raw 12 16);
            ConnEvent.SrcPort := littleEndian (slice raw 16 18);
            ConnEvent.DstPort := littleEndian (slice raw 18 20);
            ConnEvent.BytesSent := littleEndian (slice raw 20 28);
            ConnEvent.BytesRecv := littleEndian (slice raw 28 36);
            ConnEvent.DurationNs := littleEndian (slice raw 36 44);
            ConnEvent.Retransmits := littleEndian (slice raw 44 48);
            ConnEvent.Protocol := nth 48 raw x00 |}.

(** The same for [readHTTPEvents]. *)
Definition decodeHTTPSample (raw : list byte) : option HttpEvent :=
  let expectedSize := structSize httpEventFields in
  if (length raw <? expectedSize)%nat then None
  else
    Some {| TimestampNs := littleEndian (slice raw 0 8);
            SrcIP := littleEndian (slice raw 8 12);
            DstIP := littleEndian (slice raw 12 16);
            SrcPort := littleEndian (slice raw 16 18);
            DstPort := littleEndian (slice raw 18 20);
            Method := nth 20 raw x00;
            StatusCode := littleEndian (slice raw 21 23);
            LatencyNs := littleEndian (slice raw 23 31);
            Path := slice raw 31 159 |}.

(** An endpoint that has its address and port only. *)
Definition bareEndpoint (ip port : Z) : model.Endpoint.t :=
  {| model.Endpoint.IP := intToIPv4 ip; model.Endpoint.Port := port;
     model.Endpoint.Pod := ""; model.Endpoint.Namespace := "";
     model.Endpoint.Workload := ""; model.Endpoint.WorkloadType := "";
     model.Endpoint.Service := "" |}.

Definition connEventToModel (ce : ConnEvent.t) : model.ConnectionEvent.t :=
  let proto := if (Byte.to_N (ConnEvent.Protocol ce) =? 17)%N then "UDP" else "TCP" in
  {| model.ConnectionEvent.Timestamp := int64 (ConnEvent.TimestampNs ce);
     model.ConnectionEvent.Node := "";
     model.ConnectionEvent.Source :=
       bareEndpoint (ConnEvent.SrcIP ce) (ConnEvent.SrcPort ce);
     model.ConnectionEvent.Destination :=
       bareEndpoint (ConnEvent.DstIP ce) (ConnEvent.DstPort ce);
     model.ConnectionEvent.BytesSent := ConnEvent.BytesSent ce;
     model.ConnectionEvent.BytesRecv := ConnEvent.BytesRecv ce;
     model.ConnectionEvent.DurationNs := ConnEvent.DurationNs ce;
     model.ConnectionEvent.Retransmits := ConnEvent.Retransmits ce;
     model.ConnectionEvent.Protocol := proto |}.

(** What [Read] on a perf reader answers: a record with its count of lost
    samples and its raw sample, the error of an unknown event, or another
    error. *)
Inductive PerfRead :=
| PerfRecord (lostSamples : Z) (rawSample : list byte)
| UnknownEvent
| ReadError (err : string).

(** The loops of [readConnEvents] and [readHTTPEvents]: the events
    published on the channel, in order, for the answers of [Read] in order
    (the loop ends with the list when the context is cancelled). *)
Fixpoint readConnEvents (reads : list PerfRead) : list model.ConnectionEvent.t :=
  match reads with
  | [] => []
  | UnknownEvent :: rest => readConnEvents rest
  | ReadError _ :: _ => []
  | PerfRecord lostSamples raw :: rest =>
      if (0 <? lostSamples)%Z then readConnEvents rest
      else
        match decodeConnSample raw with
        | None => readConnEvents rest
        | Some ce => connEventToModel ce :: readConnEvents rest
        end
  end.

Fixpoint readHTTPEvents (reads : list PerfRead) : list model.HTTPRequestEvent.t :=
  match reads with
  | [] => []
  | UnknownEvent :: rest => readHTTPEvents rest
  | ReadError _ :: _ => []
  | PerfRecord lostSamples raw :: rest =>
      if (0 <? lostSamples)%Z then readHTTPEvents rest
      else
        match decodeHTTPSample raw with
        | None => readHTTPEvents rest
        | Some he => httpEventToModel he :: readHTTPEvents rest
        end
  end.





End ebpf.

(** ** Sample inputs *)

Module scenario.

(** The i-th connection event of a run: only the timestamp tells the
    events apart. *)
Definition connectionAt (i : Z) : model.ConnectionEvent.t :=
  {| model.ConnectionEvent.Timestamp := i;
     model.ConnectionEvent.Node := "";
     model.ConnectionEvent.Source := model.Endpoint.zero;
     model.ConnectionEvent.Destination := model.Endpoint.zero;
     model.ConnectionEvent.BytesSent := 0;
     model.ConnectionEvent.BytesRecv := 0;
     model.ConnectionEvent.DurationNs := 0;
     model.ConnectionEvent.Retransmits := 0;
     model.ConnectionEvent.Protocol := "TCP" |}.

Definition eventAt (i : Z) : exporter.Event :=
  exporter.ConnectionEvent (connectionAt i).

(** [model.ConnectionEvent{Protocol: "TCP"}]: a connection event whose
    timestamp was never set. *)
Definition unstampedConnection : model.ConnectionEvent.t :=
  connectionAt model.zeroTime.

Fixpoint countFrom (from : Z) (count : nat) : list Z :=
  match count with
  | O => []
  | S count => from :: countFrom (from + 1)%Z count
  end.

(** Events number [from], [from + 1], ..., [count] of them. *)
Definition events (from : Z) (count : nat) : list exporter.Event :=
  eventAt <$> countFrom from count.

(** A stream on which every [Send] fails. *)
Definition brokenStream : exporter.Stream :=
  {| exporter.Send := λ _, Some "EOF" |}.

(** An exporter as [NewExporter] makes it, with a stream that is broken and
    a queue that holds events 1 to 10000: the queue is full. *)
Definition fullExporter : exporter.Exporter :=
  let e := exporter.NewExporter "nefi-server:9090" "node-1" in
  {| exporter.logger := exporter.logger e; exporter.addr := exporter.addr e;
     exporter.nodeName := exporter.nodeName e;
     exporter.queue := events 1 10000;
     exporter.stream := Some brokenStream;
     exporter.batchSize := exporter.batchSize e;
     exporter.flushInterval := exporter.flushInterval e;
     exporter.queueLimit := exporter.queueLimit e |}.


(** A pod of a ReplicaSet named [rsName] that no Deployment owns, and a
    cache whose clientset knows that ReplicaSet. *)
Definition standalonePod (rsName : string) : k8s.Pod.t :=
  {| k8s.Pod.Name := rsName +:+ "-x7k2p"; k8s.Pod.Namespace := "default";
     k8s.Pod.OwnerReferences :=
       [ {| k8s.OwnerReference.Kind := "ReplicaSet";
            k8s.OwnerReference.Name := rsName |} ] |}.

Definition standaloneCache : k8s.Cache :=
  {| k8s.getReplicaSet := λ _ _, Some {| k8s.ReplicaSet.OwnerReferences := [] |} |}.

(** A store that keeps the events it is given, and that refuses
    connection events while it is [down]. *)
Record Store := {
  down : bool;
  connections : list model.ConnectionEvent.t;
  requests : list model.HTTPRequestEvent.t
}.

#[global] Instance storeWriter : ingestion.EventWriter Store := {|
  ingestion.WriteConnectionEvents w evs :=
    if down w then (w, Some "storage unavailable")
    else ({| down := down w; connections := connections w ++ evs;
             requests := requests w |}, None);
  ingestion.WriteHTTPRequestEvents w evs :=
    ({| down := down w; connections := connections w;
        requests := requests w ++ evs |}, None)
|}.

(** A batch from node-1 with one connection and one request, both from
    service "web" to service "api". *)
Definition webToApi : ingestion.EndpointProto.t * ingestion.EndpointProto.t :=
  ({| ingestion.EndpointProto.IP := "10.0.0.5"; ingestion.EndpointProto.Port := 41000;
      ingestion.EndpointProto.Pod := "web-1"; ingestion.EndpointProto.Namespace := "default";
      ingestion.EndpointProto.Workload := "web";
      ingestion.EndpointProto.WorkloadType := "Deployment";
      ingestion.EndpointProto.Service := "web" |},
   {| ingestion.EndpointProto.IP := "10.0.0.9"; ingestion.EndpointProto.Port := 8080;
      ingestion.EndpointProto.Pod := "api-1"; ingestion.EndpointProto.Namespace := "default";
      ingestion.EndpointProto.Workload := "api";
      ingestion.EndpointProto.WorkloadType := "Deployment";
      ingestion.EndpointProto.Service := "api" |}).

Definition connectionProto : ingestion.ConnectionEventProto.t :=
  {| ingestion.ConnectionEventProto.TimestampNs := 1000;
     ingestion.ConnectionEventProto.Node := "";
     ingestion.ConnectionEventProto.Source := Some webToApi.1;
     ingestion.ConnectionEventProto.Destination := Some webToApi.2;
     ingestion.ConnectionEventProto.BytesSent := 512;
     ingestion.ConnectionEventProto.BytesRecv := 2048;
     ingestion.ConnectionEventProto.DurationNs := 2000000;
     ingestion.ConnectionEventProto.Retransmits := 0;
     ingestion.ConnectionEventProto.Protocol := "TCP" |}.

Definition requestProto : ingestion.HTTPRequestEventProto.t :=
  {| ingestion.HTTPRequestEventProto.TimestampNs := 2000;
     ingestion.HTTPRequestEventProto.Node := "";
     ingestion.HTTPRequestEventProto.Source := Some webToApi.1;
     ingestion.HTTPRequestEventProto.Destination := Some webToApi.2;
     ingestion.HTTPRequestEventProto.Method := "GET";
     ingestion.HTTPRequestEventProto.Path := "/items";
     ingestion.HTTPRequestEventProto.StatusCode := 200;
     ingestion.HTTPRequestEventProto.LatencyNs := 4000000;
     ingestion.HTTPRequestEventProto.Protocol := "HTTP" |}.

Definition mixedBatch : ingestion.EventBatch.t :=
  {| ingestion.EventBatch.Node := "node-1";
     ingestion.EventBatch.Connections := [connectionProto];
     ingestion.EventBatch.HTTPRequests := [requestProto] |}.

Definition requestBatch : ingestion.EventBatch.t :=
  {| ingestion.EventBatch.Node := "node-1";
     ingestion.EventBatch.Connections := [];
     ingestion.EventBatch.HTTPRequests := [requestProto] |}.

(** A server over a store that is down, with a fresh aggregator. *)
Definition serverOnDownStore : ingestion.IngestionServer float Store :=
  ingestion.NewIngestionServer
    {| down := true; connections := []; requests := [] |}
    metrics.NewAggregator.

(** What a stream leaves: the requests in the store, the calls counted for
    service "api" by the aggregator, and how [StreamEvents] returned. *)
Definition streamResult (s : ingestion.IngestionServer float Store)
    (batches : list ingestion.EventBatch.t)
  : option (list model.HTTPRequestEvent.t * option Z * ingestion.Outcome) :=
  (λ r, (requests (ingestion.writer r.1),
         metrics.callCount <$> metrics.services (ingestion.aggregator r.1) !! "api",
         r.2))
  <$> ingestion.StreamEvents (λ _ _, 0%Z) s (ingestion.RecvBatch <$> batches).

(** What a call of [flush] leaves: the queue and the error returned. *)
Definition flushResult (e : exporter.Exporter) (meanwhile : list exporter.Event)
  : option (list exporter.Event * option string) :=
  (λ r, (exporter.queue r.1, r.2)) <$> exporter.flush e meanwhile.

(** The connection and the request of [mixedBatch], as the server decodes
    them: both from service "web" to service "api". *)
Definition webConnection : model.ConnectionEvent.t :=
  ingestion.protoToConnectionEvent scenario.connectionProto "node-1".

Definition webRequest : model.HTTPRequestEvent.t :=
  ingestion.protoToHTTPRequestEvent scenario.requestProto "node-1".

(** A store that keeps the connection events it is given and whose index
    of request events is read-only. *)
Record ConnectionStore := { kept : list model.ConnectionEvent.t }.

#[global] Instance connectionStoreWriter : ingestion.EventWriter ConnectionStore := {|
  ingestion.WriteConnectionEvents w evs := ({| kept := kept w ++ evs |}, None);
  ingestion.WriteHTTPRequestEvents w evs := (w, Some "index is read-only")
|}.

(** A server over such a store, with a fresh aggregator. *)
Definition serverOnConnectionStore
  : ingestion.IngestionServer float ConnectionStore :=
  ingestion.NewIngestionServer {| kept := [] |} metrics.NewAggregator.

(** A pod of the ReplicaSet "api-6b8f7c9d4" at 10.0.0.9, the EndpointSlice
    of the service "api" that targets it, and a cache that has seen
    nothing. *)
Definition apiPod : k8s.PodObject.t :=
  {| k8s.PodObject.Meta := scenario.standalonePod "api-6b8f7c9d4";
     k8s.PodObject.PodIP := "10.0.0.9" |}.

Definition apiSlice : k8s.EndpointSlice.t :=
  {| k8s.EndpointSlice.Namespace := "default";
     k8s.EndpointSlice.Labels := {[ k8s.LabelServiceName := "api" ]};
     k8s.EndpointSlice.Endpoints :=
       [ {| k8s.SliceEndpoint.TargetRef :=
              Some {| k8s.ObjectReference.Kind := "Pod";
                      k8s.ObjectReference.Name := "api-6b8f7c9d4-x7k2p" |};
            k8s.SliceEndpoint.Addresses := ["10.0.0.9"] |} ] |}.

Definition noTables : k8s.Tables :=
  {| k8s.endpoints := ∅; k8s.podToServices := ∅ |}.



End scenario.

(** * Properties *)

(** Closes [lhs = rhs] by evaluating both sides in the virtual machine. *)
Ltac by_vm :=
  lazymatch goal with
  | |- _ = ?rhs => vm_cast_no_check (@eq_refl _ rhs)
  end.

Example intToIPv4_example : ebpf.intToIPv4 0x0100007f = "127.0.0.1".
Proof. vm_compute. reflexivity. Qed.

(** ** The export queue *)

Section ExporterQueue.

Import exporter.

Lemma dropped_with_queue e q : dropped (with_queue e q) = dropped e.
Proof. reflexivity. Qed.

Lemma dropped_log_warning e :
  dropped (log e WarnLevel dropWarning) = S (dropped e).
Proof.
  unfold dropped, log; simpl.
  rewrite filter_app, length_app. simpl. lia.
Qed.

(** One call: below the limit the event is appended; at the limit (or
    above it) the head goes first, and one warning is logged. *)
Lemma Enqueue_step e evt :
  (0 < queueLimit e)%nat →
  ∃ e', Enqueue e evt = Some e' ∧ queueLimit e' = queueLimit e ∧
    if (queueLimit e <=? length (queue e))%nat
    then queue e' = tail (queue e) ++ [evt] ∧ dropped e' = S (dropped e)
    else queue e' = queue e ++ [evt] ∧ dropped e' = dropped e.
Proof.
  intros HB. unfold Enqueue.
  destruct (queueLimit e <=? length (queue e))%nat eqn:Hfull.
  - apply Nat.leb_le in Hfull.
    destruct (queue e) as [|old rest] eqn:Hq; simpl in Hfull; [lia|].
    eexists; split; [reflexivity|]. simpl. split; [reflexivity|].
    split; [reflexivity|].
    rewrite dropped_with_queue, dropped_log_warning. reflexivity.
  - eexists; split; [reflexivity|]. simpl. auto.
Qed.

(** A run of calls from a queue within the limit: what is left is the
    tail of everything that was ever in the queue, cut to the limit. *)
Lemma EnqueueAll_spec evts : ∀ e,
  (0 < queueLimit e)%nat → (length (queue e) ≤ queueLimit e)%nat →
  ∃ e', EnqueueAll e evts = Some e' ∧ queueLimit e' = queueLimit e ∧
    queue e' = drop (length (queue e ++ evts) - queueLimit e) (queue e ++ evts) ∧
    dropped e' = (dropped e + (length (queue e ++ evts) - queueLimit e))%nat.
Proof.
  induction evts as [|evt evts IH]; intros e HB Hlen.
  - exists e. rewrite app_nil_r.
    replace (length (queue e) - queueLimit e)%nat with 0%nat by lia.
    simpl. repeat split; auto.
  - destruct (Enqueue_step e evt HB) as (e1 & He1 & HB1 & Hstep).
    simpl. rewrite He1.
    assert (Hq1 : queue e1 = drop (length (queue e) + 1 - queueLimit e) (queue e ++ [evt])
                  ∧ dropped e1 = (dropped e + (length (queue e) + 1 - queueLimit e))%nat).
    { destruct (queueLimit e <=? length (queue e))%nat eqn:Hfull.
      - apply Nat.leb_le in Hfull. destruct Hstep as [-> ->].
        replace (length (queue e) + 1 - queueLimit e)%nat with 1%nat by lia.
        destruct (queue e); simpl in *; [lia|]. split; [reflexivity|lia].
      - apply Nat.leb_gt in Hfull. destruct Hstep as [-> ->].
        replace (length (queue e) + 1 - queueLimit e)%nat with 0%nat by lia.
        split; [reflexivity|lia]. }
    destruct Hq1 as [Hq1 Hd1].
    assert (Hlen1 : (length (queue e1) ≤ queueLimit e1)%nat).
    { rewrite Hq1, length_drop, length_app, HB1. simpl. lia. }
    destruct (IH e1 ltac:(lia) Hlen1) as (e' & He' & HB' & Hq' & Hd').
    exists e'. split; [exact He'|]. split; [congruence|].
    rewrite Hq', Hd', Hd1, HB1, Hq1. clear.
    set (b := (length (queue e) + 1 - queueLimit e)%nat).
    assert (Hb : (b ≤ length (queue e ++ [evt]))%nat)
      by (rewrite length_app; simpl; lia).
    rewrite <- (drop_app_le _ evts _ Hb), drop_drop, <- app_assoc. simpl.
    rewrite length_drop, !length_app. simpl length.
    rewrite length_app in Hb; simpl in Hb.
    split; [f_equal; lia | lia].
Qed.

End ExporterQueue.

(** C1.  For every run of [Enqueue] calls on an exporter with an empty queue
    and a positive bound B: after every prefix of the run the queue holds at
    most B events; a call that finds B events in the queue drops exactly the
    head, logs one drop and appends; and after k calls the queue holds the
    last min(k, B) events of the run in order, k - B events having been
    dropped when k > B (none otherwise). *)
Theorem Enqueue_bounded_drop_oldest
    (e : exporter.Exporter) (evts : list exporter.Event) :
  (0 < exporter.queueLimit e)%nat → exporter.queue e = [] →
  (∀ j, ∃ ej, exporter.EnqueueAll e (take j evts) = Some ej ∧
      (length (exporter.queue ej) ≤ exporter.queueLimit e)%nat) ∧
  (∀ e1 evt, exporter.queueLimit e1 = exporter.queueLimit e →
      length (exporter.queue e1) = exporter.queueLimit e →
      ∃ e2, exporter.Enqueue e1 evt = Some e2 ∧
        exporter.queue e2 = tail (exporter.queue e1) ++ [evt] ∧
        exporter.dropped e2 = S (exporter.dropped e1)) ∧
  (∃ e', exporter.EnqueueAll e evts = Some e' ∧
      exporter.queue e' = drop (length evts - exporter.queueLimit e) evts ∧
      length (exporter.queue e') = (length evts `min` exporter.queueLimit e)%nat ∧
      exporter.dropped e' =
        (exporter.dropped e + (length evts - exporter.queueLimit e))%nat).
Proof.
  intros HB Hempty.
  assert (Hlen : (length (exporter.queue e) ≤ exporter.queueLimit e)%nat)
    by (rewrite Hempty; simpl; lia).
  split; [|split].
  - intros j.
    destruct (EnqueueAll_spec (take j evts) e HB Hlen) as (ej & Hej & _ & Hq & _).
    exists ej. split; [exact Hej|]. rewrite Hq, length_drop. lia.
  - intros e1 evt HB1 Hfull.
    destruct (Enqueue_step e1 evt ltac:(lia)) as (e2 & He2 & _ & Hstep).
    replace (exporter.queueLimit e1 <=? length (exporter.queue e1))%nat
      with true in Hstep by (symmetry; apply Nat.leb_le; lia).
    exists e2. tauto.
  - destruct (EnqueueAll_spec evts e HB Hlen) as (e' & He' & _ & Hq & Hd).
    rewrite Hempty in Hq, Hd. simpl in Hq, Hd.
    exists e'. split; [exact He'|]. split; [exact Hq|].
    split; [|exact Hd]. rewrite Hq, length_drop. lia.
Qed.

(** Scenario B of the specification: 10050 events into a fresh exporter
    leave 50 drops and 10000 events, the first of which is event 51. *)
Lemma Enqueue_bounded_drop_oldest_witness :
  ∃ e', exporter.EnqueueAll (exporter.NewExporter "nefi-server:9090" "node-1")
          (scenario.events 1 10050) = Some e' ∧
    exporter.dropped e' = 50%nat ∧
    length (exporter.queue e') = 10000%nat ∧
    head (exporter.queue e') = Some (scenario.eventAt 51).
Proof.
  destruct (Enqueue_bounded_drop_oldest
              (exporter.NewExporter "nefi-server:9090" "node-1")
              (scenario.events 1 10050))
    as (_ & _ & e' & He' & Hq & Hlen & Hd).
  - apply Nat.ltb_lt. by_vm.
  - reflexivity.
  - exists e'. split; [exact He'|].
    split; [rewrite Hd; by_vm|].
    split; [rewrite Hlen; by_vm|].
    rewrite Hq. by_vm.
Defined.

(** ** Putting a batch back after a failed send *)

Section ExporterFlush.

Import exporter.

Lemma logN_queue e l m n : queue (logN e l m n) = queue e.
Proof. induction n as [|n IH]; simpl; auto. Qed.

Lemma logN_stream e l m n : stream (logN e l m n) = stream e.
Proof. induction n as [|n IH]; simpl; auto. Qed.

Lemma logN_queueLimit e l m n : queueLimit (logN e l m n) = queueLimit e.
Proof. induction n as [|n IH]; simpl; auto. Qed.

Lemma EnqueueAll_fields evts : ∀ e e',
  EnqueueAll e evts = Some e' →
  stream e' = stream e ∧ nodeName e' = nodeName e ∧ queueLimit e' = queueLimit e.
Proof.
  induction evts as [|evt evts IH]; intros e e' He; simpl in He.
  - inversion He; auto.
  - destruct (Enqueue e evt) as [e1|] eqn:H1; [|discriminate].
    apply IH in He. destruct He as (-> & -> & ->).
    unfold Enqueue in H1.
    destruct (queueLimit e <=? length (queue e))%nat;
      [destruct (queue e); [discriminate|]|]; inversion H1; auto.
Qed.

(** The batch that [flush] takes: the first [batchSize] events, or all of
    them when there are fewer. *)
Lemma flush_batch e :
  take (if (length (queue e) <? batchSize e)%nat then length (queue e)
        else batchSize e) (queue e) = take (batchSize e) (queue e) ∧
  drop (if (length (queue e) <? batchSize e)%nat then length (queue e)
        else batchSize e) (queue e) = drop (batchSize e) (queue e).
Proof.
  destruct (length (queue e) <? batchSize e)%nat eqn:Hlt; [|auto].
  apply Nat.ltb_lt in Hlt.
  rewrite !firstn_all, !drop_all, take_ge, drop_ge by lia. auto.
Qed.

End ExporterFlush.

(** C4, as the code has it.  When the send of a batch fails, [flush] puts
    the whole batch back in front of the queue as the calls of [Enqueue]
    made meanwhile left it ([queue e1]), and returns the send error,
    wrapped.  When the result is longer than the bound, what is kept is its
    last [queueLimit] events: the cut is at the head.  When the queue is
    within the bound, as [Enqueue] keeps it, the events dropped are the
    oldest events of the batch and the queue is kept whole; an event
    enqueued meanwhile is then missing only if [Enqueue] itself dropped
    it. *)
Theorem flush_send_error_requeues
    (e e1 : exporter.Exporter) (meanwhile batch : list exporter.Event)
    (s : exporter.Stream) (err : string) :
  exporter.queue e ≠ [] →
  exporter.stream e = Some s →
  batch = take (exporter.batchSize e) (exporter.queue e) →
  exporter.EnqueueAll
    (exporter.with_queue e (drop (exporter.batchSize e) (exporter.queue e)))
    meanwhile = Some e1 →
  exporter.Send s
    (exporter.buildBatch (exporter.emptyBatch (exporter.nodeName e)) 0 batch).1
    = Some err →
  ∃ e', exporter.flush e meanwhile = Some (e', Some ("stream send: " +:+ err)) ∧
    exporter.queue e' =
      drop (length (batch ++ exporter.queue e1) - exporter.queueLimit e)
        (batch ++ exporter.queue e1) ∧
    (length (exporter.queue e') =
       length (batch ++ exporter.queue e1) `min` exporter.queueLimit e)%nat ∧
    ((length (exporter.queue e1) ≤ exporter.queueLimit e)%nat →
       ∃ oldest, oldest `prefix_of` batch ∧
         batch ++ exporter.queue e1 = oldest ++ exporter.queue e' ∧
         length oldest =
           (length (batch ++ exporter.queue e1) - exporter.queueLimit e)%nat).
Proof.
  intros Hne Hs Hbatch Hmean Hsend.
  destruct (EnqueueAll_fields _ _ _ Hmean) as (Hs1 & Hn1 & HB1).
  simpl in Hs1, Hn1, HB1.
  destruct (flush_batch e) as [Htake Hdrop].
  rewrite <- Hbatch in Htake.
  set (all := batch ++ exporter.queue e1).
  exists (exporter.requeue
            (exporter.logN e1 WarnLevel "unknown event type in queue"
               (exporter.buildBatch (exporter.emptyBatch (exporter.nodeName e)) 0 batch).2)
            batch).
  assert (Hq : exporter.queue
                 (exporter.requeue
                    (exporter.logN e1 WarnLevel "unknown event type in queue"
                       (exporter.buildBatch
                          (exporter.emptyBatch (exporter.nodeName e)) 0 batch).2)
                    batch)
               = drop (length all - exporter.queueLimit e) all).
  { unfold exporter.requeue. simpl.
    rewrite logN_queue, logN_queueLimit, HB1. fold all.
    destruct (exporter.queueLimit e <? length all)%nat eqn:Hover; [reflexivity|].
    apply Nat.ltb_ge in Hover.
    replace (length all - exporter.queueLimit e)%nat with 0%nat by lia.
    reflexivity. }
  split; [|split; [exact Hq|split]].
  - unfold exporter.flush.
    destruct (length (exporter.queue e) =? 0)%nat eqn:Hz.
    { apply Nat.eqb_eq in Hz. destruct (exporter.queue e); [congruence|discriminate]. }
    cbv zeta. rewrite Htake, Hdrop, Hmean, Hn1.
    destruct (exporter.buildBatch (exporter.emptyBatch (exporter.nodeName e)) 0 batch)
      as [pb unknown] eqn:Hpb.
    simpl in Hsend. rewrite logN_stream, Hs1, Hs, Hsend. reflexivity.
  - rewrite Hq, length_drop. lia.
  - intros Hfit. exists (take (length all - exporter.queueLimit e) all).
    split; [|split; [rewrite Hq; symmetry; apply take_drop
                    |rewrite length_take; lia]].
    unfold all. rewrite take_app_le by (rewrite length_app; lia).
    apply prefix_take.
Qed.

Lemma flush_send_error_requeues_witness :
  ∃ e', exporter.flush scenario.fullExporter [scenario.eventAt 10001]
          = Some (e', Some "stream send: EOF") ∧
    length (exporter.queue e') = 10000%nat ∧
    head (exporter.queue e') = Some (scenario.eventAt 2) ∧
    last (exporter.queue e') = Some (scenario.eventAt 10001).
Proof.
  destruct (flush_send_error_requeues scenario.fullExporter
              (exporter.with_queue scenario.fullExporter (scenario.events 101 9901))
              [scenario.eventAt 10001] (scenario.events 1 100)
              scenario.brokenStream "EOF")
    as (e' & He' & Hq & _ & _).
  - intros Hnil. apply (f_equal length) in Hnil. vm_compute in Hnil. discriminate.
  - reflexivity.
  - by_vm.
  - by_vm.
  - reflexivity.
  - exists e'. split; [exact He'|]. rewrite Hq.
    split; [by_vm|]. split; by_vm.
Defined.

(** C4, as the specification has it, fails.  The queue of a default
    exporter is full with events 1 to 10000; [flush] takes events 1 to 100,
    event 10001 is enqueued meanwhile, and the send fails.  The batch in
    front of the queue is events 1 to 10001, one more than the bound.  A cut
    at the tail would leave events 1 to 10000; the code leaves events 2 to
    10001: the event dropped is the oldest one, not the newest. *)
Lemma flush_requeue_cuts_head :
  scenario.flushResult scenario.fullExporter [scenario.eventAt 10001]
    = Some (scenario.events 2 10000, Some "stream send: EOF") ∧
  scenario.events 2 10000 ≠ take 10000 (scenario.events 1 10001).
Proof.
  split; [by_vm|].
  intros Heq. apply (f_equal head) in Heq. vm_compute in Heq. discriminate.
Qed.

(** ** Histogram insertion *)

Section Histogram.

Import f64 metrics.

Context {F : Type} `{Float64 F}.

(** Where the loop of [observeLatency] breaks: at the first boundary that
    the sample does not exceed. *)
Lemma findBucket_Some (bs : list F) x : ∀ i0 i,
  findBucket bs i0 x = Some i →
  (i0 ≤ i)%nat ∧ (∃ b, bs !! (i - i0)%nat = Some b ∧ leb x b = true) ∧
  ∀ j b, (j < i - i0)%nat → bs !! j = Some b → leb x b = false.
Proof.
  induction bs as [|b0 bs IH]; intros i0 i Hf; simpl in Hf; [discriminate|].
  destruct (leb x b0) eqn:Hle.
  - inversion Hf; subst i. split; [lia|]. rewrite Nat.sub_diag. split.
    + exists b0. auto.
    + intros j b Hj. lia.
  - apply IH in Hf. destruct Hf as (Hi & (b & Hb & Hxb) & Hbefore).
    split; [lia|]. replace (i - i0)%nat with (S (i - S i0)) by lia. split.
    + exists b. auto.
    + intros [|j] b' Hj Hb'; simpl in Hb'.
      * inversion Hb'; subst; exact Hle.
      * apply (Hbefore j); [lia|exact Hb'].
Qed.

Lemma findBucket_None (bs : list F) x : ∀ i0,
  findBucket bs i0 x = None → ∀ j b, bs !! j = Some b → leb x b = false.
Proof.
  induction bs as [|b0 bs IH]; intros i0 Hf j b Hb; simpl in Hf.
  - rewrite lookup_nil in Hb. discriminate.
  - destruct (leb x b0) eqn:Hle; [discriminate|].
    destruct j as [|j]; simpl in Hb.
    + inversion Hb; subst; exact Hle.
    + eapply IH; eauto.
Qed.

(** [bucketIndex] is the smallest index of a boundary that the sample does
    not exceed, and the number of boundaries when there is none. *)
Lemma bucketIndex_spec (bs : list F) x :
  (bucketIndex bs x ≤ length bs)%nat ∧
  (∀ j b, (j < bucketIndex bs x)%nat → bs !! j = Some b → leb x b = false) ∧
  ((∃ b, bs !! bucketIndex bs x = Some b ∧ leb x b = true) ∨
   bucketIndex bs x = length bs).
Proof.
  unfold bucketIndex. destruct (findBucket bs 0 x) as [i|] eqn:Hf.
  - apply findBucket_Some in Hf. rewrite Nat.sub_0_r in Hf.
    destruct Hf as (_ & (b & Hb & Hxb) & Hbefore).
    split; [apply lookup_lt_Some in Hb; lia|].
    split; [exact Hbefore|]. left. exists b. auto.
  - split; [lia|]. split; [|right; reflexivity].
    intros j b _ Hb. eapply findBucket_None; eauto.
Qed.

(** The exact sum of the counts, before the wrap-around of the uint64 total. *)
Lemma totalHistogramCount_sum (counts : list Z) :
  totalHistogramCount counts = uint64 (foldr Z.add 0%Z counts).
Proof.
  unfold totalHistogramCount.
  assert (Hgen : ∀ t, uint64 t = t →
            fold_left (λ total c, uint64 (total + c)) counts t
            = uint64 (t + foldr Z.add 0%Z counts)).
  { induction counts as [|c counts IH]; intros t Ht; simpl.
    - rewrite Z.add_0_r. auto.
    - rewrite IH.
      + unfold uint64. rewrite Zplus_mod_idemp_l. f_equal. lia.
      + unfold uint64. apply Zmod_mod. }
  rewrite Hgen by reflexivity. reflexivity.
Qed.

Lemma sum_insert (counts : list Z) : ∀ i c v,
  counts !! i = Some c →
  foldr Z.add 0%Z (<[i := v]> counts) = (foldr Z.add 0%Z counts - c + v)%Z.
Proof.
  induction counts as [|c0 counts IH]; intros i c v Hc.
  - rewrite lookup_nil in Hc. discriminate.
  - destruct i as [|i]; simpl in *.
    + inversion Hc; subst. lia.
    + rewrite (IH _ _ _ Hc). lia.
Qed.

Lemma sum_replicate_zero n : foldr Z.add 0%Z (replicate n 0%Z) = 0%Z.
Proof. induction n as [|n IH]; simpl; auto. Qed.

(** One observation: exactly the bucket of the sample is incremented. *)
Lemma observeLatency_step (bs : list F) (sm : serviceMetrics F) (x : F) :
  length (latencyCounts sm) = (length bs + 1)%nat →
  ∃ sm' c, observeLatency bs sm x = Some sm' ∧
    latencyCounts sm !! bucketIndex bs x = Some c ∧
    latencyCounts sm' = <[bucketIndex bs x := uint64 (c + 1)]> (latencyCounts sm) ∧
    latencySum sm' = add (latencySum sm) x.
Proof.
  intros Hlen. destruct (bucketIndex_spec bs x) as (Hi & _).
  destruct (lookup_lt_is_Some_2 (latencyCounts sm) (bucketIndex bs x)) as [c Hc];
    [lia|].
  unfold observeLatency, incr. rewrite Hc.
  eexists _, c. split; [reflexivity|]. simpl. auto.
Qed.

Lemma observeLatency_total (bs : list F) (sm sm' : serviceMetrics F) (x : F) :
  observeLatency bs sm x = Some sm' →
  length (latencyCounts sm') = length (latencyCounts sm) ∧
  totalHistogramCount (latencyCounts sm')
  = uint64 (totalHistogramCount (latencyCounts sm) + 1).
Proof.
  unfold observeLatency, incr.
  destruct (latencyCounts sm !! bucketIndex bs x) as [c|] eqn:Hc; [|discriminate].
  intros Hsm; inversion Hsm; subst sm'; simpl.
  split; [apply length_insert|].
  rewrite !totalHistogramCount_sum, (sum_insert _ _ _ _ Hc).
  unfold uint64. rewrite Zplus_mod_idemp_r, Zplus_mod_idemp_l. f_equal. lia.
Qed.

Lemma observeAll_total (bs : list F) (xs : list F) : ∀ sm,
  length (latencyCounts sm) = (length bs + 1)%nat →
  ∃ sm', observeAll bs sm xs = Some sm' ∧
    length (latencyCounts sm') = (length bs + 1)%nat ∧
    totalHistogramCount (latencyCounts sm')
    = uint64 (totalHistogramCount (latencyCounts sm) + Z.of_nat (length xs)).
Proof.
  induction xs as [|x xs IH]; intros sm Hlen.
  - exists sm. simpl. rewrite Z.add_0_r. split; [reflexivity|]. split; [exact Hlen|].
    rewrite totalHistogramCount_sum. unfold uint64. symmetry. apply Zmod_mod.
  - destruct (observeLatency_step bs sm x Hlen) as (sm1 & c & H1 & _).
    destruct (observeLatency_total _ _ _ _ H1) as [Hlen1 Htot1].
    destruct (IH sm1 ltac:(congruence)) as (sm' & Hsm' & Hlen' & Htot').
    exists sm'. simpl. rewrite H1. split; [exact Hsm'|]. split; [exact Hlen'|].
    rewrite Htot', Htot1. unfold uint64. rewrite Zplus_mod_idemp_l. f_equal. lia.
Qed.

End Histogram.

(** C6.  An observation of a sample x on an accumulator with one count per
    bucket increments exactly one count (with the wrap-around of uint64): the
    one at [bucketIndex], which is the smallest index of a boundary b with
    x <= b, and the overflow index, the number of boundaries, when x exceeds
    every boundary.  Hence after any run of observations on a fresh
    accumulator the uint64 sum of the counts is the number of observations
    (modulo 2^64, so the number itself below 2^64). *)
Theorem observeLatency_increments_one_bucket {F : Type} `{f64.Float64 F}
    (bs : list F) (sm : metrics.serviceMetrics F) (x : F) (xs : list F) :
  length (metrics.latencyCounts sm) = (length bs + 1)%nat →
  (∃ sm' c, metrics.observeLatency bs sm x = Some sm' ∧
     metrics.latencyCounts sm !! metrics.bucketIndex bs x = Some c ∧
     metrics.latencyCounts sm'
     = <[metrics.bucketIndex bs x := uint64 (c + 1)]> (metrics.latencyCounts sm) ∧
     (∀ j b, (j < metrics.bucketIndex bs x)%nat → bs !! j = Some b →
        f64.leb x b = false) ∧
     ((∃ b, bs !! metrics.bucketIndex bs x = Some b ∧ f64.leb x b = true) ∨
      (metrics.bucketIndex bs x = length bs ∧
       ∀ j b, bs !! j = Some b → f64.leb x b = false))) ∧
  (∃ sm', metrics.observeAll bs sm xs = Some sm' ∧
     metrics.totalHistogramCount (metrics.latencyCounts sm')
     = uint64 (metrics.totalHistogramCount (metrics.latencyCounts sm)
               + Z.of_nat (length xs))) ∧
  (∀ (a : metrics.Aggregator F) svc ns,
     metrics.buckets a = bs → metrics.services a !! svc = None →
     ∃ sm', metrics.observeAll bs (metrics.getOrCreate a svc ns) xs = Some sm' ∧
       metrics.totalHistogramCount (metrics.latencyCounts sm')
       = uint64 (Z.of_nat (length xs)) ∧
       ((Z.of_nat (length xs) < 2 ^ 64)%Z →
        metrics.totalHistogramCount (metrics.latencyCounts sm')
        = Z.of_nat (length xs))).
Proof.
  intros Hlen. split; [|split].
  - destruct (observeLatency_step bs sm x Hlen) as (sm' & c & Hsm' & Hc & Hcounts & _).
    destruct (bucketIndex_spec bs x) as (_ & Hbefore & Hat).
    exists sm', c. repeat (split; [assumption|]).
    destruct Hat as [Hat|Hat]; [left; exact Hat|right].
    split; [exact Hat|]. intros j b Hb. apply (Hbefore j b); [|exact Hb].
    rewrite Hat. eapply lookup_lt_Some; eauto.
  - destruct (observeAll_total bs xs sm Hlen) as (sm' & Hsm' & _ & Htot).
    exists sm'; auto.
  - intros a svc ns Hbs Hfresh.
    assert (Hnew : length (metrics.latencyCounts (metrics.getOrCreate a svc ns))
                   = (length bs + 1)%nat ∧
                   metrics.totalHistogramCount
                     (metrics.latencyCounts (metrics.getOrCreate a svc ns)) = 0%Z).
    { unfold metrics.getOrCreate, metrics.newServiceMetrics.
      rewrite Hfresh, Hbs. simpl.
      split; [apply length_replicate|].
      rewrite totalHistogramCount_sum, sum_replicate_zero. reflexivity. }
    destruct Hnew as [Hlen0 Htot0].
    destruct (observeAll_total bs xs _ Hlen0) as (sm' & Hsm' & _ & Htot).
    rewrite Htot0, Z.add_0_l in Htot.
    exists sm'. split; [exact Hsm'|]. split; [exact Htot|].
    intros Hsmall. rewrite Htot. unfold uint64. apply Z.mod_small. lia.
Qed.

(** A 2 ms sample on a fresh accumulator over the default boundaries goes
    to bucket 1, the bucket of the 5 ms boundary. *)
Lemma observeLatency_increments_one_bucket_witness :
  ∃ sm', metrics.observeLatency (F := float) metrics.defaultBucketBoundaries
           (metrics.getOrCreate metrics.NewAggregator "api" "default")
           (f64.ofZ 2000000) = Some sm' ∧
    metrics.bucketIndex (F := float) metrics.defaultBucketBoundaries
      (f64.ofZ 2000000) = 1%nat ∧
    metrics.latencyCounts sm' = [0; 1; 0; 0; 0; 0; 0; 0; 0; 0; 0; 0; 0]%Z.
Proof.
  destruct (observeLatency_increments_one_bucket
              (F := float) metrics.defaultBucketBoundaries
              (metrics.getOrCreate metrics.NewAggregator "api" "default")
              (f64.ofZ 2000000) [])
    as ((sm' & c & Hsm' & Hc & Hcounts & _) & _).
  - reflexivity.
  - exists sm'. split; [exact Hsm'|]. split; [by_vm|].
    rewrite Hcounts. vm_compute in Hc. inversion Hc; subst c. by_vm.
Defined.

(** ** Percentile estimation *)

Section PercentileExact.

Import metrics.

Local Open Scope Q_scope.

Implicit Types (bs : list Q) (counts : list Z).




















End PercentileExact.

Section Counts.

Import metrics.

Context {F : Type} `{f64.Float64 F}.



End Counts.





(** Where rounding matters.  A bucket count of 2^53 absorbs the counts
    added to it: with counts 2^53, 1 and 1 in the first three buckets, the
    running sum stays at 2^53 in binary64 and never reaches the target
    2^53 + 2 of quantile 1, so the loop ends without a bucket and the
    estimate is the last boundary, 10 s, far above the upper end, 10 ms, of
    the last bucket that holds a sample.  In exact arithmetic the estimate
    is that upper end. *)
Lemma histogramPercentile_rounding_absorbs_counts :
  let counts := [2 ^ 53; 1; 1; 0; 0; 0; 0; 0; 0; 0; 0; 0; 0]%Z in
  metrics.histogramPercentile (F := float) metrics.defaultBucketBoundaries counts
    (metrics.totalHistogramCount counts) 1%float
  = 10000000000%float ∧
  metrics.bucketUpper (F := float) metrics.defaultBucketBoundaries 2 = 10000000%float ∧
  Qred (metrics.histogramPercentile (F := Q) metrics.defaultBucketBoundaries counts
          (metrics.totalHistogramCount counts) 1%Q)
  = 10000000%Q.
Proof. repeat split; by_vm. Qed.

(** ** The P99 of a dependency edge *)

Section DependencyP99.

Import graph.

Lemma insertSorted_perm x l : insertSorted x l ≡ₚ x :: l.
Proof.
  induction l as [|y l IH]; simpl; [reflexivity|].
  destruct (x <? y)%Z; [reflexivity|].
  rewrite IH. apply Permutation_swap.
Qed.

Lemma insertSorted_sorted x l : Sorted Z.le l → Sorted Z.le (insertSorted x l).
Proof.
  induction 1 as [|y l Hsorted IH Hhd]; simpl.
  - repeat constructor.
  - destruct (Z.ltb_spec x y).
    + constructor; [constructor; assumption|constructor; lia].
    + constructor; [exact IH|].
      destruct l as [|z l]; simpl in *.
      * constructor; lia.
      * inversion Hhd; subst. destruct (x <? z)%Z; constructor; lia.
Qed.

(** [sortSlice] leaves the samples in ascending order. *)
Lemma sortSlice_sorted l : Sorted Z.le (sortSlice l) ∧ sortSlice l ≡ₚ l.
Proof.
  induction l as [|x l [IHs IHp]]; simpl.
  - split; [constructor|reflexivity].
  - split; [apply insertSorted_sorted; exact IHs|].
    fold (sortSlice l). rewrite insertSorted_perm, IHp. reflexivity.
Qed.

End DependencyP99.

(** For every number of samples from 1 to 2000, the index of the code is
    the index of the specification exactly when n mod 100 is at most 50. *)
Lemma p99Index_agrees_up_to_2000 :
  forallb (λ n, Bool.eqb (graph.p99Index n =? graph.specP99Index n)%Z
                         (n mod 100 <=? 50)%Z)
    (scenario.countFrom 1 2000) = true.
Proof. by_vm. Qed.

(** C3.  With no sample the P99 is 0, and for the 100 samples 1..100 it is
    99, as in the specification.  But the index is not ceil(0.99 n) - 1:
    [int(float64(n)*0.99+0.5) - 1] rounds 0.99 n to the nearest integer.
    For the 51 samples 1..51, 0.99 n = 50.49: the specification's index is
    50 and its P99 is 51; the code's index is 49 and its P99 is 50. *)
Theorem computeP99_rounds_to_nearest :
  graph.computeP99 [] = 0%Z ∧
  graph.computeP99 (scenario.countFrom 1 100) = 99%Z ∧
  graph.specP99 (scenario.countFrom 1 100) = 99%Z ∧
  graph.computeP99 (scenario.countFrom 1 51) = 50%Z ∧
  graph.specP99 (scenario.countFrom 1 51) = 51%Z.
Proof. repeat split; by_vm. Qed.

(** ** Dependency edges *)

Section DependencyEdges.

Import graph.

Lemma skipped_iff (src dst : string) :
  String.eqb src "" || String.eqb dst "" || String.eqb src dst = true
  ↔ src = "" ∨ dst = "" ∨ src = dst.
Proof.
  rewrite !orb_true_iff, !String.eqb_eq. tauto.
Qed.

Lemma getAcc_proper dc src dst :
  properEdges dc → src ≠ "" → dst ≠ "" → src ≠ dst →
  properEdge (getAcc dc src dst).
Proof.
  intros Hdc Hs Hd Hsd. unfold getAcc.
  destruct (deps dc !! key src dst) as [acc|] eqn:Hacc.
  - exact (Hdc _ _ Hacc).
  - repeat split; assumption.
Qed.

Lemma addConnectionEvent_proper dc ev :
  properEdges dc → properEdges (addConnectionEvent dc ev).
Proof.
  intros Hdc. unfold addConnectionEvent.
  set (src := model.Endpoint.Service (model.ConnectionEvent.Source ev)).
  set (dst := model.Endpoint.Service (model.ConnectionEvent.Destination ev)).
  destruct (String.eqb src "" || String.eqb dst "" || String.eqb src dst) eqn:Hskip;
    [exact Hdc|].
  assert (Hnot : ¬ (src = "" ∨ dst = "" ∨ src = dst))
    by (rewrite <- skipped_iff; congruence).
  apply map_Forall_insert_2; [|exact Hdc].
  apply (getAcc_proper dc src dst Hdc); tauto.
Qed.

Lemma addHTTPRequestEvent_proper dc ev :
  properEdges dc → properEdges (addHTTPRequestEvent dc ev).
Proof.
  intros Hdc. unfold addHTTPRequestEvent.
  set (src := model.Endpoint.Service (model.HTTPRequestEvent.Source ev)).
  set (dst := model.Endpoint.Service (model.HTTPRequestEvent.Destination ev)).
  destruct (String.eqb src "" || String.eqb dst "" || String.eqb src dst) eqn:Hskip;
    [exact Hdc|].
  assert (Hnot : ¬ (src = "" ∨ dst = "" ∨ src = dst))
    by (rewrite <- skipped_iff; congruence).
  apply map_Forall_insert_2; [|exact Hdc].
  apply (getAcc_proper dc src dst Hdc); tauto.
Qed.

Lemma foldl_proper {A} (f : DependencyComputer → A → DependencyComputer) evs :
  (∀ dc ev, properEdges dc → properEdges (f dc ev)) →
  ∀ dc, properEdges dc → properEdges (foldl f dc evs).
Proof.
  intros Hf. induction evs as [|ev evs IH]; intros dc Hdc; simpl; auto.
Qed.

Lemma foldl_skipped {A} (f : DependencyComputer → A → DependencyComputer)
    (skip : A → Prop) evs :
  (∀ dc ev, skip ev → f dc ev = dc) →
  Forall skip evs → ∀ dc, foldl f dc evs = dc.
Proof.
  intros Hf. induction 1 as [|ev evs Hev _ IH]; intros dc; simpl; [reflexivity|].
  rewrite (Hf dc ev Hev). apply IH.
Qed.

Lemma properEdges_links dc link :
  properEdges dc → link ∈ buildLinks dc →
  model.DependencyLink.Parent link ≠ "" ∧ model.DependencyLink.Child link ≠ "" ∧
  model.DependencyLink.Parent link ≠ model.DependencyLink.Child link.
Proof.
  intros Hdc Hlink. unfold buildLinks in Hlink.
  apply list_elem_of_fmap in Hlink. destruct Hlink as ([k acc] & -> & Hin).
  apply elem_of_map_to_list in Hin. exact (Hdc _ _ Hin).
Qed.

End DependencyEdges.

(** C7.  A connection or request event whose source service and
    destination service are equal, or one of which is empty, leaves the
    accumulators as they are.  Hence every link that a cycle of the
    dependency computer emits has a parent and a child that are not empty
    and differ, and events that all have equal source and destination
    services give no link at all. *)
Theorem dependency_edges_exclude_self_and_blank
    (dc : graph.DependencyComputer)
    (conns : option (list model.ConnectionEvent.t))
    (reqs : option (list model.HTTPRequestEvent.t)) :
  (∀ dc' ev,
     let src := model.Endpoint.Service (model.ConnectionEvent.Source ev) in
     let dst := model.Endpoint.Service (model.ConnectionEvent.Destination ev) in
     src = dst ∨ src = "" ∨ dst = "" → graph.addConnectionEvent dc' ev = dc') ∧
  (∀ dc' ev,
     let src := model.Endpoint.Service (model.HTTPRequestEvent.Source ev) in
     let dst := model.Endpoint.Service (model.HTTPRequestEvent.Destination ev) in
     src = dst ∨ src = "" ∨ dst = "" → graph.addHTTPRequestEvent dc' ev = dc') ∧
  (∀ link, link ∈ (graph.compute dc conns reqs).2 →
     model.DependencyLink.Parent link ≠ "" ∧
     model.DependencyLink.Child link ≠ "" ∧
     model.DependencyLink.Parent link ≠ model.DependencyLink.Child link) ∧
  (Forall (λ ev, model.Endpoint.Service (model.ConnectionEvent.Source ev)
                 = model.Endpoint.Service (model.ConnectionEvent.Destination ev))
     (default [] conns) →
   Forall (λ ev, model.Endpoint.Service (model.HTTPRequestEvent.Source ev)
                 = model.Endpoint.Service (model.HTTPRequestEvent.Destination ev))
     (default [] reqs) →
   (graph.compute dc conns reqs).2 = []).
Proof.
  assert (Hconn : ∀ dc' ev,
            model.Endpoint.Service (model.ConnectionEvent.Source ev)
            = model.Endpoint.Service (model.ConnectionEvent.Destination ev) ∨
            model.Endpoint.Service (model.ConnectionEvent.Source ev) = "" ∨
            model.Endpoint.Service (model.ConnectionEvent.Destination ev) = "" →
            graph.addConnectionEvent dc' ev = dc').
  { intros dc' ev Hskip. unfold graph.addConnectionEvent.
    rewrite (proj2 (skipped_iff _ _)) by tauto. reflexivity. }
  assert (Hreq : ∀ dc' ev,
            model.Endpoint.Service (model.HTTPRequestEvent.Source ev)
            = model.Endpoint.Service (model.HTTPRequestEvent.Destination ev) ∨
            model.Endpoint.Service (model.HTTPRequestEvent.Source ev) = "" ∨
            model.Endpoint.Service (model.HTTPRequestEvent.Destination ev) = "" →
            graph.addHTTPRequestEvent dc' ev = dc').
  { intros dc' ev Hskip. unfold graph.addHTTPRequestEvent.
    rewrite (proj2 (skipped_iff _ _)) by tauto. reflexivity. }
  split; [exact Hconn|]. split; [exact Hreq|]. split.
  - intros link Hlink. unfold graph.compute in Hlink. simpl in Hlink.
    eapply properEdges_links; [|exact Hlink].
    assert (H0 : graph.properEdges {| graph.deps := ∅ |}) by apply map_Forall_empty.
    destruct conns as [conns|], reqs as [reqs|];
      repeat (apply foldl_proper;
              [first [exact addHTTPRequestEvent_proper
                     |exact addConnectionEvent_proper]|]);
      exact H0.
  - intros Hcs Hrs. unfold graph.compute. simpl.
    assert (Hdc : (match reqs with
                   | Some reqs =>
                       foldl graph.addHTTPRequestEvent
                         (match conns with
                          | Some conns =>
                              foldl graph.addConnectionEvent {| graph.deps := ∅ |} conns
                          | None => {| graph.deps := ∅ |}
                          end) reqs
                   | None =>
                       match conns with
                       | Some conns =>
                           foldl graph.addConnectionEvent {| graph.deps := ∅ |} conns
                       | None => {| graph.deps := ∅ |}
                       end
                   end) = {| graph.deps := ∅ |}).
    { destruct conns as [conns|], reqs as [reqs|]; simpl in Hcs, Hrs;
        repeat first
          [ rewrite (foldl_skipped graph.addHTTPRequestEvent _ reqs
                       (λ dc' ev H, Hreq dc' ev (or_introl H)) Hrs)
          | rewrite (foldl_skipped graph.addConnectionEvent _ conns
                       (λ dc' ev H, Hconn dc' ev (or_introl H)) Hcs) ];
        reflexivity. }
    rewrite Hdc. unfold graph.buildLinks. simpl.
    rewrite map_to_list_empty. reflexivity.
Qed.

(** ** The wire format of a connection event *)

Section RoundTrip.

Lemma int64_id (x : Z) : is_int64 x → int64 x = x.
Proof. unfold is_int64, int64. intros Hx. rewrite Z.mod_small; lia. Qed.

Lemma int64_range (x : Z) : is_int64 (int64 x).
Proof.
  unfold is_int64, int64.
  pose proof (Z.mod_pos_bound (x + 2 ^ 63) (2 ^ 64) ltac:(lia)). lia.
Qed.

Lemma uint16_uint32_id (x : Z) : is_uint16 x → uint16 (uint32 x) = x.
Proof.
  unfold is_uint16, uint16, uint32. intros Hx.
  rewrite (Z.mod_small x (2 ^ 32)) by lia. apply Z.mod_small. lia.
Qed.

(** An endpoint survives the encoding, the wire and the decoding. *)
Lemma endpoint_round_trip (ep : model.Endpoint.t) :
  model.Endpoint.wf ep →
  ingestion.protoToEndpoint
    (ingestion.wireEndpoint <$> Some (exporter.endpointToProto ep)) = ep.
Proof.
  intros Hwf. destruct ep as [ip port pod ns wl wt svc].
  unfold model.Endpoint.wf in Hwf. simpl in *.
  rewrite uint16_uint32_id by exact Hwf. reflexivity.
Qed.

(** The connection events of a batch are encoded one by one, in order. *)
Lemma buildBatch_connections (ces : list model.ConnectionEvent.t) : ∀ pb unknown,
  exporter.buildBatch pb unknown (exporter.ConnectionEvent <$> ces)
  = ({| exporter.EventBatchProto.Node := exporter.EventBatchProto.Node pb;
        exporter.EventBatchProto.Connections :=
          exporter.EventBatchProto.Connections pb
          ++ (exporter.connectionEventToProto <$> ces);
        exporter.EventBatchProto.HttpRequests :=
          exporter.EventBatchProto.HttpRequests pb |}, unknown).
Proof.
  induction ces as [|ce ces IH]; intros pb unknown; simpl.
  - rewrite app_nil_r. destruct pb; reflexivity.
  - rewrite IH. simpl. rewrite <- app_assoc. reflexivity.
Qed.

End RoundTrip.

(** C8, as the code has it.  The timestamp travels as [UnixNano()], an
    int64.  A connection event (its ports are uint16 values, as their Go
    type has it), encoded by the exporter, carried by the wire and decoded
    by the ingestion server with the envelope's node, comes back equal in
    every field, a blank node replaced by the envelope's node, exactly when
    its timestamp is an int64 count of nanoseconds since the Unix epoch;
    with a node of its own such an event comes back as it was sent.  In
    every case the timestamp comes back wrapped to int64 and the other
    fields as they were sent.  The connection events of a whole batch,
    which the exporter sends under its own node name, come back the same
    way. *)
Theorem connection_event_round_trip
    (ce : model.ConnectionEvent.t) (node : string)
    (ces : list model.ConnectionEvent.t) :
  model.Endpoint.wf (model.ConnectionEvent.Source ce) →
  model.Endpoint.wf (model.ConnectionEvent.Destination ce) →
  Forall model.ConnectionEvent.wf ces →
  (ingestion.protoToConnectionEvent
     (ingestion.wireConnection (exporter.connectionEventToProto ce)) node
   = model.ConnectionEvent.withDefaultNode ce node
   ↔ is_int64 (model.ConnectionEvent.Timestamp ce)) ∧
  (is_int64 (model.ConnectionEvent.Timestamp ce) →
   model.ConnectionEvent.Node ce ≠ "" →
   ingestion.protoToConnectionEvent
     (ingestion.wireConnection (exporter.connectionEventToProto ce)) node = ce) ∧
  ingestion.protoToConnectionEvent
    (ingestion.wireConnection (exporter.connectionEventToProto ce)) node
  = model.ConnectionEvent.withDefaultNode
      {| model.ConnectionEvent.Timestamp := int64 (model.ConnectionEvent.Timestamp ce);
         model.ConnectionEvent.Node := model.ConnectionEvent.Node ce;
         model.ConnectionEvent.Source := model.ConnectionEvent.Source ce;
         model.ConnectionEvent.Destination := model.ConnectionEvent.Destination ce;
         model.ConnectionEvent.BytesSent := model.ConnectionEvent.BytesSent ce;
         model.ConnectionEvent.BytesRecv := model.ConnectionEvent.BytesRecv ce;
         model.ConnectionEvent.DurationNs := model.ConnectionEvent.DurationNs ce;
         model.ConnectionEvent.Retransmits := model.ConnectionEvent.Retransmits ce;
         model.ConnectionEvent.Protocol := model.ConnectionEvent.Protocol ce |}
      node ∧
  (λ c, ingestion.protoToConnectionEvent c
          (ingestion.EventBatch.Node
             (ingestion.wire
                (exporter.buildBatch (exporter.emptyBatch node) 0
                   (exporter.ConnectionEvent <$> ces)).1)))
  <$> ingestion.EventBatch.Connections
        (ingestion.wire
           (exporter.buildBatch (exporter.emptyBatch node) 0
              (exporter.ConnectionEvent <$> ces)).1)
  = (λ ce, model.ConnectionEvent.withDefaultNode ce node) <$> ces.
Proof.
  assert (Hwrap : ∀ ce,
            model.Endpoint.wf (model.ConnectionEvent.Source ce) →
            model.Endpoint.wf (model.ConnectionEvent.Destination ce) →
            ingestion.protoToConnectionEvent
              (ingestion.wireConnection (exporter.connectionEventToProto ce)) node
            = model.ConnectionEvent.withDefaultNode
                {| model.ConnectionEvent.Timestamp :=
                     int64 (model.ConnectionEvent.Timestamp ce);
                   model.ConnectionEvent.Node := model.ConnectionEvent.Node ce;
                   model.ConnectionEvent.Source := model.ConnectionEvent.Source ce;
                   model.ConnectionEvent.Destination :=
                     model.ConnectionEvent.Destination ce;
                   model.ConnectionEvent.BytesSent := model.ConnectionEvent.BytesSent ce;
                   model.ConnectionEvent.BytesRecv := model.ConnectionEvent.BytesRecv ce;
                   model.ConnectionEvent.DurationNs :=
                     model.ConnectionEvent.DurationNs ce;
                   model.ConnectionEvent.Retransmits :=
                     model.ConnectionEvent.Retransmits ce;
                   model.ConnectionEvent.Protocol := model.ConnectionEvent.Protocol ce |}
                node).
  { clear. intros ce Hsrc Hdst.
    unfold ingestion.protoToConnectionEvent, ingestion.wireConnection,
      exporter.connectionEventToProto, model.ConnectionEvent.withDefaultNode.
    cbn [ingestion.ConnectionEventProto.TimestampNs ingestion.ConnectionEventProto.Node
         ingestion.ConnectionEventProto.Source ingestion.ConnectionEventProto.Destination
         ingestion.ConnectionEventProto.BytesSent ingestion.ConnectionEventProto.BytesRecv
         ingestion.ConnectionEventProto.DurationNs
         ingestion.ConnectionEventProto.Retransmits
         ingestion.ConnectionEventProto.Protocol
         exporter.ConnectionEventProto.TimestampNs exporter.ConnectionEventProto.Node
         exporter.ConnectionEventProto.Source exporter.ConnectionEventProto.Destination
         exporter.ConnectionEventProto.BytesSent exporter.ConnectionEventProto.BytesRecv
         exporter.ConnectionEventProto.DurationNs
         exporter.ConnectionEventProto.Retransmits
         exporter.ConnectionEventProto.Protocol
         model.ConnectionEvent.Timestamp model.ConnectionEvent.Node
         model.ConnectionEvent.Source model.ConnectionEvent.Destination
         model.ConnectionEvent.BytesSent model.ConnectionEvent.BytesRecv
         model.ConnectionEvent.DurationNs model.ConnectionEvent.Retransmits
         model.ConnectionEvent.Protocol].
    rewrite !endpoint_round_trip by assumption. reflexivity. }
  assert (Hone : ∀ ce,
            is_int64 (model.ConnectionEvent.Timestamp ce) →
            model.Endpoint.wf (model.ConnectionEvent.Source ce) →
            model.Endpoint.wf (model.ConnectionEvent.Destination ce) →
            ingestion.protoToConnectionEvent
              (ingestion.wireConnection (exporter.connectionEventToProto ce)) node
            = model.ConnectionEvent.withDefaultNode ce node).
  { intros ce' Hts Hsrc Hdst. rewrite (Hwrap ce' Hsrc Hdst).
    rewrite (int64_id _ Hts). reflexivity. }
  intros Hsrc Hdst Hall. split; [|split; [|split]].
  - split.
    + intros Heq.
      apply (f_equal model.ConnectionEvent.Timestamp) in Heq. simpl in Heq.
      rewrite <- Heq. apply int64_range.
    + intros Hts. exact (Hone ce Hts Hsrc Hdst).
  - intros Hts Hnode. rewrite (Hone ce Hts Hsrc Hdst).
    unfold model.ConnectionEvent.withDefaultNode.
    apply String.eqb_neq in Hnode. rewrite Hnode. destruct ce; reflexivity.
  - exact (Hwrap ce Hsrc Hdst).
  - rewrite buildBatch_connections. simpl.
    rewrite <- !list_fmap_compose.
    apply Forall_fmap_ext_1. eapply Forall_impl; [exact Hall|].
    intros ce' (Hts' & Hsrc' & Hdst' & _). simpl. exact (Hone ce' Hts' Hsrc' Hdst').
Qed.

(** Event 7 of the sample run carries no node and takes the node of the
    envelope; the other fields come back as they were sent. *)
Lemma connection_event_round_trip_witness :
  ingestion.protoToConnectionEvent
    (ingestion.wireConnection
       (exporter.connectionEventToProto (scenario.connectionAt 7))) "node-1"
  = model.ConnectionEvent.withDefaultNode (scenario.connectionAt 7) "node-1" ∧
  model.ConnectionEvent.Node
    (model.ConnectionEvent.withDefaultNode (scenario.connectionAt 7) "node-1")
  = "node-1".
Proof.
  split; [|reflexivity].
  destruct (connection_event_round_trip (scenario.connectionAt 7) "node-1" [])
    as [Hiff _].
  - unfold model.Endpoint.wf, is_uint16. simpl. lia.
  - unfold model.Endpoint.wf, is_uint16. simpl. lia.
  - constructor.
  - apply Hiff. unfold is_int64. simpl. lia.
Defined.

(** C8, as the specification has it, fails: not every connection event
    comes back field-equal.  A connection event whose timestamp was never
    set holds [time.Time{}], 62135596800 seconds before the Unix epoch and
    out of the range of [UnixNano()]; it is sent as the wrapped int64
    -6795364578871345152 and comes back as that instant, of the year 1754,
    not as the zero time. *)
Lemma connection_event_round_trip_wraps_zero_time :
  model.ConnectionEvent.Timestamp
    (model.ConnectionEvent.withDefaultNode scenario.unstampedConnection "node-1")
  = (-62135596800000000000)%Z ∧
  model.ConnectionEvent.Timestamp
    (ingestion.protoToConnectionEvent
       (ingestion.wireConnection
          (exporter.connectionEventToProto scenario.unstampedConnection)) "node-1")
  = (-6795364578871345152)%Z ∧
  ingestion.protoToConnectionEvent
    (ingestion.wireConnection
       (exporter.connectionEventToProto scenario.unstampedConnection)) "node-1"
  ≠ model.ConnectionEvent.withDefaultNode scenario.unstampedConnection "node-1".
Proof.
  split; [reflexivity|]. split; [reflexivity|].
  intros Heq. apply (f_equal model.ConnectionEvent.Timestamp) in Heq.
  vm_compute in Heq. discriminate.
Qed.

(** ** Workload resolution *)

Section ReplicaSetNames.

Import k8s.

Lemma prefix_dash c rest :
  String.prefix "-" (String c rest) = Ascii.eqb c dash.
Proof.
  change (String.prefix "-" (String c rest))
    with (if Ascii.ascii_dec dash c then String.prefix "" rest else false).
  destruct (Ascii.ascii_dec dash c) as [<-|Hne].
  - destruct rest; reflexivity.
  - symmetry. apply Ascii.eqb_neq. congruence.
Qed.

(** Past the last '-' the scan keeps what it has found. *)
Lemma lastIndexFrom_no_dash tok : ∀ i found,
  hasDash tok = false → lastIndexFrom tok "-" i found = found.
Proof.
  induction tok as [|c tok IH]; intros i found Hno; simpl in Hno.
  - reflexivity.
  - apply orb_false_iff in Hno. destruct Hno as [Hc Htok].
    cbn [lastIndexFrom]. rewrite prefix_dash, Hc. apply IH. exact Htok.
Qed.

Lemma lastIndexFrom_last_dash p tok : ∀ i found,
  hasDash tok = false →
  lastIndexFrom (p +:+ "-" +:+ tok) "-" i found = Z.of_nat (i + String.length p).
Proof.
  induction p as [|c p IH]; intros i found Hno.
  - change ("" +:+ "-" +:+ tok) with (String dash tok).
    cbn [lastIndexFrom]. rewrite prefix_dash. simpl.
    rewrite lastIndexFrom_no_dash by exact Hno. f_equal. lia.
  - change (String c p +:+ "-" +:+ tok) with (String c (p +:+ "-" +:+ tok)).
    cbn [lastIndexFrom]. rewrite IH by exact Hno. simpl. f_equal. lia.
Qed.

Lemma substring_whole s : String.substring 0 (String.length s) s = s.
Proof. induction s as [|c s IH]; simpl; [reflexivity|]. rewrite IH. reflexivity. Qed.

Lemma substring_prefix p rest :
  String.substring 0 (String.length p) (p +:+ rest) = p.
Proof.
  induction p as [|c p IH]; simpl.
  - destruct rest; reflexivity.
  - rewrite IH. reflexivity.
Qed.

Lemma substring_suffix p rest n :
  String.substring (String.length p) n (p +:+ rest) = String.substring 0 n rest.
Proof. induction p as [|c p IH]; simpl; [reflexivity|exact IH]. Qed.

Lemma length_append (s1 s2 : string) :
  String.length (s1 +:+ s2) = (String.length s1 + String.length s2)%nat.
Proof. induction s1 as [|c s1 IH]; simpl; [reflexivity|]. rewrite IH. reflexivity. Qed.

(** What [stripReplicaSetHash] does to a name: without a '-' the name
    stays; with a last token after a '-' that is not the first byte, the
    token goes exactly when its length is between 5 and 16, whatever its
    characters. *)
Lemma stripReplicaSetHash_spec :
  (∀ name, hasDash name = false → stripReplicaSetHash name = name) ∧
  (∀ p tok, p ≠ "" → hasDash tok = false →
     stripReplicaSetHash (p +:+ "-" +:+ tok)
     = if (5 <=? String.length tok)%nat && (String.length tok <=? 16)%nat
       then p else p +:+ "-" +:+ tok).
Proof.
  split.
  - intros name Hno. unfold stripReplicaSetHash, LastIndex.
    rewrite lastIndexFrom_no_dash by exact Hno. reflexivity.
  - intros p tok Hp Hno. unfold stripReplicaSetHash, LastIndex.
    rewrite lastIndexFrom_last_dash by exact Hno. simpl Nat.add.
    assert (Hpos : (0 < String.length p)%nat) by (destruct p; [congruence|simpl; lia]).
    rewrite (proj2 (Z.leb_gt _ 0)) by lia. cbv zeta.
    rewrite Nat2Z.id.
    assert (Hsuffix : String.substring (String.length p + 1)
                        (String.length (p +:+ "-" +:+ tok) - (String.length p + 1))
                        (p +:+ "-" +:+ tok) = tok).
    { assert (Hlen : (String.length (p +:+ "-" +:+ tok) - (String.length p + 1))%nat
                     = String.length tok).
      { rewrite !length_append. simpl. lia. }
      assert (Hassoc : p +:+ "-" +:+ tok = (p +:+ "-") +:+ tok).
      { clear. induction p as [|c p IH]; [reflexivity|].
        change (String c (p +:+ "-" +:+ tok) = String c ((p +:+ "-") +:+ tok)).
        rewrite IH. reflexivity. }
      assert (Hp1 : (String.length p + 1)%nat = String.length (p +:+ "-")).
      { rewrite length_append. reflexivity. }
      rewrite Hlen, Hp1, Hassoc, substring_suffix. apply substring_whole. }
    rewrite Hsuffix, substring_prefix. reflexivity.
Qed.

End ReplicaSetNames.

(** C9.  For a ReplicaSet without a Deployment the workload is the name
    with the hash suffix stripped, of kind "ReplicaSet": "web-6b8f7c9d4"
    gives "web", and "web-v2", whose last token is too short, is left as it
    is.  But the code checks the length of the last token only: a last
    token of 5 to 16 bytes after a '-' is stripped whatever its characters.
    The last token of "web-v1.2.3" has 6 characters and is not
    alphanumeric, so it is no hash suffix and the name should stay; the
    code strips it. *)
Theorem stripReplicaSetHash_checks_length_only :
  (∀ p tok, p ≠ "" → k8s.hasDash tok = false →
     k8s.stripReplicaSetHash (p +:+ "-" +:+ tok)
     = if (5 <=? String.length tok)%nat && (String.length tok <=? 16)%nat
       then p else p +:+ "-" +:+ tok) ∧
  k8s.resolveWorkload scenario.standaloneCache (scenario.standalonePod "web-6b8f7c9d4")
    = ("web", "ReplicaSet") ∧
  k8s.resolveWorkload scenario.standaloneCache (scenario.standalonePod "web-v2")
    = ("web-v2", "ReplicaSet") ∧
  k8s.specIsHashSuffix "6b8f7c9d4" = true ∧
  k8s.specIsHashSuffix "v1.2.3" = false ∧
  k8s.stripReplicaSetHash "web-v1.2.3" = "web" ∧
  k8s.resolveWorkload scenario.standaloneCache (scenario.standalonePod "web-v1.2.3")
    = ("web", "ReplicaSet").
Proof.
  split; [exact (proj2 stripReplicaSetHash_spec)|].
  repeat split; by_vm.
Qed.

(** ** The method byte *)

(** C10.  [httpEventToModel] gives every record a method string, whatever
    its method byte: the bytes 0 to 7 give UNKNOWN, GET, POST, PUT, DELETE,
    PATCH, HEAD and OPTIONS, and every other byte gives UNKNOWN. *)
Theorem httpEventToModel_method_total (he : ebpf.HttpEvent) :
  model.HTTPRequestEvent.Method (ebpf.httpEventToModel he)
  = nth (N.to_nat (Byte.to_N (ebpf.Method he))) ebpf.methodNames "UNKNOWN" ∧
  ((7 < Byte.to_N (ebpf.Method he))%N →
   model.HTTPRequestEvent.Method (ebpf.httpEventToModel he) = "UNKNOWN").
Proof.
  assert (Hnth : model.HTTPRequestEvent.Method (ebpf.httpEventToModel he)
                 = nth (N.to_nat (Byte.to_N (ebpf.Method he))) ebpf.methodNames
                     "UNKNOWN").
  { unfold ebpf.httpEventToModel. simpl. destruct (ebpf.Method he); by_vm. }
  split; [exact Hnth|].
  intros Hbig. rewrite Hnth. apply nth_overflow. simpl. lia.
Qed.

(** ** Ingestion *)

Section AggregatorTotal.

Import metrics.

Context {F : Type} `{f64.Float64 F}.

Lemma getOrCreate_length (a : Aggregator F) svc ns :
  wellFormed a →
  length (latencyCounts (getOrCreate a svc ns)) = (length (buckets a) + 1)%nat.
Proof.
  intros Hwf. unfold getOrCreate.
  destruct (services a !! svc) as [sm|] eqn:Hsm.
  - exact (Hwf _ _ Hsm).
  - apply length_replicate.
Qed.

Lemma store_wellFormed (a : Aggregator F) svc sm :
  wellFormed a →
  length (latencyCounts sm) = (length (buckets a) + 1)%nat →
  wellFormed (store a svc sm).
Proof. intros Hwf Hlen. apply map_Forall_insert_2; assumption. Qed.

(** An observation on a well-formed aggregator does not panic and leaves
    the aggregator well formed. *)
Lemma ObserveConnection_total now (a : Aggregator F) ev :
  wellFormed a →
  ∃ a', ObserveConnection now a ev = Some a' ∧ wellFormed a' ∧ buckets a' = buckets a.
Proof.
  intros Hwf. unfold ObserveConnection. cbv zeta.
  set (svc := if String.eqb (model.Endpoint.Service (model.ConnectionEvent.Source ev)) ""
              then model.Endpoint.Service (model.ConnectionEvent.Destination ev)
              else model.Endpoint.Service (model.ConnectionEvent.Source ev)).
  destruct (String.eqb svc ""); [exists a; auto|].
  set (ns := model.Endpoint.Namespace (model.ConnectionEvent.Source ev)).
  pose proof (getOrCreate_length a svc ns Hwf) as Hlen.
  match goal with
  | |- context [observeLatency _ ?r _] => set (sm := r)
  end.
  assert (Hsm : length (latencyCounts sm) = (length (buckets a) + 1)%nat) by exact Hlen.
  destruct (0 <? model.ConnectionEvent.DurationNs ev)%Z.
  - destruct (observeLatency_step (buckets a) sm
                (f64.ofZ (model.ConnectionEvent.DurationNs ev)) Hsm)
      as (sm' & c & Hobs & _ & Hcounts & _).
    rewrite Hobs. eexists; split; [reflexivity|]. split; [|reflexivity].
    apply store_wellFormed; [exact Hwf|]. rewrite Hcounts, length_insert. exact Hsm.
  - eexists; split; [reflexivity|]. split; [|reflexivity].
    apply store_wellFormed; assumption.
Qed.

Lemma ObserveHTTPRequest_total now (a : Aggregator F) ev :
  wellFormed a →
  ∃ a', ObserveHTTPRequest now a ev = Some a' ∧ wellFormed a' ∧ buckets a' = buckets a.
Proof.
  intros Hwf. unfold ObserveHTTPRequest. cbv zeta.
  set (svc := if String.eqb (model.Endpoint.Service (model.HTTPRequestEvent.Destination ev)) ""
              then model.Endpoint.Service (model.HTTPRequestEvent.Source ev)
              else model.Endpoint.Service (model.HTTPRequestEvent.Destination ev)).
  destruct (String.eqb svc ""); [exists a; auto|].
  set (ns := model.Endpoint.Namespace (model.HTTPRequestEvent.Destination ev)).
  pose proof (getOrCreate_length a svc ns Hwf) as Hlen.
  match goal with
  | |- context [observeLatency _ ?r _] => set (sm := r)
  end.
  assert (Hsm : length (latencyCounts sm) = (length (buckets a) + 1)%nat) by exact Hlen.
  destruct (0 <? model.HTTPRequestEvent.LatencyNs ev)%Z.
  - destruct (observeLatency_step (buckets a) sm
                (f64.ofZ (model.HTTPRequestEvent.LatencyNs ev)) Hsm)
      as (sm' & c & Hobs & _ & Hcounts & _).
    rewrite Hobs. eexists; split; [reflexivity|]. split; [|reflexivity].
    apply store_wellFormed; [exact Hwf|]. rewrite Hcounts, length_insert. exact Hsm.
  - eexists; split; [reflexivity|]. split; [|reflexivity].
    apply store_wellFormed; assumption.
Qed.

End AggregatorTotal.

Section IngestionTotal.

Import ingestion.

Context {F : Type} `{f64.Float64 F} {W : Type} `{EventWriter W}.

Lemma observeConnections_total clock conns : ∀ i (a : metrics.Aggregator F),
  metrics.wellFormed a →
  ∃ a', observeConnections clock i a conns = Some a' ∧ metrics.wellFormed a'.
Proof.
  induction conns as [|c conns IH]; intros i a Hwf; simpl.
  - exists a. auto.
  - destruct (ObserveConnection_total (clock i) a c Hwf) as (a1 & H1 & Hwf1 & _).
    rewrite H1. simpl. apply IH. exact Hwf1.
Qed.

Lemma observeRequests_total clock reqs : ∀ i (a : metrics.Aggregator F),
  metrics.wellFormed a →
  ∃ a', observeRequests clock i a reqs = Some a' ∧ metrics.wellFormed a'.
Proof.
  induction reqs as [|r reqs IH]; intros i a Hwf; simpl.
  - exists a. auto.
  - destruct (ObserveHTTPRequest_total (clock i) a r Hwf) as (a1 & H1 & Hwf1 & _).
    rewrite H1. simpl. apply IH. exact Hwf1.
Qed.


(** [processBatch], case by case on what the two writes answer. *)
Lemma processBatch_cases clock (s : IngestionServer F W) batch :
  metrics.wellFormed (aggregator s) →
  ∃ s1 accepted err,
    processBatch clock s batch = Some (s1, accepted, err) ∧
    metrics.wellFormed (aggregator s1) ∧
    match writeIfAny WriteConnectionEvents (writer s) (decodeConnections batch) with
    | (w1, Some e) =>
        (s1, accepted, err) = (with_store s w1 (aggregator s), 0%Z, Some e)
    | (w1, None) =>
        ∃ a1, observeConnections clock 0 (aggregator s) (decodeConnections batch)
              = Some a1 ∧
          match writeIfAny WriteHTTPRequestEvents w1 (decodeRequests batch) with
          | (w2, Some e) =>
              (s1, accepted, err)
              = (with_store s w2 a1,
                 uint64 (Z.of_nat (length (decodeConnections batch))), Some e)
          | (w2, None) =>
              ∃ a2, observeRequests clock (length (decodeConnections batch)) a1
                      (decodeRequests batch) = Some a2 ∧
                (s1, accepted, err)
                = (count (with_store s w2 a2)
                     (uint64 (Z.of_nat (length (decodeConnections batch))
                              + Z.of_nat (length (decodeRequests batch)))),
                   uint64 (Z.of_nat (length (decodeConnections batch))
                           + Z.of_nat (length (decodeRequests batch))), None)
          end
    end.
Proof.
  intros Hwf.
  assert (Hlc : length (decodeConnections batch) = length (EventBatch.Connections batch))
    by apply length_fmap.
  assert (Hlr : length (decodeRequests batch) = length (EventBatch.HTTPRequests batch))
    by apply length_fmap.
  destruct (observeConnections_total clock (decodeConnections batch) 0 _ Hwf)
    as (a1 & Ha1 & Hwf1).
  (* the first half *)
  assert (Hfirst :
    match writeIfAny WriteConnectionEvents (writer s) (decodeConnections batch) with
    | (w1, Some e) =>
        processConnections clock s batch
        = Some (with_store s w1 (aggregator s), 0%Z, Some e)
    | (w1, None) =>
        processConnections clock s batch
        = Some (with_store s w1 a1,
                uint64 (Z.of_nat (length (decodeConnections batch))), None)
    end).
  { unfold processConnections, writeIfAny. rewrite Hlc.
    destruct (0 <? length (EventBatch.Connections batch))%nat eqn:Hany.
    - destruct (WriteConnectionEvents (writer s) (decodeConnections batch))
        as [w1 [e|]]; [reflexivity|].
      simpl. rewrite Ha1. reflexivity.
    - apply Nat.ltb_ge in Hany.
      destruct (decodeConnections batch) as [|c cs] eqn:Hconns; [|simpl in Hlc; lia].
      simpl in Ha1. inversion Ha1; subst a1. simpl in Hlc. rewrite <- Hlc.
      destruct s; reflexivity. }
  unfold processBatch.
  destruct (writeIfAny WriteConnectionEvents (writer s) (decodeConnections batch))
    as [w1 [e|]].
  { rewrite Hfirst. simpl. eexists _, _, _. split; [reflexivity|]. split; [exact Hwf|].
    reflexivity. }
  rewrite Hfirst. simpl.
  destruct (observeRequests_total clock (decodeRequests batch)
              (length (decodeConnections batch)) a1 Hwf1) as (a2 & Ha2 & Hwf2).
  unfold processRequests, writeIfAny. simpl. rewrite Hlr, <- Hlc.
  destruct (0 <? length (EventBatch.HTTPRequests batch))%nat eqn:Hany.
  - destruct (WriteHTTPRequestEvents w1 (decodeRequests batch)) as [w2 [e|]]; simpl.
    + eexists _, _, _. split; [reflexivity|]. split; [exact Hwf1|].
      exists a1. split; [exact Ha1|]. reflexivity.
    + rewrite Ha2. simpl. eexists _, _, _. split; [reflexivity|].
      split; [exact Hwf2|]. exists a1. split; [exact Ha1|].
      exists a2. split; [exact Ha2|].
      unfold uint64. rewrite Zplus_mod_idemp_l. reflexivity.
  - apply Nat.ltb_ge in Hany.
    destruct (decodeRequests batch) as [|r rs] eqn:Hreqs; [|simpl in Hlr; lia].
    simpl in Ha2. inversion Ha2; subst a2. simpl.
    eexists _, _, _. split; [reflexivity|]. split; [exact Hwf1|].
    exists a1. split; [exact Ha1|]. exists a1. split; [reflexivity|].
    simpl in Hlr. rewrite <- Hlr. simpl. rewrite Z.add_0_r. reflexivity.
Qed.

Lemma logBatch_aggregator (s : IngestionServer F W) err :
  aggregator (logBatch s err) = aggregator s.
Proof. destruct err; reflexivity. Qed.

(** A stream of batches is served to its end. *)
Lemma streamLoop_total clock batches : ∀ k (s : IngestionServer F W) total,
  metrics.wellFormed (aggregator s) →
  ∃ s' total', streamLoop clock k s total (RecvBatch <$> batches)
               = Some (s', SendAndClose {| StreamResponse.Accepted := total';
                                           StreamResponse.Error := "" |}).
Proof.
  induction batches as [|batch batches IH]; intros k s total Hwf; simpl.
  - eexists _, _. reflexivity.
  - destruct (processBatch_cases (clock k) s batch Hwf)
      as (s1 & accepted & err & Hp & Hwf1 & _).
    rewrite Hp. simpl. apply IH. rewrite logBatch_aggregator. exact Hwf1.
Qed.

End IngestionTotal.

(** C5, as the code has it.  A batch is processed without a panic, and
    whatever the writes answer the loop of [StreamEvents] goes on with the
    next batch, adds the count accepted to the total, and serves the stream
    to its end, where it answers with [SendAndClose].  Within the batch a
    failed write ends the processing: when the write of the connection
    events fails, no event of the batch is published, the request events
    are not written, and the count is 0; when the write of the request
    events fails, the connection events have been written and published and
    are the count, and no request event is published; when no write fails,
    every event of the batch is written and published and counted.  The
    aggregator holds what the observations of the published events make it,
    and nothing of a failed write. *)
Theorem StreamEvents_write_error_ends_batch_only
    {F : Type} `{f64.Float64 F} {W : Type} `{ingestion.EventWriter W}
    (clock : nat → nat → Z) (k : nat) (s : ingestion.IngestionServer F W)
    (totalAccepted : Z) (batch : ingestion.EventBatch.t)
    (rest : list ingestion.EventBatch.t) :
  metrics.wellFormed (ingestion.aggregator s) →
  ∃ s1 accepted err,
    ingestion.processBatch (clock k) s batch = Some (s1, accepted, err) ∧
    ingestion.streamLoop clock k s totalAccepted
      (ingestion.RecvBatch <$> batch :: rest)
    = ingestion.streamLoop clock (S k) (ingestion.logBatch s1 err)
        (uint64 (totalAccepted + accepted)) (ingestion.RecvBatch <$> rest) ∧
    metrics.wellFormed (ingestion.aggregator (ingestion.logBatch s1 err)) ∧
    (∃ s' total,
       ingestion.streamLoop clock k s totalAccepted
         (ingestion.RecvBatch <$> batch :: rest)
       = Some (s', ingestion.SendAndClose
                     {| ingestion.StreamResponse.Accepted := total;
                        ingestion.StreamResponse.Error := "" |})) ∧
    match ingestion.writeIfAny ingestion.WriteConnectionEvents
            (ingestion.writer s) (ingestion.decodeConnections batch) with
    | (w1, Some e) =>
        (s1, accepted, err)
        = (ingestion.with_store s w1 (ingestion.aggregator s), 0%Z, Some e)
    | (w1, None) =>
        ∃ a1, ingestion.observeConnections (clock k) 0 (ingestion.aggregator s)
                (ingestion.decodeConnections batch) = Some a1 ∧
          match ingestion.writeIfAny ingestion.WriteHTTPRequestEvents w1
                  (ingestion.decodeRequests batch) with
          | (w2, Some e) =>
              (s1, accepted, err)
              = (ingestion.with_store s w2 a1,
                 uint64 (Z.of_nat (length (ingestion.decodeConnections batch))),
                 Some e)
          | (w2, None) =>
              ∃ a2, ingestion.observeRequests (clock k)
                      (length (ingestion.decodeConnections batch)) a1
                      (ingestion.decodeRequests batch) = Some a2 ∧
                (s1, accepted, err)
                = (ingestion.count (ingestion.with_store s w2 a2)
                     (uint64
                        (Z.of_nat (length (ingestion.decodeConnections batch))
                         + Z.of_nat (length (ingestion.decodeRequests batch)))),
                   uint64
                     (Z.of_nat (length (ingestion.decodeConnections batch))
                      + Z.of_nat (length (ingestion.decodeRequests batch))),
                   None)
          end
    end.
Proof.
  intros Hwf.
  destruct (processBatch_cases (clock k) s batch Hwf)
    as (s1 & accepted & err & Hp & Hwf1 & Hcases).
  assert (Hstep : ingestion.streamLoop clock k s totalAccepted
                    (ingestion.RecvBatch <$> batch :: rest)
                  = ingestion.streamLoop clock (S k) (ingestion.logBatch s1 err)
                      (uint64 (totalAccepted + accepted))
                      (ingestion.RecvBatch <$> rest)).
  { simpl. rewrite Hp. reflexivity. }
  exists s1, accepted, err. split; [exact Hp|]. split; [exact Hstep|].
  split; [rewrite logBatch_aggregator; exact Hwf1|].
  split; [|exact Hcases].
  rewrite Hstep. apply streamLoop_total. rewrite logBatch_aggregator. exact Hwf1.
Qed.

(** The store is down when a batch with a connection and a request comes
    in, and a batch with a request follows: the stream is served to its end. *)
Lemma StreamEvents_write_error_ends_batch_only_witness :
  ∃ s' total,
    ingestion.StreamEvents (λ _ _, 0%Z) scenario.serverOnDownStore
      (ingestion.RecvBatch <$> [scenario.mixedBatch; scenario.requestBatch])
    = Some (s', ingestion.SendAndClose
                  {| ingestion.StreamResponse.Accepted := total;
                     ingestion.StreamResponse.Error := "" |}).
Proof.
  destruct (StreamEvents_write_error_ends_batch_only
              (λ _ _, 0%Z) 0 scenario.serverOnDownStore 0
              scenario.mixedBatch [scenario.requestBatch])
    as (_ & _ & _ & _ & _ & _ & (s' & total & Hrun) & _).
  - apply map_Forall_empty.
  - exists s', total. exact Hrun.
Defined.

(** C5, as the specification has it, fails.  The store refuses the
    connection event of a batch that also carries a request event.  The
    request event comes after the failure point, yet it is neither written
    (the store holds no request) nor published (the aggregator has no
    accumulator for its service), and 0 events are accepted.  The same
    request event alone in a batch is written and published.  In a stream of
    both batches the second one is processed: the stream goes on. *)
Lemma StreamEvents_drops_rest_of_failed_batch :
  scenario.streamResult scenario.serverOnDownStore [scenario.mixedBatch]
  = Some ([], None,
          ingestion.SendAndClose {| ingestion.StreamResponse.Accepted := 0;
                                    ingestion.StreamResponse.Error := "" |}) ∧
  scenario.streamResult scenario.serverOnDownStore [scenario.requestBatch]
  = Some (ingestion.decodeRequests scenario.requestBatch, Some 1%Z,
          ingestion.SendAndClose {| ingestion.StreamResponse.Accepted := 1;
                                    ingestion.StreamResponse.Error := "" |}) ∧
  scenario.streamResult scenario.serverOnDownStore
    [scenario.mixedBatch; scenario.requestBatch]
  = Some (ingestion.decodeRequests scenario.requestBatch, Some 1%Z,
          ingestion.SendAndClose {| ingestion.StreamResponse.Accepted := 1;
                                    ingestion.StreamResponse.Error := "" |}) ∧
  ingestion.decodeRequests scenario.mixedBatch
  = ingestion.decodeRequests scenario.requestBatch ∧
  length (ingestion.decodeRequests scenario.mixedBatch) = 1%nat.
Proof. repeat split; by_vm. Qed.

(** ** The sample that [computeP99] returns *)

Section P99Sample.

Import graph.

(** The two clamps keep the index inside the slice, whatever the float64
    computation gives. *)
Lemma p99Index_in_range (n : Z) : (0 < n)%Z → (0 ≤ p99Index n < n)%Z.
Proof.
  intros Hn. unfold p99Index.
  set (idx := (f64.ieee_toZ _ - 1)%Z). clearbody idx.
  destruct (Z.ltb_spec idx 0); destruct (Z.leb_spec n 0) as [?|?];
    try lia; destruct (Z.leb_spec n idx); lia.
Qed.

Lemma sortSlice_unique l l' : l ≡ₚ l' → sortSlice l = sortSlice l'.
Proof.
  intros Hperm.
  destruct (sortSlice_sorted l) as [Hs Hp], (sortSlice_sorted l') as [Hs' Hp'].
  apply (Sorted_unique Z.le); [exact Hs|exact Hs'|].
  rewrite Hp, Hp'. exact Hperm.
Qed.

End P99Sample.

(** The P99 of a dependency edge is one of its latency samples: for at
    least one sample, [computeP99] returns a member of the slice, whatever
    index the float64 computation gives (the two clamps keep it in range);
    the result does not depend on the order in which the samples were
    appended; and it lies within any bounds of the samples. *)
Theorem computeP99_is_a_sample (latencies : list Z) :
  latencies ≠ [] →
  graph.computeP99 latencies ∈ latencies ∧
  (∀ other, other ≡ₚ latencies → graph.computeP99 other = graph.computeP99 latencies) ∧
  (∀ lo hi, Forall (λ x, lo ≤ x ≤ hi)%Z latencies →
     (lo ≤ graph.computeP99 latencies ≤ hi)%Z).
Proof.
  intros Hne.
  assert (Hin : graph.computeP99 latencies ∈ latencies).
  { unfold graph.computeP99.
    assert (Hn : (0 < Z.of_nat (length latencies))%Z)
      by (destruct latencies; [congruence|simpl; lia]).
    rewrite (proj2 (Z.eqb_neq _ 0)) by lia. cbv zeta.
    destruct (sortSlice_sorted latencies) as [_ Hperm].
    assert (Hnth : nth (Z.to_nat (graph.p99Index (Z.of_nat (length latencies))))
                     (graph.sortSlice latencies) 0%Z ∈ graph.sortSlice latencies).
    { apply list_elem_of_In, nth_In. rewrite (Permutation_length Hperm).
      pose proof (p99Index_in_range _ Hn). lia. }
    revert Hnth. generalize (nth (Z.to_nat (graph.p99Index (Z.of_nat (length latencies))))
                     (graph.sortSlice latencies) 0%Z).
    intros x Hx. rewrite <- Hperm. exact Hx. }
  split; [exact Hin|]. split.
  - intros other Hperm. unfold graph.computeP99.
    rewrite (Permutation_length Hperm), (sortSlice_unique _ _ Hperm). reflexivity.
  - intros lo hi Hall. rewrite Forall_forall in Hall. apply Hall. exact Hin.
Qed.

(** Three samples in two orders: the P99 is one of them, and the same. *)
Lemma computeP99_is_a_sample_witness :
  graph.computeP99 [30; 10; 20]%Z ∈ [30; 10; 20]%Z ∧
  graph.computeP99 [10; 20; 30]%Z = graph.computeP99 [30; 10; 20]%Z.
Proof.
  destruct (computeP99_is_a_sample [30; 10; 20]%Z ltac:(discriminate))
    as (Hin & Hperm & _).
  split; [exact Hin|]. apply Hperm.
  symmetry. apply (Permutation_cons_append [10; 20]%Z 30%Z).
Defined.

(** ** The links of a compute cycle *)

Section LinkStats.

Import graph.

Lemma key_inj src : ∀ dst src' dst',
  hasGt src = false → hasGt src' = false →
  key src dst = key src' dst' → src = src' ∧ dst = dst'.
Proof.
  unfold key.
  induction src as [|a src IH]; intros dst [|a' src'] dst' Hno Hno' Heq.
  - inversion Heq. auto.
  - inversion Heq as [[Ha Hrest]]. subst a'.
    destruct src' as [|b src']; [inversion Hrest|].
    inversion Hrest; subst b. discriminate Hno'.
  - inversion Heq as [[Ha Hrest]]. subst a.
    destruct src as [|b src]; [inversion Hrest|].
    inversion Hrest; subst b. discriminate Hno.
  - inversion Heq as [[Ha Hrest]]. subst a'.
    simpl in Hno, Hno'.
    apply orb_false_iff in Hno. apply orb_false_iff in Hno'.
    destruct (IH dst src' dst' (proj2 Hno) (proj2 Hno') Hrest) as [-> ->]. auto.
Qed.

Lemma skip_iff (src dst : string) :
  String.eqb src "" || String.eqb dst "" || String.eqb src dst = false ↔
  src ≠ "" ∧ dst ≠ "" ∧ src ≠ dst.
Proof.
  rewrite !orb_false_iff, !String.eqb_neq. tauto.
Qed.

Lemma uint64_succ (n : nat) :
  uint64 (uint64 (Z.of_nat n) + 1) = uint64 (Z.of_nat (S n)).
Proof.
  unfold uint64. rewrite Zplus_mod_idemp_l. f_equal. lia.
Qed.

Lemma totalsOf_empty : totalsOf {| deps := ∅ |} [] [].
Proof.
  split.
  - intros k acc H. simpl in H. rewrite lookup_empty in H. discriminate.
  - intros p c _ _ _ _. simpl. apply lookup_empty.
Qed.

Lemma getAcc_totals dc cs rs p c :
  totalsOf dc cs rs → hasGt p = false → p ≠ "" → c ≠ "" → p ≠ c →
  getAcc dc p c = edgeTotals p c (edgeConns p c cs) (edgeReqs p c rs).
Proof.
  intros [_ HF] Hno Hp Hc Hpc. unfold getAcc. rewrite (HF p c Hno Hp Hc Hpc).
  destruct (length (edgeConns p c cs) + length (edgeReqs p c rs) =? 0)%nat eqn:E;
    [|reflexivity].
  apply Nat.eqb_eq in E.
  destruct (edgeConns p c cs); [|simpl in E; lia].
  destruct (edgeReqs p c rs); [|simpl in E; lia].
  reflexivity.
Qed.

Lemma edgeConns_snoc p c cs ev :
  edgeConns p c (cs ++ [ev]) =
  edgeConns p c cs ++
    (if decide (model.Endpoint.Service (model.ConnectionEvent.Source ev) = p ∧
                model.Endpoint.Service (model.ConnectionEvent.Destination ev) = c)
     then [ev] else []).
Proof.
  unfold edgeConns. rewrite filter_app. f_equal.
Qed.

Lemma edgeReqs_snoc p c rs ev :
  edgeReqs p c (rs ++ [ev]) =
  edgeReqs p c rs ++
    (if decide (model.Endpoint.Service (model.HTTPRequestEvent.Source ev) = p ∧
                model.Endpoint.Service (model.HTTPRequestEvent.Destination ev) = c)
     then [ev] else []).
Proof.
  unfold edgeReqs. rewrite filter_app. f_equal.
Qed.

Lemma addConnectionEvent_totals dc cs ev :
  hasGt (model.Endpoint.Service (model.ConnectionEvent.Source ev)) = false →
  totalsOf dc cs [] → totalsOf (addConnectionEvent dc ev) (cs ++ [ev]) [].
Proof.
  intros Hno Htot. pose proof Htot as [HR HF]. unfold addConnectionEvent. cbv zeta.
  set (src := model.Endpoint.Service (model.ConnectionEvent.Source ev)) in *.
  set (dst := model.Endpoint.Service (model.ConnectionEvent.Destination ev)) in *.
  destruct (String.eqb src "" || String.eqb dst "" || String.eqb src dst) eqn:Hskip.
  - split; [exact HR|].
    intros p c Hp Hpe Hce Hpc. rewrite edgeConns_snoc.
    destruct (decide _) as [[Hs Hd]|_].
    + exfalso. fold src in Hs. fold dst in Hd. subst p c.
      rewrite (proj2 (skip_iff src dst)) in Hskip by auto. discriminate.
    + rewrite app_nil_r. apply HF; assumption.
  - apply skip_iff in Hskip. destruct Hskip as (Hs & Hd & Hsd).
    rewrite (getAcc_totals dc cs [] src dst Htot Hno Hs Hd Hsd).
    split.
    + intros k acc Hk. simpl in Hk.
      destruct (decide (k = key src dst)) as [->|Hne].
      * rewrite lookup_insert_eq in Hk. inversion Hk; subst acc; clear Hk. simpl.
        repeat split; auto.
      * rewrite lookup_insert_ne in Hk by congruence. apply HR. exact Hk.
    + intros p c Hp Hpe Hce Hpc. simpl. rewrite edgeConns_snoc.
      destruct (decide _) as [[Hs' Hd']|Hnot].
      * fold src in Hs'. fold dst in Hd'. subst p c.
        rewrite lookup_insert_eq.
        match goal with
        | |- context [Nat.eqb ?a 0] =>
            destruct (Nat.eqb_spec a 0) as [E|_];
            [rewrite length_app in E; simpl in E; lia|]
        end.
        f_equal. unfold edgeTotals. simpl. f_equal.
        -- rewrite length_app. simpl.
           replace (length (edgeConns src dst cs) + 1 + 0)%nat
             with (S (length (edgeConns src dst cs) + 0)) by lia.
           apply uint64_succ.
        -- unfold edgeLatencies. simpl. rewrite !app_nil_r, filter_app, fmap_app.
           rewrite filter_cons, filter_nil.
           destruct (Z.ltb_spec 0 (model.ConnectionEvent.DurationNs ev));
             destruct (decide _); try lia; simpl; rewrite ?app_nil_r; reflexivity.
      * rewrite app_nil_r, lookup_insert_ne; [apply HF; assumption|].
        intros Heq. apply key_inj in Heq; [|assumption..].
        destruct Heq as [<- <-]. apply Hnot. auto.
Qed.

Lemma addHTTPRequestEvent_totals dc cs rs ev :
  hasGt (model.Endpoint.Service (model.HTTPRequestEvent.Source ev)) = false →
  totalsOf dc cs rs → totalsOf (addHTTPRequestEvent dc ev) cs (rs ++ [ev]).
Proof.
  intros Hno Htot. pose proof Htot as [HR HF]. unfold addHTTPRequestEvent. cbv zeta.
  set (src := model.Endpoint.Service (model.HTTPRequestEvent.Source ev)) in *.
  set (dst := model.Endpoint.Service (model.HTTPRequestEvent.Destination ev)) in *.
  destruct (String.eqb src "" || String.eqb dst "" || String.eqb src dst) eqn:Hskip.
  - split; [exact HR|].
    intros p c Hp Hpe Hce Hpc. rewrite edgeReqs_snoc.
    destruct (decide _) as [[Hs Hd]|_].
    + exfalso. fold src in Hs. fold dst in Hd. subst p c.
      rewrite (proj2 (skip_iff src dst)) in Hskip by auto. discriminate.
    + rewrite app_nil_r. apply HF; assumption.
  - apply skip_iff in Hskip. destruct Hskip as (Hs & Hd & Hsd).
    rewrite (getAcc_totals dc cs rs src dst Htot Hno Hs Hd Hsd).
    split.
    + intros k acc Hk. simpl in Hk.
      destruct (decide (k = key src dst)) as [->|Hne].
      * rewrite lookup_insert_eq in Hk. inversion Hk; subst acc; clear Hk. simpl.
        repeat split; auto.
      * rewrite lookup_insert_ne in Hk by congruence. apply HR. exact Hk.
    + intros p c Hp Hpe Hce Hpc. simpl. rewrite edgeReqs_snoc.
      destruct (decide _) as [[Hs' Hd']|Hnot].
      * fold src in Hs'. fold dst in Hd'. subst p c.
        rewrite lookup_insert_eq.
        match goal with
        | |- context [Nat.eqb ?a 0] =>
            destruct (Nat.eqb_spec a 0) as [E|_];
            [rewrite length_app in E; simpl in E; lia|]
        end.
        f_equal. unfold edgeTotals. simpl. f_equal.
        -- rewrite length_app. simpl.
           replace (length (edgeConns src dst cs) + (length (edgeReqs src dst rs) + 1))%nat
             with (S (length (edgeConns src dst cs) + length (edgeReqs src dst rs))) by lia.
           apply uint64_succ.
        -- unfold edgeErrors. rewrite filter_app, length_app, filter_cons, filter_nil.
           destruct (Z.leb_spec 500 (model.HTTPRequestEvent.StatusCode ev));
             destruct (decide _); try lia; simpl.
           ++ rewrite Nat.add_1_r. apply uint64_succ.
           ++ rewrite Nat.add_0_r. reflexivity.
        -- unfold edgeLatencies. rewrite filter_app, fmap_app, app_assoc.
           rewrite filter_cons, filter_nil.
           destruct (Z.ltb_spec 0 (model.HTTPRequestEvent.LatencyNs ev));
             destruct (decide _); try lia; simpl; rewrite ?app_nil_r; reflexivity.
      * rewrite app_nil_r, lookup_insert_ne; [apply HF; assumption|].
        intros Heq. apply key_inj in Heq; [|assumption..].
        destruct Heq as [<- <-]. apply Hnot. auto.
Qed.

Lemma foldl_conn_totals conns : ∀ dc cs,
  Forall (λ ev, hasGt (model.Endpoint.Service (model.ConnectionEvent.Source ev)) = false) conns →
  totalsOf dc cs [] → totalsOf (foldl addConnectionEvent dc conns) (cs ++ conns) [].
Proof.
  induction conns as [|ev conns IH]; intros dc cs Hall Htot; simpl.
  - rewrite app_nil_r. exact Htot.
  - inversion Hall; subst.
    replace (cs ++ ev :: conns) with ((cs ++ [ev]) ++ conns)
      by (rewrite <- app_assoc; reflexivity).
    apply IH; [assumption|]. apply addConnectionEvent_totals; assumption.
Qed.

Lemma foldl_req_totals reqs : ∀ dc cs rs,
  Forall (λ ev, hasGt (model.Endpoint.Service (model.HTTPRequestEvent.Source ev)) = false) reqs →
  totalsOf dc cs rs → totalsOf (foldl addHTTPRequestEvent dc reqs) cs (rs ++ reqs).
Proof.
  induction reqs as [|ev reqs IH]; intros dc cs rs Hall Htot; simpl.
  - rewrite app_nil_r. exact Htot.
  - inversion Hall; subst.
    replace (rs ++ ev :: reqs) with ((rs ++ [ev]) ++ reqs)
      by (rewrite <- app_assoc; reflexivity).
    apply IH; [assumption|]. apply addHTTPRequestEvent_totals; assumption.
Qed.

Lemma compute_totals dc conns reqs :
  Forall (λ ev, hasGt (model.Endpoint.Service (model.ConnectionEvent.Source ev)) = false)
    (default [] conns) →
  Forall (λ ev, hasGt (model.Endpoint.Service (model.HTTPRequestEvent.Source ev)) = false)
    (default [] reqs) →
  totalsOf (compute dc conns reqs).1 (default [] conns) (default [] reqs).
Proof.
  intros Hc Hr. unfold compute. cbv zeta. simpl.
  assert (H1 : totalsOf
                 match conns with
                 | Some conns => foldl addConnectionEvent {| deps := ∅ |} conns
                 | None => {| deps := ∅ |}
                 end (default [] conns) []).
  { destruct conns as [conns|]; simpl in *.
    - apply (foldl_conn_totals conns _ [] Hc totalsOf_empty).
    - apply totalsOf_empty. }
  destruct reqs as [reqs|]; simpl in *.
  - apply (foldl_req_totals reqs _ _ [] Hr H1).
  - exact H1.
Qed.

End LinkStats.

(** The links of a compute cycle are the per-edge totals of the events
    read.  Whatever the accumulators held before (they are reset), and for
    events whose source service names have no '>' in them (a Kubernetes
    service name has none), so that no two edges share the key
    "parent->child": every link is of an edge with at least one event; its
    call count is the number of connection and request events of the edge,
    its error count the number of its request events with a status of 500 or
    more (both as uint64), and its P99 is [computeP99] of the positive
    durations of its connection events followed by the positive latencies of
    its request events; every proper edge (both ends named and different)
    with an event has a link; and no two links are of the same edge.  A
    reader that fails counts as having answered no event. *)
Theorem compute_links_are_edge_totals (dc : graph.DependencyComputer)
    (conns : option (list model.ConnectionEvent.t))
    (reqs : option (list model.HTTPRequestEvent.t)) :
  Forall (λ ev, graph.hasGt (model.Endpoint.Service (model.ConnectionEvent.Source ev)) = false)
    (default [] conns) →
  Forall (λ ev, graph.hasGt (model.Endpoint.Service (model.HTTPRequestEvent.Source ev)) = false)
    (default [] reqs) →
  let links := (graph.compute dc conns reqs).2 in
  let ec p c := graph.edgeConns p c (default [] conns) in
  let er p c := graph.edgeReqs p c (default [] reqs) in
  (∀ link, link ∈ links →
     let p := model.DependencyLink.Parent link in
     let c := model.DependencyLink.Child link in
     (0 < length (ec p c) + length (er p c))%nat ∧
     model.DependencyLink.CallCount link
       = uint64 (Z.of_nat (length (ec p c) + length (er p c))) ∧
     model.DependencyLink.ErrorCount link
       = uint64 (Z.of_nat (length (graph.edgeErrors (er p c)))) ∧
     model.DependencyLink.P99LatencyNs link
       = graph.computeP99 (graph.edgeLatencies (ec p c) (er p c))) ∧
  (∀ p c, p ≠ "" → c ≠ "" → p ≠ c →
     (0 < length (ec p c) + length (er p c))%nat →
     ∃ link, link ∈ links ∧ model.DependencyLink.Parent link = p ∧
             model.DependencyLink.Child link = c) ∧
  NoDup ((λ link, (model.DependencyLink.Parent link, model.DependencyLink.Child link))
           <$> links).
Proof.
  intros Hc Hr links ec er.
  pose proof (compute_totals dc conns reqs Hc Hr) as [HR HF].
  assert (Hlinks : links = graph.buildLinks (graph.compute dc conns reqs).1)
    by reflexivity.
  clearbody links.
  set (dc' := (graph.compute dc conns reqs).1) in *. clearbody dc'. clear dc.
  subst links.
  assert (Hacc : ∀ k acc, graph.deps dc' !! k = Some acc →
            (0 < length (ec (graph.parent acc) (graph.child acc))
                 + length (er (graph.parent acc) (graph.child acc)))%nat ∧
            acc = graph.edgeTotals (graph.parent acc) (graph.child acc)
                    (ec (graph.parent acc) (graph.child acc))
                    (er (graph.parent acc) (graph.child acc))).
  { intros k acc Hk. destruct (HR k acc Hk) as (-> & Hno & Hp & Hch & Hpc).
    rewrite (HF _ _ Hno Hp Hch Hpc) in Hk. fold (ec (graph.parent acc) (graph.child acc)) in Hk.
    fold (er (graph.parent acc) (graph.child acc)) in Hk.
    destruct (Nat.eqb_spec (length (ec (graph.parent acc) (graph.child acc))
                + length (er (graph.parent acc) (graph.child acc))) 0) as [E|E];
      [discriminate|].
    split; [lia|]. congruence. }
  split; [|split].
  - intros link Hin. unfold graph.buildLinks in Hin.
    apply list_elem_of_fmap in Hin. destruct Hin as ([k acc] & -> & Hin).
    apply elem_of_map_to_list in Hin. simpl.
    destruct (Hacc k acc Hin) as [Hpos Heq].
    split; [exact Hpos|].
    pose proof (f_equal graph.callCount Heq) as H1.
    pose proof (f_equal graph.errorCount Heq) as H2.
    pose proof (f_equal graph.latencies Heq) as H3.
    simpl in H1, H2, H3. rewrite H3. auto.
  - intros p c Hp Hch Hpc Hpos.
    assert (Hno : graph.hasGt p = false).
    { destruct (ec p c) as [|ev l] eqn:Eec.
      - destruct (er p c) as [|ev l] eqn:Eer; [simpl in Hpos; lia|].
        assert (Hin : ev ∈ er p c) by (rewrite Eer; left).
        apply list_elem_of_filter in Hin. destruct Hin as [[Hsp _] Hin].
        rewrite <- Hsp. rewrite Forall_forall in Hr. apply Hr. exact Hin.
      - assert (Hin : ev ∈ ec p c) by (rewrite Eec; left).
        apply list_elem_of_filter in Hin. destruct Hin as [[Hsp _] Hin].
        rewrite <- Hsp. rewrite Forall_forall in Hc. apply Hc. exact Hin. }
    pose proof (HF p c Hno Hp Hch Hpc) as Hk.
    fold (ec p c) in Hk. fold (er p c) in Hk.
    destruct (Nat.eqb_spec (length (ec p c) + length (er p c)) 0) as [E|E]; [lia|].
    eexists. split.
    + unfold graph.buildLinks. apply list_elem_of_fmap.
      eexists (_, _). split; [reflexivity|]. apply elem_of_map_to_list. exact Hk.
    + simpl. auto.
  - unfold graph.buildLinks. rewrite <- list_fmap_compose.
    apply (NoDup_fmap_1 (λ pc : string * string, graph.key pc.1 pc.2)).
    rewrite <- list_fmap_compose.
    match goal with
    | |- NoDup (?f <$> ?l) => assert (Heq : f <$> l = fst <$> l)
    end.
    { apply list_fmap_ext. intros i [k acc] Hi. simpl.
      apply list_elem_of_lookup_2, elem_of_map_to_list in Hi.
      destruct (HR k acc Hi) as [Hkey _]. symmetry. exact Hkey. }
    rewrite Heq. apply NoDup_fst_map_to_list.
Qed.

(** Two connections and one request from "web" to "api": one link, with
    three calls and no error. *)
Lemma compute_links_are_edge_totals_witness :
  ∃ link,
    link ∈ (graph.compute {| graph.deps := ∅ |}
              (Some [scenario.webConnection; scenario.webConnection])
              (Some [scenario.webRequest])).2 ∧
    model.DependencyLink.Parent link = "web" ∧
    model.DependencyLink.Child link = "api" ∧
    model.DependencyLink.CallCount link = 3%Z ∧
    model.DependencyLink.ErrorCount link = 0%Z.
Proof.
  destruct (compute_links_are_edge_totals {| graph.deps := ∅ |}
              (Some [scenario.webConnection; scenario.webConnection])
              (Some [scenario.webRequest])) as (Hstats & Hex & _).
  - repeat constructor.
  - repeat constructor.
  - destruct (Hex "web" "api") as (link & Hin & Hp & Hc); try discriminate.
    { vm_compute. lia. }
    exists link. split; [exact Hin|].
    destruct (Hstats link Hin) as (_ & Hcall & Herr & _).
    rewrite Hp, Hc in Hcall, Herr.
    split; [exact Hp|]. split; [exact Hc|]. split; [exact Hcall|exact Herr].
Defined.

(** ** What the aggregator holds after a run of observations *)

Section AggregatorTotals.

Import f64 metrics.

Context {F : Type} `{f64.Float64 F}.

Lemma histogramOf_new (bs : list F) :
  histogramOf bs (replicate (length bs + 1) 0%Z) [].
Proof.
  split; [apply length_replicate|].
  intros i Hi. rewrite length_replicate in Hi.
  rewrite lookup_replicate_2 by exact Hi. reflexivity.
Qed.

Lemma uint64_succ' (n : nat) :
  uint64 (uint64 (Z.of_nat n) + 1) = uint64 (Z.of_nat (n + 1)).
Proof.
  unfold uint64. rewrite Zplus_mod_idemp_l. f_equal. lia.
Qed.

Lemma uint64_add (x y : Z) : uint64 (uint64 x + y) = uint64 (x + y).
Proof. unfold uint64. apply Zplus_mod_idemp_l. Qed.

Lemma uint64_idem (x : Z) : uint64 (uint64 x) = uint64 x.
Proof. unfold uint64. apply Zmod_mod. Qed.

Lemma sumZ_snoc l x : sumZ (l ++ [x]) = (sumZ l + x)%Z.
Proof. unfold sumZ. induction l as [|y l IH]; simpl; lia. Qed.

Lemma sumZ_fmap_snoc {A} (f : A → Z) l x :
  sumZ (f <$> l ++ [x]) = (sumZ (f <$> l) + f x)%Z.
Proof. rewrite fmap_app. apply sumZ_snoc. Qed.

Lemma histogramOf_observe (bs : list F) (sm : serviceMetrics F) samples (x : Z) :
  histogramOf bs (latencyCounts sm) samples →
  ∃ sm', observeLatency bs sm (ofZ x) = Some sm' ∧
    histogramOf bs (latencyCounts sm') (samples ++ [x]) ∧
    latencySum sm' = add (latencySum sm) (ofZ x) ∧
    namespace sm' = namespace sm ∧ callCount sm' = callCount sm ∧
    errorCount sm' = errorCount sm ∧ bytesSent sm' = bytesSent sm ∧
    bytesRecv sm' = bytesRecv sm ∧ lastObserved sm' = lastObserved sm.
Proof.
  intros [Hlen Hcounts].
  destruct (observeLatency_step bs sm (ofZ x) Hlen) as (sm' & c & Hobs & Hc & Hcs & Hsum).
  exists sm'. split; [exact Hobs|].
  assert (Hfields : namespace sm' = namespace sm ∧ callCount sm' = callCount sm ∧
    errorCount sm' = errorCount sm ∧ bytesSent sm' = bytesSent sm ∧
    bytesRecv sm' = bytesRecv sm ∧ lastObserved sm' = lastObserved sm).
  { unfold observeLatency in Hobs. destruct (incr _ _); [|discriminate].
    inversion Hobs. simpl. auto 10. }
  split; [|split; [exact Hsum|exact Hfields]].
  split; [rewrite Hcs, length_insert; exact Hlen|].
  intros i Hi. rewrite Hcs in Hi |- *. rewrite length_insert in Hi.
  rewrite filter_app, length_app, filter_cons, filter_nil.
  destruct (decide (bucketIndex bs (ofZ x) = i)) as [Heq|Hne].
  - subst i. rewrite list_lookup_insert_eq by exact Hi.
    rewrite (Hcounts _ Hi) in Hc. injection Hc as <-. simpl. f_equal.
    apply uint64_succ'.
  - rewrite list_lookup_insert_ne by exact Hne. simpl. rewrite Nat.add_0_r.
    apply Hcounts. exact Hi.
Qed.


Lemma totals_new (bs : list F) ns : totals bs (newServiceMetrics bs ns) [].
Proof.
  unfold totals. simpl. repeat split; try reflexivity.
  - apply length_replicate.
  - apply histogramOf_new.
Qed.

Lemma getOrCreate_accounted bs (a : Aggregator F) os svc ns :
  accountedAll bs a os → svc ≠ "" →
  let mine := filter (λ o, serviceOf o = svc) os in
  totals bs (getOrCreate a svc ns) mine ∧
  namespace (getOrCreate a svc ns) = default ns (namespaceOf <$> head mine).
Proof.
  intros (Hbs & _ & Hall) Hsvc mine. specialize (Hall svc Hsvc). fold mine in Hall.
  unfold getOrCreate, accounted in *. destruct mine as [|first rest].
  - rewrite Hall, Hbs. split; [apply totals_new|reflexivity].
  - destruct Hall as (sm & -> & Hns & _ & Htot). auto.
Qed.

Lemma store_accounted bs (a : Aggregator F) os o sm :
  accountedAll bs a os → serviceOf o ≠ "" →
  let mine := filter (λ o', serviceOf o' = serviceOf o) os in
  totals bs sm (mine ++ [o]) →
  namespace sm = default (namespaceOf o) (namespaceOf <$> head mine) →
  lastObserved sm = clockOf o →
  accountedAll bs (store a (serviceOf o) sm) (os ++ [o]).
Proof.
  intros (Hbs & Hblank & Hall) Hsvc mine Htot Hns Hlast.
  split; [exact Hbs|]. split.
  - simpl. rewrite lookup_insert_ne by exact Hsvc. exact Hblank.
  - intros svc Hne. simpl. rewrite filter_app, filter_cons, filter_nil.
    destruct (decide (serviceOf o = svc)) as [<-|Hother].
    + rewrite lookup_insert_eq. fold mine.
      unfold accounted. destruct (mine ++ [o]) as [|first rest] eqn:E.
      * destruct mine; discriminate E.
      * exists sm. split; [reflexivity|]. split; [|split; [|exact Htot]].
        -- rewrite Hns. destruct mine; injection E as <- _; reflexivity.
        -- rewrite <- E, last_snoc. simpl. rewrite Hlast. reflexivity.
    + rewrite lookup_insert_ne by exact Hother. rewrite app_nil_r.
      apply Hall. exact Hne.
Qed.

Lemma ObserveConnection_accounted bs (a : Aggregator F) os now ev :
  accountedAll bs a os →
  ∃ a', ObserveConnection now a ev = Some a' ∧
        accountedAll bs a' (os ++ [ConnectionObserved now ev]).
Proof.
  intros Hacc. set (o := ConnectionObserved now ev).
  unfold ObserveConnection. cbv zeta.
  change (if String.eqb (model.Endpoint.Service (model.ConnectionEvent.Source ev)) ""
          then model.Endpoint.Service (model.ConnectionEvent.Destination ev)
          else model.Endpoint.Service (model.ConnectionEvent.Source ev))
    with (serviceOf o).
  destruct (String.eqb_spec (serviceOf o) "") as [Hblank|Hsvc].
  - exists a. split; [reflexivity|].
    destruct Hacc as (Hbs & Hb & Hall). split; [exact Hbs|]. split; [exact Hb|].
    intros svc Hne. rewrite filter_app, filter_cons, filter_nil.
    destruct (decide (serviceOf o = svc)) as [Heq|_]; [congruence|].
    rewrite app_nil_r. apply Hall. exact Hne.
  - change (model.Endpoint.Namespace (model.ConnectionEvent.Source ev))
      with (namespaceOf o).
    destruct (getOrCreate_accounted bs a os (serviceOf o) (namespaceOf o) Hacc Hsvc)
      as [Htot Hns].
    set (sm0 := getOrCreate a (serviceOf o) (namespaceOf o)) in *.
    set (mine := filter (λ o', serviceOf o' = serviceOf o) os) in *.
    destruct Htot as (Hcall & Herr & Hsent & Hrecv & Hhist & Hsum).
    match goal with
    | |- context [observeLatency _ ?r _] => set (sm1 := r)
    end.
    assert (Hbs : buckets a = bs) by apply Hacc. rewrite Hbs.
    assert (Hcall1 : callCount sm1 = uint64 (Z.of_nat (length (mine ++ [o])))).
    { simpl. rewrite Hcall, length_app. apply uint64_succ'. }
    assert (Herr1 : errorCount sm1
              = uint64 (Z.of_nat (length (filter (λ o, isError o = true) (mine ++ [o]))))).
    { simpl. rewrite Herr, filter_app, filter_cons, filter_nil.
      destruct (decide _) as [Hd|_]; [discriminate Hd|]. rewrite app_nil_r. reflexivity. }
    assert (Hsent1 : bytesSent sm1 = uint64 (sumZ (sentOf <$> mine ++ [o]))).
    { simpl. rewrite Hsent, sumZ_fmap_snoc. apply uint64_add. }
    assert (Hrecv1 : bytesRecv sm1 = uint64 (sumZ (recvOf <$> mine ++ [o]))).
    { simpl. rewrite Hrecv, sumZ_fmap_snoc. apply uint64_add. }
    assert (Hlat : omap latencyOf (mine ++ [o])
                   = omap latencyOf mine ++ option_list (latencyOf o)).
    { rewrite omap_app. simpl. destruct (latencyOf o); reflexivity. }
    assert (Hlo : latencyOf o = if (0 <? model.ConnectionEvent.DurationNs ev)%Z
                                then Some (model.ConnectionEvent.DurationNs ev) else None)
      by reflexivity.
    destruct (0 <? model.ConnectionEvent.DurationNs ev)%Z.
    + destruct (histogramOf_observe bs sm1 _ (model.ConnectionEvent.DurationNs ev) Hhist)
        as (sm' & Hobs & Hhist' & Hsum' & Hn' & Hc' & He' & Hs' & Hr' & Hl').
      rewrite Hobs. eexists. split; [reflexivity|].
      apply (store_accounted bs a os o sm' Hacc Hsvc).
      * unfold totals. fold mine. rewrite Hc', He', Hs', Hr', Hsum', Hlat, Hlo.
        split; [exact Hcall1|]. split; [exact Herr1|]. split; [exact Hsent1|].
        split; [exact Hrecv1|]. split; [exact Hhist'|].
        rewrite fmap_app, foldl_app. simpl. f_equal. exact Hsum.
      * rewrite Hn'. exact Hns.
      * rewrite Hl'. reflexivity.
    + eexists. split; [reflexivity|].
      apply (store_accounted bs a os o sm1 Hacc Hsvc).
      * unfold totals. fold mine. rewrite Hlat, Hlo.
        change (option_list None) with (@nil Z). rewrite app_nil_r.
        split; [exact Hcall1|]. split; [exact Herr1|]. split; [exact Hsent1|].
        split; [exact Hrecv1|]. split; [exact Hhist|exact Hsum].
      * exact Hns.
      * reflexivity.
Qed.

Lemma ObserveHTTPRequest_accounted bs (a : Aggregator F) os now ev :
  accountedAll bs a os →
  ∃ a', ObserveHTTPRequest now a ev = Some a' ∧
        accountedAll bs a' (os ++ [HTTPRequestObserved now ev]).
Proof.
  intros Hacc. set (o := HTTPRequestObserved now ev).
  unfold ObserveHTTPRequest. cbv zeta.
  change (if String.eqb (model.Endpoint.Service (model.HTTPRequestEvent.Destination ev)) ""
          then model.Endpoint.Service (model.HTTPRequestEvent.Source ev)
          else model.Endpoint.Service (model.HTTPRequestEvent.Destination ev))
    with (serviceOf o).
  destruct (String.eqb_spec (serviceOf o) "") as [Hblank|Hsvc].
  - exists a. split; [reflexivity|].
    destruct Hacc as (Hbs & Hb & Hall). split; [exact Hbs|]. split; [exact Hb|].
    intros svc Hne. rewrite filter_app, filter_cons, filter_nil.
    destruct (decide (serviceOf o = svc)) as [Heq|_]; [congruence|].
    rewrite app_nil_r. apply Hall. exact Hne.
  - change (model.Endpoint.Namespace (model.HTTPRequestEvent.Destination ev))
      with (namespaceOf o).
    destruct (getOrCreate_accounted bs a os (serviceOf o) (namespaceOf o) Hacc Hsvc)
      as [Htot Hns].
    set (sm0 := getOrCreate a (serviceOf o) (namespaceOf o)) in *.
    set (mine := filter (λ o', serviceOf o' = serviceOf o) os) in *.
    destruct Htot as (Hcall & Herr & Hsent & Hrecv & Hhist & Hsum).
    match goal with
    | |- context [observeLatency _ ?r _] => set (sm1 := r)
    end.
    assert (Hbs : buckets a = bs) by apply Hacc. rewrite Hbs.
    assert (Hcall1 : callCount sm1 = uint64 (Z.of_nat (length (mine ++ [o])))).
    { simpl. rewrite Hcall, length_app. apply uint64_succ'. }
    assert (Herr1 : errorCount sm1
              = uint64 (Z.of_nat (length (filter (λ o, isError o = true) (mine ++ [o]))))).
    { simpl. rewrite Herr, filter_app, length_app, filter_cons, filter_nil.
      change (isError o) with (500 <=? model.HTTPRequestEvent.StatusCode ev)%Z.
      destruct (500 <=? model.HTTPRequestEvent.StatusCode ev)%Z;
        destruct (decide _) as [Hd|Hd]; try discriminate Hd;
        try (exfalso; apply Hd; reflexivity).
      - apply uint64_succ'.
      - simpl. rewrite Nat.add_0_r. reflexivity. }
    assert (Hsent1 : bytesSent sm1 = uint64 (sumZ (sentOf <$> mine ++ [o]))).
    { simpl. rewrite Hsent, sumZ_fmap_snoc. simpl. rewrite Z.add_0_r.
      reflexivity. }
    assert (Hrecv1 : bytesRecv sm1 = uint64 (sumZ (recvOf <$> mine ++ [o]))).
    { simpl. rewrite Hrecv, sumZ_fmap_snoc. simpl. rewrite Z.add_0_r.
      reflexivity. }
    assert (Hlat : omap latencyOf (mine ++ [o])
                   = omap latencyOf mine ++ option_list (latencyOf o)).
    { rewrite omap_app. simpl. destruct (latencyOf o); reflexivity. }
    assert (Hlo : latencyOf o = if (0 <? model.HTTPRequestEvent.LatencyNs ev)%Z
                                then Some (model.HTTPRequestEvent.LatencyNs ev) else None)
      by reflexivity.
    destruct (0 <? model.HTTPRequestEvent.LatencyNs ev)%Z.
    + destruct (histogramOf_observe bs sm1 _ (model.HTTPRequestEvent.LatencyNs ev) Hhist)
        as (sm' & Hobs & Hhist' & Hsum' & Hn' & Hc' & He' & Hs' & Hr' & Hl').
      rewrite Hobs. eexists. split; [reflexivity|].
      apply (store_accounted bs a os o sm' Hacc Hsvc).
      * unfold totals. fold mine. rewrite Hc', He', Hs', Hr', Hsum', Hlat, Hlo.
        split; [exact Hcall1|]. split; [exact Herr1|]. split; [exact Hsent1|].
        split; [exact Hrecv1|]. split; [exact Hhist'|].
        rewrite fmap_app, foldl_app. simpl. f_equal. exact Hsum.
      * rewrite Hn'. exact Hns.
      * rewrite Hl'. reflexivity.
    + eexists. split; [reflexivity|].
      apply (store_accounted bs a os o sm1 Hacc Hsvc).
      * unfold totals. fold mine. rewrite Hlat, Hlo.
        change (option_list None) with (@nil Z). rewrite app_nil_r.
        split; [exact Hcall1|]. split; [exact Herr1|]. split; [exact Hsent1|].
        split; [exact Hrecv1|]. split; [exact Hhist|exact Hsum].
      * exact Hns.
      * reflexivity.
Qed.

Lemma observeEach_accounted bs os : ∀ (a : Aggregator F) seen,
  accountedAll bs a seen →
  ∃ a', observeEach a os = Some a' ∧ accountedAll bs a' (seen ++ os).
Proof.
  induction os as [|o os IH]; intros a seen Hacc; simpl.
  - exists a. rewrite app_nil_r. auto.
  - assert (Hstep : ∃ a1, observe a o = Some a1 ∧ accountedAll bs a1 (seen ++ [o])).
    { destruct o as [now ev|now ev]; simpl.
      - apply ObserveConnection_accounted; exact Hacc.
      - apply ObserveHTTPRequest_accounted; exact Hacc. }
    destruct Hstep as (a1 & -> & Hacc1).
    destruct (IH a1 _ Hacc1) as (a' & Ha' & Hacc').
    exists a'. split; [exact Ha'|]. rewrite <- app_assoc in Hacc'. exact Hacc'.
Qed.

End AggregatorTotals.

(** The aggregator after any sequence of observation calls, on any bucket
    boundaries and in either float64 reading.  No call panics.  No entry is
    made under the empty service name: an event with neither service known
    is ignored.  A service has an entry exactly when a call was accounted to
    it, and then the entry holds the totals of these calls: their number,
    the number of requests among them with a status of 500 or more, the sums
    of the bytes sent and received (all as uint64), in each bucket the
    number of their latency samples that fall in it, and the float64 sum of
    the samples taken in order; its namespace is that of the first of the
    calls, which later calls do not change, and its clock that of the last. *)
Theorem observations_are_accounted_per_service {F : Type} `{f64.Float64 F}
    (bs : list F) (os : list metrics.Observation) :
  ∃ a, metrics.observeEach {| metrics.buckets := bs; metrics.services := ∅ |} os = Some a ∧
       metrics.buckets a = bs ∧
       metrics.services a !! "" = None ∧
       ∀ svc, svc ≠ "" →
         metrics.accounted bs (metrics.services a !! svc)
           (filter (λ o, metrics.serviceOf o = svc) os).
Proof.
  destruct (observeEach_accounted bs os {| metrics.buckets := bs; metrics.services := ∅ |} [])
    as (a & Ha & Hacc).
  - split; [reflexivity|]. split; [apply lookup_empty|].
    intros svc _. simpl. apply lookup_empty.
  - exists a. split; [exact Ha|]. exact Hacc.
Qed.

(** ** What a flush writes *)

Section FlushPoints.

Import f64 metrics.

Context {F : Type} `{Float64 F}.







End FlushPoints.



(** ** A stream that breaks, and the counts of a stream *)

Section IngestionStreams.

Import ingestion.

Context {F : Type} `{f64.Float64 F} {W : Type} `{EventWriter W}.

Lemma streamLoop_recv_error clock batches err tail :
  ∀ k (s : IngestionServer F W) total,
  metrics.wellFormed (aggregator s) →
  ∃ s1 total',
    streamLoop clock k s total (RecvBatch <$> batches)
    = Some (log s1 InfoLevel "stream finished",
            SendAndClose {| StreamResponse.Accepted := total';
                            StreamResponse.Error := "" |}) ∧
    streamLoop clock k s total ((RecvBatch <$> batches) ++ RecvError err :: tail)
    = Some (log s1 ErrorLevel "failed to receive batch", ReturnError err).
Proof.
  induction batches as [|batch batches IH]; intros k s total Hwf; simpl.
  - exists s, total. auto.
  - destruct (processBatch_cases (clock k) s batch Hwf)
      as (s1 & accepted & e & Hp & Hwf1 & _).
    rewrite Hp. simpl. apply IH. rewrite logBatch_aggregator. exact Hwf1.
Qed.

Lemma log_accepted (s : IngestionServer F W) l m : accepted (log s l m) = accepted s.
Proof. reflexivity. Qed.

Lemma logBatch_accepted (s : IngestionServer F W) e :
  accepted (logBatch s e) = accepted s.
Proof. destruct e; reflexivity. Qed.

Lemma logBatch_writer (s : IngestionServer F W) e : writer (logBatch s e) = writer s.
Proof. destruct e; reflexivity. Qed.

(** One batch, against [batchCount]. *)
Lemma processBatch_batchCount clock (s : IngestionServer F W) batch :
  metrics.wellFormed (aggregator s) →
  ∃ s1,
    processBatch clock s batch
    = Some (s1, (ingestion.batchCount (writer s) batch).2.1,
            (ingestion.batchCount (writer s) batch).2.2) ∧
    metrics.wellFormed (aggregator s1) ∧
    writer s1 = (ingestion.batchCount (writer s) batch).1 ∧
    accepted s1 = match (ingestion.batchCount (writer s) batch).2.2 with
                  | Some _ => accepted s
                  | None => uint64 (accepted s
                                    + (ingestion.batchCount (writer s) batch).2.1)
                  end.
Proof.
  intros Hwf.
  destruct (processBatch_cases clock s batch Hwf) as (s1 & n & e & Hp & Hwf1 & Hcases).
  assert (Hlc : length (decodeConnections batch) = length (EventBatch.Connections batch))
    by apply length_fmap.
  assert (Hlr : length (decodeRequests batch) = length (EventBatch.HTTPRequests batch))
    by apply length_fmap.
  rewrite Hlc, Hlr in Hcases.
  exists s1. rewrite Hp. unfold ingestion.batchCount.
  destruct (writeIfAny WriteConnectionEvents (writer s) (decodeConnections batch))
    as [w1 [e1|]].
  - injection Hcases as -> -> ->. simpl. auto.
  - destruct Hcases as (a1 & _ & Hcases).
    destruct (writeIfAny WriteHTTPRequestEvents w1 (decodeRequests batch))
      as [w2 [e2|]].
    + injection Hcases as -> -> ->. simpl. auto.
    + destruct Hcases as (a2 & _ & Hcases). injection Hcases as -> -> ->.
      simpl. auto.
Qed.

Lemma batchCount_cases (w : W) batch :
  match (ingestion.batchCount w batch).2.2 with
  | Some _ =>
      (ingestion.batchCount w batch).2.1 = 0%Z ∨
      (ingestion.batchCount w batch).2.1
      = uint64 (Z.of_nat (length (EventBatch.Connections batch)))
  | None =>
      (ingestion.batchCount w batch).2.1
      = uint64 (Z.of_nat (length (EventBatch.Connections batch))
                + Z.of_nat (length (EventBatch.HTTPRequests batch)))
  end.
Proof.
  unfold ingestion.batchCount.
  destruct (writeIfAny WriteConnectionEvents w (decodeConnections batch)) as [w1 [e1|]];
    [simpl; auto|].
  destruct (writeIfAny WriteHTTPRequestEvents w1 (decodeRequests batch)) as [w2 [e2|]];
    simpl; auto.
Qed.

Lemma batchCount_no_failure (w : W) batch :
  (∀ w evs, (WriteConnectionEvents w evs).2 = None) →
  (∀ w evs, (WriteHTTPRequestEvents w evs).2 = None) →
  (ingestion.batchCount w batch).2
  = (uint64 (Z.of_nat (length (EventBatch.Connections batch))
             + Z.of_nat (length (EventBatch.HTTPRequests batch))), None).
Proof.
  intros Hc Hr. unfold ingestion.batchCount, writeIfAny.
  destruct (0 <? length (decodeConnections batch))%nat.
  - specialize (Hc w (decodeConnections batch)).
    destruct (WriteConnectionEvents w (decodeConnections batch)) as [w1 e1].
    simpl in Hc. subst e1.
    destruct (0 <? length (decodeRequests batch))%nat; [|reflexivity].
    specialize (Hr w1 (decodeRequests batch)).
    destruct (WriteHTTPRequestEvents w1 (decodeRequests batch)) as [w2 e2].
    simpl in Hr. subst e2. reflexivity.
  - destruct (0 <? length (decodeRequests batch))%nat; [|reflexivity].
    specialize (Hr w (decodeRequests batch)).
    destruct (WriteHTTPRequestEvents w (decodeRequests batch)) as [w2 e2].
    simpl in Hr. subst e2. reflexivity.
Qed.

Lemma streamLoop_counts clock batches :
  ∀ k (s : IngestionServer F W) total,
  metrics.wellFormed (aggregator s) →
  ∃ s',
    streamLoop clock k s total (RecvBatch <$> batches)
    = Some (s', SendAndClose
                  {| StreamResponse.Accepted :=
                       foldl (λ t r, uint64 (t + r.1)) total
                         (ingestion.streamCounts (writer s) batches);
                     StreamResponse.Error := "" |}) ∧
    accepted s'
    = foldl (λ t r, uint64 (t + r.1)) (accepted s)
        (filter (λ r, r.2 = None) (ingestion.streamCounts (writer s) batches)).
Proof.
  induction batches as [|batch batches IH]; intros k s total Hwf; simpl.
  - exists (log s InfoLevel "stream finished"). simpl. auto.
  - destruct (processBatch_batchCount (clock k) s batch Hwf)
      as (s1 & Hp & Hwf1 & Hw1 & Hacc).
    rewrite Hp. simpl.
    destruct (ingestion.batchCount (writer s) batch) as [w' [n e]] eqn:Hbc.
    simpl in Hw1, Hacc |- *.
    destruct (IH (S k) (logBatch s1 e) (uint64 (total + n)))
      as (s' & Hrun & Hcount).
    { rewrite logBatch_aggregator. exact Hwf1. }
    rewrite logBatch_writer, Hw1 in Hrun, Hcount.
    exists s'. split; [exact Hrun|].
    rewrite Hcount, logBatch_accepted, Hacc, filter_cons. simpl.
    destruct e as [e|]; destruct (decide _) as [Hd|Hd]; try discriminate Hd;
      try (exfalso; apply Hd; reflexivity); reflexivity.
Qed.

Lemma streamCounts_cases (batches : list EventBatch.t) : ∀ w : W,
  Forall2 (λ batch r,
             match r.2 with
             | Some _ =>
                 r.1 = 0%Z ∨
                 r.1 = uint64 (Z.of_nat (length (EventBatch.Connections batch)))
             | None =>
                 r.1 = uint64 (Z.of_nat (length (EventBatch.Connections batch))
                               + Z.of_nat (length (EventBatch.HTTPRequests batch)))
             end)
    batches (ingestion.streamCounts w batches).
Proof.
  induction batches as [|batch batches IH]; intros w; simpl; [constructor|].
  pose proof (batchCount_cases w batch) as Hc.
  destruct (ingestion.batchCount w batch) as [w' r]. simpl in Hc.
  constructor; [exact Hc|apply IH].
Qed.

Lemma streamCounts_no_failure (batches : list EventBatch.t) : ∀ w : W,
  (∀ w evs, (WriteConnectionEvents w evs).2 = None) →
  (∀ w evs, (WriteHTTPRequestEvents w evs).2 = None) →
  ingestion.streamCounts w batches
  = (λ batch, (uint64 (Z.of_nat (length (EventBatch.Connections batch))
                       + Z.of_nat (length (EventBatch.HTTPRequests batch))),
               None)) <$> batches.
Proof.
  induction batches as [|batch batches IH]; intros w Hc Hr; simpl; [reflexivity|].
  pose proof (batchCount_no_failure w batch Hc Hr) as Hb.
  destruct (ingestion.batchCount w batch) as [w' r]. simpl in Hb. subst r.
  rewrite (IH w' Hc Hr). reflexivity.
Qed.

Lemma foldl_uint64_sum (rs : list (Z * option string)) : ∀ t,
  foldl (λ t r, uint64 (t + r.1)) (uint64 t) rs = uint64 (t + metrics.sumZ (fst <$> rs)).
Proof.
  induction rs as [|r rs IH]; intros t; simpl.
  - rewrite Z.add_0_r. reflexivity.
  - rewrite uint64_add, IH. f_equal. unfold metrics.sumZ. simpl.
    rewrite <- Z.add_assoc. reflexivity.
Qed.

End IngestionStreams.

(** A stream that breaks.  When [Recv] answers an error other than the end
    of the stream, [StreamEvents] returns that error and sends no response,
    and reads nothing more.  The batches received before the error have
    been processed as on a stream that ends there: the server (its store,
    its aggregator, its counter of accepted events) is in the same state,
    up to the last line of the log, though the agent is never told the
    count. *)
Theorem StreamEvents_recv_error_keeps_earlier_batches
    {F : Type} `{f64.Float64 F} {W : Type} `{ingestion.EventWriter W}
    (clock : nat → nat → Z) (s : ingestion.IngestionServer F W)
    (batches : list ingestion.EventBatch.t) (err : string)
    (tail : list ingestion.Recv) :
  metrics.wellFormed (ingestion.aggregator s) →
  ∃ s1 total,
    ingestion.StreamEvents clock s (ingestion.RecvBatch <$> batches)
    = Some (ingestion.log s1 InfoLevel "stream finished",
            ingestion.SendAndClose
              {| ingestion.StreamResponse.Accepted := total;
                 ingestion.StreamResponse.Error := "" |}) ∧
    ingestion.StreamEvents clock s
      ((ingestion.RecvBatch <$> batches) ++ ingestion.RecvError err :: tail)
    = Some (ingestion.log s1 ErrorLevel "failed to receive batch",
            ingestion.ReturnError err).
Proof.
  intros Hwf. apply streamLoop_recv_error. exact Hwf.
Qed.

(** A batch with a request is received, then the connection is reset:
    the stream returns the error. *)
Lemma StreamEvents_recv_error_keeps_earlier_batches_witness :
  ∃ s1 total,
    ingestion.StreamEvents (λ _ _, 0%Z) scenario.serverOnDownStore
      (ingestion.RecvBatch <$> [scenario.requestBatch])
    = Some (ingestion.log s1 InfoLevel "stream finished",
            ingestion.SendAndClose
              {| ingestion.StreamResponse.Accepted := total;
                 ingestion.StreamResponse.Error := "" |}) ∧
    ingestion.StreamEvents (λ _ _, 0%Z) scenario.serverOnDownStore
      ((ingestion.RecvBatch <$> [scenario.requestBatch])
       ++ [ingestion.RecvError "connection reset"])
    = Some (ingestion.log s1 ErrorLevel "failed to receive batch",
            ingestion.ReturnError "connection reset").
Proof.
  apply (StreamEvents_recv_error_keeps_earlier_batches
           (λ _ _, 0%Z) scenario.serverOnDownStore [scenario.requestBatch]
           "connection reset" []).
  apply map_Forall_empty.
Defined.

(** The counts of a stream.  The count that the response carries is the
    sum of the counts of the batches, and the count of a batch is read off
    the answers of the store alone ([ingestion.streamCounts]): nothing when
    the write of its connection events fails, the number of its connection
    events when the write of its request events fails, and the number of
    all its events otherwise.  The counter [TotalAccepted] of the server
    grows by the counts of the batches processed without an error only, so
    the connection events of a batch whose request write failed are in the
    response and not in the counter.  With a store that never fails, both
    grow by the number of all events of the stream (as uint64).  Neither
    depends on the clock or on the aggregator. *)
Theorem StreamEvents_counts_accepted_events
    {F : Type} `{f64.Float64 F} {W : Type} `{ingestion.EventWriter W}
    (clock : nat → nat → Z) (s : ingestion.IngestionServer F W)
    (batches : list ingestion.EventBatch.t) :
  metrics.wellFormed (ingestion.aggregator s) →
  is_uint64 (ingestion.TotalAccepted s) →
  ∃ s',
    ingestion.StreamEvents clock s (ingestion.RecvBatch <$> batches)
    = Some (s', ingestion.SendAndClose
                  {| ingestion.StreamResponse.Accepted :=
                       uint64 (metrics.sumZ
                                 (fst <$> ingestion.streamCounts
                                            (ingestion.writer s) batches));
                     ingestion.StreamResponse.Error := "" |}) ∧
    ingestion.TotalAccepted s'
    = uint64 (ingestion.TotalAccepted s
              + metrics.sumZ
                  (fst <$> filter (λ r, r.2 = None)
                             (ingestion.streamCounts (ingestion.writer s) batches))) ∧
    Forall2 (λ batch r,
               match r.2 with
               | Some _ =>
                   r.1 = 0%Z ∨
                   r.1 = uint64 (Z.of_nat
                                   (length (ingestion.EventBatch.Connections batch)))
               | None =>
                   r.1 = uint64 (Z.of_nat
                                   (length (ingestion.EventBatch.Connections batch))
                                 + Z.of_nat
                                     (length (ingestion.EventBatch.HTTPRequests batch)))
               end)
      batches (ingestion.streamCounts (ingestion.writer s) batches) ∧
    ((∀ w evs, (ingestion.WriteConnectionEvents w evs).2 = None) →
     (∀ w evs, (ingestion.WriteHTTPRequestEvents w evs).2 = None) →
     ingestion.streamCounts (ingestion.writer s) batches
     = (λ batch,
          (uint64 (Z.of_nat (length (ingestion.EventBatch.Connections batch))
                   + Z.of_nat (length (ingestion.EventBatch.HTTPRequests batch))),
           None)) <$> batches).
Proof.
  intros Hwf Hacc.
  destruct (streamLoop_counts clock batches 0 s 0%Z Hwf) as (s' & Hrun & Hcount).
  exists s'. split; [|split; [|split]].
  - unfold ingestion.StreamEvents. rewrite Hrun.
    change 0%Z with (uint64 0) at 1. rewrite foldl_uint64_sum. reflexivity.
  - unfold ingestion.TotalAccepted in *. rewrite Hcount.
    assert (Hs : ingestion.accepted s = uint64 (ingestion.accepted s)).
    { unfold uint64, is_uint64 in *. rewrite Z.mod_small; [reflexivity|exact Hacc]. }
    rewrite Hs at 1. apply foldl_uint64_sum.
  - apply streamCounts_cases.
  - apply streamCounts_no_failure.
Qed.

(** A store whose request index is read-only receives a batch with a
    connection and a request, then a batch with a request.  The connection
    of the first batch is stored and counted in the response; the counter
    of the server stays at 0. *)
Lemma StreamEvents_counts_accepted_events_witness :
  ∃ s',
    ingestion.StreamEvents (λ _ _, 0%Z) scenario.serverOnConnectionStore
      (ingestion.RecvBatch <$> [scenario.mixedBatch; scenario.requestBatch])
    = Some (s', ingestion.SendAndClose
                  {| ingestion.StreamResponse.Accepted := 1;
                     ingestion.StreamResponse.Error := "" |}) ∧
    ingestion.TotalAccepted s' = 0%Z ∧
    scenario.kept (ingestion.writer s')
    = ingestion.decodeConnections scenario.mixedBatch.
Proof.
  destruct (StreamEvents_counts_accepted_events
              (λ _ _, 0%Z) scenario.serverOnConnectionStore
              [scenario.mixedBatch; scenario.requestBatch])
    as (s' & Hrun & Hcount & _ & _).
  - apply map_Forall_empty.
  - unfold is_uint64. simpl. lia.
  - exists s'. split; [exact Hrun|]. split; [exact Hcount|].
    assert (Hw : option_map (λ r, scenario.kept (ingestion.writer r.1))
                   (ingestion.StreamEvents (λ _ _, 0%Z) scenario.serverOnConnectionStore
                      (ingestion.RecvBatch <$> [scenario.mixedBatch; scenario.requestBatch]))
                 = Some (ingestion.decodeConnections scenario.mixedBatch))
      by by_vm.
    rewrite Hrun in Hw. simpl in Hw. injection Hw as Hw. exact Hw.
Defined.

(** ** A batch on the wire *)

Section BatchRoundTrip.

Lemma request_round_trip (he : model.HTTPRequestEvent.t) node :
  model.HTTPRequestEvent.wf he →
  ingestion.protoToHTTPRequestEvent
    (ingestion.wireRequest (exporter.httpRequestEventToProto he)) node
  = model.HTTPRequestEvent.withDefaultNode he node.
Proof.
  intros (Hts & Hsrc & Hdst & Hst & _).
  unfold ingestion.protoToHTTPRequestEvent, ingestion.wireRequest,
    exporter.httpRequestEventToProto, model.HTTPRequestEvent.withDefaultNode.
  cbn [ingestion.HTTPRequestEventProto.TimestampNs ingestion.HTTPRequestEventProto.Node
       ingestion.HTTPRequestEventProto.Source ingestion.HTTPRequestEventProto.Destination
       ingestion.HTTPRequestEventProto.Method ingestion.HTTPRequestEventProto.Path
       ingestion.HTTPRequestEventProto.StatusCode
       ingestion.HTTPRequestEventProto.LatencyNs
       ingestion.HTTPRequestEventProto.Protocol
       exporter.HTTPRequestEventProto.TimestampNs exporter.HTTPRequestEventProto.Node
       exporter.HTTPRequestEventProto.Source exporter.HTTPRequestEventProto.Destination
       exporter.HTTPRequestEventProto.Method exporter.HTTPRequestEventProto.Path
       exporter.HTTPRequestEventProto.StatusCode
       exporter.HTTPRequestEventProto.LatencyNs
       exporter.HTTPRequestEventProto.Protocol].
  rewrite !endpoint_round_trip, int64_id, uint16_uint32_id by assumption. reflexivity.
Qed.

Lemma connection_round_trip (ce : model.ConnectionEvent.t) node :
  model.ConnectionEvent.wf ce →
  ingestion.protoToConnectionEvent
    (ingestion.wireConnection (exporter.connectionEventToProto ce)) node
  = model.ConnectionEvent.withDefaultNode ce node.
Proof.
  intros (Hts & Hsrc & Hdst & _).
  unfold ingestion.protoToConnectionEvent, ingestion.wireConnection,
    exporter.connectionEventToProto, model.ConnectionEvent.withDefaultNode.
  cbn [ingestion.ConnectionEventProto.TimestampNs ingestion.ConnectionEventProto.Node
       ingestion.ConnectionEventProto.Source ingestion.ConnectionEventProto.Destination
       ingestion.ConnectionEventProto.BytesSent ingestion.ConnectionEventProto.BytesRecv
       ingestion.ConnectionEventProto.DurationNs
       ingestion.ConnectionEventProto.Retransmits
       ingestion.ConnectionEventProto.Protocol
       exporter.ConnectionEventProto.TimestampNs exporter.ConnectionEventProto.Node
       exporter.ConnectionEventProto.Source exporter.ConnectionEventProto.Destination
       exporter.ConnectionEventProto.BytesSent exporter.ConnectionEventProto.BytesRecv
       exporter.ConnectionEventProto.DurationNs
       exporter.ConnectionEventProto.Retransmits
       exporter.ConnectionEventProto.Protocol].
  rewrite !endpoint_round_trip, int64_id by assumption. reflexivity.
Qed.

(** The loop of [flush] appends each event to the list of its kind. *)
Lemma buildBatch_partition (batch : list exporter.Event) : ∀ pb unknown,
  exporter.buildBatch pb unknown batch
  = ({| exporter.EventBatchProto.Node := exporter.EventBatchProto.Node pb;
        exporter.EventBatchProto.Connections :=
          exporter.EventBatchProto.Connections pb
          ++ (exporter.connectionEventToProto <$> omap exporter.connectionOf batch);
        exporter.EventBatchProto.HttpRequests :=
          exporter.EventBatchProto.HttpRequests pb
          ++ (exporter.httpRequestEventToProto <$> omap exporter.requestOf batch) |},
     (unknown + length (filter (λ evt, exporter.isUnknown evt = true) batch))%nat).
Proof.
  induction batch as [|evt batch IH]; intros pb unknown.
  - simpl. rewrite !app_nil_r, Nat.add_0_r. destruct pb; reflexivity.
  - destruct evt as [v|v|v].
    + simpl. rewrite IH. simpl. rewrite <- app_assoc. reflexivity.
    + simpl. rewrite IH. simpl. rewrite <- app_assoc. reflexivity.
    + change (exporter.buildBatch pb unknown (exporter.Unknown v :: batch))
        with (exporter.buildBatch pb (S unknown) batch).
      rewrite IH, filter_cons. simpl. f_equal. lia.
Qed.

End BatchRoundTrip.

(** A batch of the queue, however its events are mixed, through the loop of
    [flush], the wire and the decoding of the ingestion server: the server
    gets the connection events of the batch, in their order, and its request
    events, in their order, each equal to the event queued in every field
    but a blank node, which becomes the exporter's node; a value of another
    type is in neither list, and is counted for a warning.  The events are
    values of their Go types. *)
Theorem batch_round_trip (batch : list exporter.Event) (node : string) :
  Forall exporter.eventWf batch →
  let built := exporter.buildBatch (exporter.emptyBatch node) 0 batch in
  ingestion.decodeConnections (ingestion.wire built.1)
  = (λ ce, model.ConnectionEvent.withDefaultNode ce node)
    <$> omap exporter.connectionOf batch ∧
  ingestion.decodeRequests (ingestion.wire built.1)
  = (λ he, model.HTTPRequestEvent.withDefaultNode he node)
    <$> omap exporter.requestOf batch ∧
  built.2 = length (filter (λ evt, exporter.isUnknown evt = true) batch) ∧
  (length (ingestion.decodeConnections (ingestion.wire built.1))
   + length (ingestion.decodeRequests (ingestion.wire built.1)) + built.2
   = length batch)%nat.
Proof.
  intros Hall built. subst built. rewrite buildBatch_partition.
  unfold ingestion.decodeConnections, ingestion.decodeRequests, ingestion.wire.
  cbn [fst snd exporter.emptyBatch exporter.EventBatchProto.Node
       exporter.EventBatchProto.Connections exporter.EventBatchProto.HttpRequests
       ingestion.EventBatch.Node ingestion.EventBatch.Connections
       ingestion.EventBatch.HTTPRequests app].
  rewrite <- !list_fmap_compose.
  assert (Hc : (λ c, ingestion.protoToConnectionEvent c node)
                 ∘ ingestion.wireConnection ∘ exporter.connectionEventToProto
               <$> omap exporter.connectionOf batch
               = (λ ce, model.ConnectionEvent.withDefaultNode ce node)
                 <$> omap exporter.connectionOf batch).
  { apply Forall_fmap_ext_1. apply Forall_forall. intros ce Hce.
    apply list_elem_of_omap in Hce. destruct Hce as (evt & Hevt & Hof).
    destruct evt; try discriminate. injection Hof as ->.
    rewrite Forall_forall in Hall. apply connection_round_trip.
    exact (Hall _ Hevt). }
  assert (Hr : (λ r, ingestion.protoToHTTPRequestEvent r node)
                 ∘ ingestion.wireRequest ∘ exporter.httpRequestEventToProto
               <$> omap exporter.requestOf batch
               = (λ he, model.HTTPRequestEvent.withDefaultNode he node)
                 <$> omap exporter.requestOf batch).
  { apply Forall_fmap_ext_1. apply Forall_forall. intros he Hhe.
    apply list_elem_of_omap in Hhe. destruct Hhe as (evt & Hevt & Hof).
    destruct evt; try discriminate. injection Hof as ->.
    rewrite Forall_forall in Hall. apply request_round_trip.
    exact (Hall _ Hevt). }
  split; [exact Hc|]. split; [exact Hr|]. split; [reflexivity|].
  rewrite Hc, Hr, !length_fmap. clear.
  induction batch as [|evt batch IH]; [reflexivity|].
  rewrite filter_cons.
  unfold omap in *. destruct evt; simpl in *; lia.
Qed.

(** A connection event, a value of another type and a request event in
    one batch from node-1: the server decodes the request event, with the
    node of the envelope, and one value is counted as unknown. *)
Lemma batch_round_trip_witness :
  ingestion.decodeRequests
    (ingestion.wire
       (exporter.buildBatch (exporter.emptyBatch "node-1") 0
          [scenario.eventAt 1; exporter.Unknown "tick";
           exporter.HTTPRequestEvent scenario.webRequest]).1)
  = [model.HTTPRequestEvent.withDefaultNode scenario.webRequest "node-1"] ∧
  (exporter.buildBatch (exporter.emptyBatch "node-1") 0
     [scenario.eventAt 1; exporter.Unknown "tick";
      exporter.HTTPRequestEvent scenario.webRequest]).2 = 1%nat.
Proof.
  destruct (batch_round_trip
              [scenario.eventAt 1; exporter.Unknown "tick";
               exporter.HTTPRequestEvent scenario.webRequest] "node-1")
    as (_ & Hr & Hu & _).
  - assert (Hwf : model.ConnectionEvent.wf (scenario.connectionAt 1) ∧
                  model.HTTPRequestEvent.wf scenario.webRequest).
    { unfold model.ConnectionEvent.wf, model.HTTPRequestEvent.wf,
        model.Endpoint.wf, is_int64, is_uint16, is_uint32, is_uint64.
      repeat match goal with |- _ ∧ _ => split end;
        first [apply Z.leb_le|apply Z.ltb_lt]; vm_compute; reflexivity. }
    constructor; [exact (proj1 Hwf)|].
    constructor; [exact I|].
    constructor; [exact (proj2 Hwf)|constructor].
  - split; [exact Hr|exact Hu].
Defined.

(** ** A flush on a connection without a stream *)

Section ExporterFlushPaths.

Import exporter.

Lemma EnqueueAll_batchSize evts : ∀ e e',
  EnqueueAll e evts = Some e' → batchSize e' = batchSize e.
Proof.
  induction evts as [|evt evts IH]; intros e e' He; simpl in He.
  - inversion He; auto.
  - destruct (Enqueue e evt) as [e1|] eqn:H1; [|discriminate].
    apply IH in He. rewrite He.
    unfold Enqueue in H1.
    destruct (queueLimit e <=? length (queue e))%nat;
      [destruct (queue e); [discriminate|]|]; inversion H1; auto.
Qed.

(** The queue that [flush] leaves behind the batch it takes, once the
    events that come in meanwhile are enqueued. *)
Lemma flush_rest e meanwhile :
  (0 < queueLimit e)%nat → (length (queue e) ≤ queueLimit e)%nat →
  ∃ e1, EnqueueAll (with_queue e (drop (batchSize e) (queue e))) meanwhile = Some e1 ∧
    queueLimit e1 = queueLimit e ∧ stream e1 = stream e ∧
    nodeName e1 = nodeName e ∧ batchSize e1 = batchSize e ∧
    queue e1 = drop (length (drop (batchSize e) (queue e) ++ meanwhile) - queueLimit e)
                 (drop (batchSize e) (queue e) ++ meanwhile).
Proof.
  intros HB Hlen.
  destruct (EnqueueAll_spec meanwhile (with_queue e (drop (batchSize e) (queue e))))
    as (e1 & He1 & HB1 & Hq1 & _); [exact HB|simpl; rewrite length_drop; lia|].
  destruct (EnqueueAll_fields _ _ _ He1) as (Hs1 & Hn1 & _).
  pose proof (EnqueueAll_batchSize _ _ _ He1) as Hb1.
  exists e1. simpl in *. auto 10.
Qed.

End ExporterFlushPaths.

(** After a successful [connect] the exporter has no stream, and a flush
    of a queue that is not empty takes its batch from the head of the queue,
    sends nothing and returns no error: the queue is left with the events
    behind the batch and those enqueued meanwhile (cut to the bound), and the
    last line of the log is the debug line of the missing stream.  The events
    of the batch are in no queue and on no stream. *)
Theorem flush_without_stream_discards_batch
    (e : exporter.Exporter) (meanwhile : list exporter.Event) :
  exporter.queue e ≠ [] →
  (0 < exporter.queueLimit e)%nat →
  (length (exporter.queue e) ≤ exporter.queueLimit e)%nat →
  let connected := (exporter.connect e None).1 in
  let rest := drop (exporter.batchSize e) (exporter.queue e) ++ meanwhile in
  exporter.stream connected = None ∧
  ∃ e', exporter.flush connected meanwhile = Some (e', None) ∧
    exporter.queue e' = drop (length rest - exporter.queueLimit e) rest ∧
    last (exporter.logger e')
    = Some {| level := DebugLevel;
              msg := "no active gRPC stream, batch buffered locally" |}.
Proof.
  intros Hne HB Hlen connected rest. split; [reflexivity|].
  destruct (flush_rest connected meanwhile HB Hlen)
    as (e1 & He1 & _ & Hs1 & _ & _ & Hq1).
  destruct (flush_batch connected) as [Htake Hdrop].
  unfold exporter.flush.
  destruct (length (exporter.queue connected) =? 0)%nat eqn:Hz.
  { apply Nat.eqb_eq in Hz. simpl in Hz. destruct (exporter.queue e); [congruence|discriminate]. }
  cbv zeta. rewrite Htake, Hdrop, He1.
  destruct (exporter.buildBatch _ 0 _) as [pb unknown].
  rewrite logN_stream, Hs1. simpl.
  eexists. split; [reflexivity|]. split; [|apply last_snoc].
  simpl. rewrite logN_queue. exact Hq1.
Qed.

(** A default exporter with events 1 to 150 in its queue connects and
    flushes: events 1 to 100 are gone, events 101 to 150 remain. *)
Lemma flush_without_stream_discards_batch_witness :
  ∃ e', exporter.flush
          (exporter.connect
             (exporter.with_queue (exporter.NewExporter "nefi-server:9090" "node-1")
                (scenario.events 1 150)) None).1 []
        = Some (e', None) ∧
    exporter.queue e' = scenario.events 101 50.
Proof.
  destruct (flush_without_stream_discards_batch
              (exporter.with_queue (exporter.NewExporter "nefi-server:9090" "node-1")
                 (scenario.events 1 150)) [])
    as (_ & e' & He' & Hq & _).
  - discriminate.
  - apply Nat.ltb_lt. by_vm.
  - apply Nat.leb_le. by_vm.
  - exists e'. split; [exact He'|]. rewrite Hq. by_vm.
Defined.

(** Whatever path a flush takes, it does not panic, it leaves at most
    [queueLimit] events in the queue, and it returns an error only when a
    send on the stream failed, that error wrapped.  The queue is within its
    bound before, as [Enqueue] and [flush] leave it, and the bound is
    positive. *)
Theorem flush_keeps_queue_bounded
    (e : exporter.Exporter) (meanwhile : list exporter.Event) :
  (0 < exporter.queueLimit e)%nat →
  (length (exporter.queue e) ≤ exporter.queueLimit e)%nat →
  ∃ e' err, exporter.flush e meanwhile = Some (e', err) ∧
    exporter.queueLimit e' = exporter.queueLimit e ∧
    (length (exporter.queue e') ≤ exporter.queueLimit e)%nat ∧
    (err = None ∨
     ∃ s cause, exporter.stream e = Some s ∧
       exporter.Send s
         (exporter.buildBatch (exporter.emptyBatch (exporter.nodeName e)) 0
            (take (exporter.batchSize e) (exporter.queue e))).1 = Some cause ∧
       err = Some ("stream send: " +:+ cause)).
Proof.
  intros HB Hlen. unfold exporter.flush.
  destruct (length (exporter.queue e) =? 0)%nat.
  { exists e, None. auto. }
  destruct (flush_rest e meanwhile HB Hlen)
    as (e1 & He1 & HB1 & Hs1 & Hn1 & _ & Hq1).
  destruct (flush_batch e) as [Htake Hdrop].
  cbv zeta. rewrite Htake, Hdrop, He1, Hn1.
  assert (Hlen1 : (length (exporter.queue e1) ≤ exporter.queueLimit e)%nat).
  { rewrite Hq1, length_drop. lia. }
  destruct (exporter.buildBatch _ 0 _) as [pb unknown] eqn:Hpb.
  rewrite logN_stream, Hs1.
  destruct (exporter.stream e) as [s|].
  - simpl. destruct (exporter.Send s pb) as [cause|] eqn:Hsend.
    + eexists _, _. split; [reflexivity|].
      unfold exporter.requeue. simpl. rewrite logN_queue, logN_queueLimit, HB1.
      split; [reflexivity|]. split.
      * destruct (Nat.ltb_spec (exporter.queueLimit e)
                    (length (take (exporter.batchSize e) (exporter.queue e)
                             ++ exporter.queue e1))).
        -- rewrite length_drop. lia.
        -- assumption.
      * right. exists s, cause. auto.
    + eexists _, _. split; [reflexivity|]. simpl.
      rewrite logN_queue, logN_queueLimit. auto.
  - eexists _, _. split; [reflexivity|]. simpl.
    rewrite logN_queue, logN_queueLimit. auto.
Qed.

(** The full exporter of the sample run, whose stream is broken: the flush
    returns the send error and the queue holds 10000 events. *)
Lemma flush_keeps_queue_bounded_witness :
  ∃ e' err, exporter.flush scenario.fullExporter [scenario.eventAt 10001]
            = Some (e', err) ∧
    (length (exporter.queue e') ≤ 10000)%nat.
Proof.
  destruct (flush_keeps_queue_bounded scenario.fullExporter [scenario.eventAt 10001])
    as (e' & err & He' & _ & Hlen & _).
  - apply Nat.ltb_lt. by_vm.
  - apply Nat.leb_le. by_vm.
  - exists e', err. split; [exact He'|exact Hlen].
Defined.

(** ** The backoff between reconnections *)

Section Backoff.

Import exporter.

Lemma nextBackoff_max : nextBackoff maxReconnectBackoff = maxReconnectBackoff.
Proof. by_vm. Qed.

Lemma nextBackoff_capped : ∀ k,
  Nat.iter (6 + k) nextBackoff initialReconnectBackoff = maxReconnectBackoff.
Proof.
  induction k as [|k IH].
  - by_vm.
  - rewrite Nat.add_succ_r, Nat.iter_succ, IH. apply nextBackoff_max.
Qed.

Lemma nextBackoff_iter (k : nat) :
  Nat.iter k nextBackoff initialReconnectBackoff
  = Z.min (initialReconnectBackoff * 2 ^ Z.of_nat k) maxReconnectBackoff.
Proof.
  destruct (Nat.lt_ge_cases k 6) as [Hk|Hk].
  - do 6 (destruct k as [|k]; [by_vm|]). lia.
  - replace k with (6 + (k - 6))%nat by lia. rewrite nextBackoff_capped.
    symmetry. apply Z.min_r.
    replace (Z.of_nat (6 + (k - 6))) with (6 + Z.of_nat (k - 6))%Z by lia.
    rewrite Z.pow_add_r by lia.
    assert (0 < 2 ^ Z.of_nat (k - 6))%Z by (apply Z.pow_pos_nonneg; lia).
    unfold initialReconnectBackoff, maxReconnectBackoff. nia.
Qed.

Lemma retryWaits_failures (k : nat) : ∀ b,
  retryWaits b (replicate k false) = (λ j, Nat.iter j nextBackoff b) <$> seq 0 k.
Proof.
  induction k as [|k IH]; intros b; [reflexivity|].
  cbn [replicate retryWaits seq]. rewrite fmap_cons. f_equal.
  rewrite IH, <- fmap_S_seq, <- list_fmap_compose.
  apply list_fmap_ext. intros i j _. unfold compose. symmetry.
  apply Nat.iter_succ_r.
Qed.

Lemma retryWaits_success (pre rest : list bool) : ∀ b,
  retryWaits b (pre ++ true :: rest)
  = retryWaits b pre ++ retryWaits initialReconnectBackoff rest.
Proof.
  induction pre as [|d pre IH]; intros b; [reflexivity|].
  destruct d; simpl; rewrite IH; reflexivity.
Qed.

End Backoff.

(** The waits of [Start] between reconnection attempts.  After a
    successful connection, and from the start, the wait that follows the
    j-th failed attempt in a row (counting from 0) is 500 ms doubled j
    times, with a ceiling of 30 s: 0.5, 1, 2, 4, 8 and 16 seconds, and 30
    seconds from then on.  The float64 arithmetic of the step is exact
    here. *)
Theorem retryWaits_double_to_cap (b : Z) (pre : list bool) (k : nat) :
  exporter.retryWaits b (pre ++ true :: replicate k false)
  = exporter.retryWaits b pre
    ++ ((λ j, Z.min (exporter.initialReconnectBackoff * 2 ^ Z.of_nat j)
                exporter.maxReconnectBackoff) <$> seq 0 k) ∧
  exporter.retryWaits exporter.initialReconnectBackoff (replicate k false)
  = (λ j, Z.min (exporter.initialReconnectBackoff * 2 ^ Z.of_nat j)
            exporter.maxReconnectBackoff) <$> seq 0 k.
Proof.
  assert (Hk : exporter.retryWaits exporter.initialReconnectBackoff (replicate k false)
               = (λ j, Z.min (exporter.initialReconnectBackoff * 2 ^ Z.of_nat j)
                         exporter.maxReconnectBackoff) <$> seq 0 k).
  { rewrite retryWaits_failures. apply list_fmap_ext.
    intros i j _. apply nextBackoff_iter. }
  split; [|exact Hk]. rewrite retryWaits_success, Hk. reflexivity.
Qed.

(** ** The cache of pods and services *)

Section CacheTables.

Import k8s.

Lemma withService_twice ep svc svc' :
  withService (withService ep svc) svc' = withService ep svc'.
Proof. reflexivity. Qed.

Lemma setService_lookup svc t addr ip :
  endpoints (setService svc t addr) !! ip
  = if decide (ip = addr) then (λ ep, withService ep svc) <$> endpoints t !! ip
    else endpoints t !! ip.
Proof.
  unfold setService. destruct (decide (ip = addr)) as [->|Hne].
  - destruct (endpoints t !! addr) as [ep|] eqn:E; simpl.
    + rewrite lookup_insert_eq. reflexivity.
    + rewrite E. reflexivity.
  - destruct (endpoints t !! addr) as [ep|]; simpl; [|reflexivity].
    rewrite lookup_insert_ne by congruence. reflexivity.
Qed.

Lemma setService_podToServices svc t addr :
  podToServices (setService svc t addr) = podToServices t.
Proof. unfold setService. destruct (endpoints t !! addr); reflexivity. Qed.

Lemma foldl_setService svc addrs : ∀ t,
  podToServices (foldl (setService svc) t addrs) = podToServices t ∧
  ∀ ip, endpoints (foldl (setService svc) t addrs) !! ip
        = if decide (ip ∈ addrs) then (λ ep, withService ep svc) <$> endpoints t !! ip
          else endpoints t !! ip.
Proof.
  induction addrs as [|addr addrs IH]; intros t; simpl.
  - split; [reflexivity|]. intros ip. destruct (decide (ip ∈ [])) as [Hin|_]; [|reflexivity].
    inversion Hin.
  - destruct (IH (setService svc t addr)) as [Hp He]. split.
    + rewrite Hp. apply setService_podToServices.
    + intros ip. rewrite He, setService_lookup.
      destruct (decide (ip ∈ addrs)) as [Hin|Hnin];
        destruct (decide (ip = addr)) as [->|Hne];
        destruct (decide (_ ∈ addr :: addrs)) as [Hin'|Hnin'];
        try reflexivity.
      * destruct (endpoints t !! addr); reflexivity.
      * exfalso. apply Hnin'. left.
      * exfalso. apply Hnin'. right. exact Hin.
      * exfalso. apply Hnin'. left.
      * exfalso. apply elem_of_cons in Hin'. destruct Hin'; congruence.
Qed.

(** One pass of the update loop: the entries of the addresses listed take
    the service, and the pods targeted are mapped to it. *)
Lemma foldl_updateEndpoint ns svc eps : ∀ t,
  (∀ ip, endpoints (foldl (updateEndpoint ns svc) t eps) !! ip
         = if decide (ip ∈ concat (SliceEndpoint.Addresses <$> eps))
           then (λ ep, withService ep svc) <$> endpoints t !! ip
           else endpoints t !! ip) ∧
  (∀ key, podToServices (foldl (updateEndpoint ns svc) t eps) !! key
          = if decide (key ∈ podKey ns <$> omap targetPod eps) then Some svc
            else podToServices t !! key).
Proof.
  induction eps as [|ep eps IH]; intros t.
  - simpl. split.
    + intros ip. destruct (decide (ip ∈ [])) as [Hin|_]; [inversion Hin|reflexivity].
    + intros key. destruct (decide (key ∈ [])) as [Hin|_]; [inversion Hin|reflexivity].
  - change (foldl (updateEndpoint ns svc) t (ep :: eps))
      with (foldl (updateEndpoint ns svc) (updateEndpoint ns svc t ep) eps).
    destruct (IH (updateEndpoint ns svc t ep)) as [He Hp].
    set (t1 := match targetPod ep with
               | Some name =>
                   {| endpoints := endpoints t;
                      podToServices := <[podKey ns name := svc]> (podToServices t) |}
               | None => t
               end).
    assert (Ht1e : endpoints t1 = endpoints t)
      by (unfold t1; destruct (targetPod ep); reflexivity).
    destruct (foldl_setService svc (SliceEndpoint.Addresses ep) t1) as [Hp1 He1].
    fold t1 in Hp1, He1.
    change (updateEndpoint ns svc t ep)
      with (foldl (setService svc) t1 (SliceEndpoint.Addresses ep)) in He, Hp.
    split.
    + intros ip. rewrite He, He1, Ht1e.
      change (concat (SliceEndpoint.Addresses <$> ep :: eps))
        with (SliceEndpoint.Addresses ep ++ concat (SliceEndpoint.Addresses <$> eps)).
      destruct (decide (ip ∈ concat (SliceEndpoint.Addresses <$> eps))) as [Hin|Hnin];
        destruct (decide (ip ∈ SliceEndpoint.Addresses ep)) as [Hin1|Hnin1];
        destruct (decide (ip ∈ _ ++ _)) as [Hin'|Hnin'];
        try reflexivity;
        try (exfalso; apply Hnin'; apply elem_of_app; auto; fail).
      * destruct (endpoints t !! ip); reflexivity.
      * exfalso. apply elem_of_app in Hin'. tauto.
    + intros key. rewrite Hp, Hp1.
      destruct (targetPod ep) as [name|] eqn:Htp.
      * change (omap targetPod (ep :: eps))
          with (match targetPod ep with
                | Some y => y :: omap targetPod eps
                | None => omap targetPod eps
                end).
        rewrite Htp. rewrite fmap_cons. unfold t1. simpl.
        destruct (decide (key ∈ podKey ns <$> omap targetPod eps)) as [Hin|Hnin];
          destruct (decide (key ∈ podKey ns name :: _)) as [Hin'|Hnin'];
          try reflexivity.
        -- exfalso. apply Hnin'. right. exact Hin.
        -- apply elem_of_cons in Hin'. destruct Hin' as [->|Hin']; [|tauto].
           apply lookup_insert_eq.
        -- rewrite lookup_insert_ne; [reflexivity|].
           intros <-. apply Hnin'. left.
      * change (omap targetPod (ep :: eps))
          with (match targetPod ep with
                | Some y => y :: omap targetPod eps
                | None => omap targetPod eps
                end).
        rewrite Htp. reflexivity.
Qed.

(** One pass of the delete loop: the entries of the addresses listed lose
    their service, and the pods targeted leave the map. *)
Lemma foldl_deleteEndpoint ns eps : ∀ t,
  (∀ ip, endpoints (foldl (deleteEndpoint ns) t eps) !! ip
         = if decide (ip ∈ concat (SliceEndpoint.Addresses <$> eps))
           then (λ ep, withService ep "") <$> endpoints t !! ip
           else endpoints t !! ip) ∧
  (∀ key, podToServices (foldl (deleteEndpoint ns) t eps) !! key
          = if decide (key ∈ podKey ns <$> omap targetPod eps) then None
            else podToServices t !! key).
Proof.
  induction eps as [|ep eps IH]; intros t.
  - simpl. split.
    + intros ip. destruct (decide (ip ∈ [])) as [Hin|_]; [inversion Hin|reflexivity].
    + intros key. destruct (decide (key ∈ [])) as [Hin|_]; [inversion Hin|reflexivity].
  - change (foldl (deleteEndpoint ns) t (ep :: eps))
      with (foldl (deleteEndpoint ns) (deleteEndpoint ns t ep) eps).
    destruct (IH (deleteEndpoint ns t ep)) as [He Hp].
    set (t1 := match targetPod ep with
               | Some name =>
                   {| endpoints := endpoints t;
                      podToServices := delete (podKey ns name) (podToServices t) |}
               | None => t
               end).
    assert (Ht1e : endpoints t1 = endpoints t)
      by (unfold t1; destruct (targetPod ep); reflexivity).
    destruct (foldl_setService "" (SliceEndpoint.Addresses ep) t1) as [Hp1 He1].
    fold t1 in Hp1, He1.
    change (deleteEndpoint ns t ep)
      with (foldl (setService "") t1 (SliceEndpoint.Addresses ep)) in He, Hp.
    split.
    + intros ip. rewrite He, He1, Ht1e.
      change (concat (SliceEndpoint.Addresses <$> ep :: eps))
        with (SliceEndpoint.Addresses ep ++ concat (SliceEndpoint.Addresses <$> eps)).
      destruct (decide (ip ∈ concat (SliceEndpoint.Addresses <$> eps))) as [Hin|Hnin];
        destruct (decide (ip ∈ SliceEndpoint.Addresses ep)) as [Hin1|Hnin1];
        destruct (decide (ip ∈ _ ++ _)) as [Hin'|Hnin'];
        try reflexivity;
        try (exfalso; apply Hnin'; apply elem_of_app; auto; fail).
      * destruct (endpoints t !! ip); reflexivity.
      * exfalso. apply elem_of_app in Hin'. tauto.
    + intros key. rewrite Hp, Hp1.
      change (omap targetPod (ep :: eps))
        with (match targetPod ep with
              | Some y => y :: omap targetPod eps
              | None => omap targetPod eps
              end).
      destruct (targetPod ep) as [name|] eqn:Htp; [|reflexivity].
      rewrite fmap_cons. unfold t1. simpl.
      destruct (decide (key ∈ podKey ns <$> omap targetPod eps)) as [Hin|Hnin];
        destruct (decide (key ∈ podKey ns name :: _)) as [Hin'|Hnin'];
        try reflexivity.
      * exfalso. apply Hnin'. right. exact Hin.
      * apply elem_of_cons in Hin'. destruct Hin' as [->|Hin']; [|tauto].
        apply lookup_delete_eq.
      * rewrite lookup_delete_ne; [reflexivity|].
        intros <-. apply Hnin'. left.
Qed.

(** What [onPodAdd] writes for a pod with an address. *)
Lemma onPodAdd_pod c t meanwhile pod :
  PodObject.PodIP pod ≠ "" →
  onPodAdd c t meanwhile (PodObj pod)
  = {| endpoints :=
         <[PodObject.PodIP pod :=
             {| model.Endpoint.IP := PodObject.PodIP pod;
                model.Endpoint.Port := 0;
                model.Endpoint.Pod := Pod.Name (PodObject.Meta pod);
                model.Endpoint.Namespace := Pod.Namespace (PodObject.Meta pod);
                model.Endpoint.Workload := (resolveWorkload c (PodObject.Meta pod)).1;
                model.Endpoint.WorkloadType :=
                  (resolveWorkload c (PodObject.Meta pod)).2;
                model.Endpoint.Service :=
                  lookupServiceForPod t (Pod.Namespace (PodObject.Meta pod))
                    (Pod.Name (PodObject.Meta pod)) |}]> (endpoints (meanwhile t));
       podToServices := podToServices (meanwhile t) |}.
Proof.
  intros Hip. apply String.eqb_neq in Hip. unfold onPodAdd. rewrite Hip.
  destruct (resolveWorkload c (PodObject.Meta pod)). reflexivity.
Qed.

End CacheTables.

(** A pod and the EndpointSlice of its service, handled one after the
    other.  The pod has an address; the slice carries the service label, is
    of the pod's namespace, targets the pod by name and lists its address.
    Whichever of the two events is handled first, [Lookup] of the address
    then answers the same endpoint: the pod, its namespace, the workload
    that [resolveWorkload] gives, and the service of the slice.  After the
    slice the service comes from the pod-to-service map; after the pod it is
    written into the entry found under the address. *)
Theorem pod_and_slice_in_either_order
    (c : k8s.Cache) (t : k8s.Tables) (pod : k8s.PodObject.t)
    (eps : k8s.EndpointSlice.t) (svc : string) :
  k8s.PodObject.PodIP pod ≠ "" →
  k8s.EndpointSlice.Labels eps !! k8s.LabelServiceName = Some svc →
  svc ≠ "" →
  k8s.EndpointSlice.Namespace eps = k8s.Pod.Namespace (k8s.PodObject.Meta pod) →
  k8s.Pod.Name (k8s.PodObject.Meta pod)
    ∈ omap k8s.targetPod (k8s.EndpointSlice.Endpoints eps) →
  k8s.PodObject.PodIP pod
    ∈ concat (k8s.SliceEndpoint.Addresses <$> k8s.EndpointSlice.Endpoints eps) →
  let expected :=
    {| model.Endpoint.IP := k8s.PodObject.PodIP pod;
       model.Endpoint.Port := 0;
       model.Endpoint.Pod := k8s.Pod.Name (k8s.PodObject.Meta pod);
       model.Endpoint.Namespace := k8s.Pod.Namespace (k8s.PodObject.Meta pod);
       model.Endpoint.Workload := (k8s.resolveWorkload c (k8s.PodObject.Meta pod)).1;
       model.Endpoint.WorkloadType :=
         (k8s.resolveWorkload c (k8s.PodObject.Meta pod)).2;
       model.Endpoint.Service := svc |} in
  k8s.Lookup
    (k8s.onPodAdd c (k8s.onEndpointSliceUpdate t (k8s.SliceObj eps)) id
       (k8s.PodObj pod))
    (k8s.PodObject.PodIP pod) = Some expected ∧
  k8s.Lookup
    (k8s.onEndpointSliceUpdate (k8s.onPodAdd c t id (k8s.PodObj pod))
       (k8s.SliceObj eps))
    (k8s.PodObject.PodIP pod) = Some expected.
Proof.
  intros Hip Hlabel Hsvc Hns Htarget Haddr expected.
  apply String.eqb_neq in Hip. apply String.eqb_neq in Hsvc.
  unfold k8s.Lookup, k8s.onEndpointSliceUpdate, k8s.onPodAdd.
  rewrite Hlabel, Hip. simpl default. rewrite Hsvc.
  destruct (k8s.resolveWorkload c (k8s.PodObject.Meta pod)) as [workload workloadType] eqn:Hw.
  split.
  - cbn [k8s.endpoints id]. rewrite lookup_insert_eq. f_equal. unfold expected.
    simpl. f_equal. unfold k8s.lookupServiceForPod.
    destruct (foldl_updateEndpoint (k8s.EndpointSlice.Namespace eps) svc
                (k8s.EndpointSlice.Endpoints eps) t) as [_ Hp].
    rewrite Hp, <- Hns. rewrite decide_True; [reflexivity|].
    apply list_elem_of_fmap. eauto.
  - destruct (foldl_updateEndpoint (k8s.EndpointSlice.Namespace eps) svc
                (k8s.EndpointSlice.Endpoints eps)
                {| k8s.endpoints :=
                     <[k8s.PodObject.PodIP pod :=
                         {| model.Endpoint.IP := k8s.PodObject.PodIP pod;
                            model.Endpoint.Port := 0;
                            model.Endpoint.Pod := k8s.Pod.Name (k8s.PodObject.Meta pod);
                            model.Endpoint.Namespace :=
                              k8s.Pod.Namespace (k8s.PodObject.Meta pod);
                            model.Endpoint.Workload := workload;
                            model.Endpoint.WorkloadType := workloadType;
                            model.Endpoint.Service :=
                              k8s.lookupServiceForPod t
                                (k8s.Pod.Namespace (k8s.PodObject.Meta pod))
                                (k8s.Pod.Name (k8s.PodObject.Meta pod)) |}]>
                       (k8s.endpoints (id t));
                   k8s.podToServices := k8s.podToServices (id t) |}) as [He _].
    rewrite He, decide_True by exact Haddr.
    cbn [k8s.endpoints]. rewrite lookup_insert_eq. reflexivity.
Qed.

(** The pod at 10.0.0.9 and the slice of "api", in both orders. *)
Lemma pod_and_slice_in_either_order_witness :
  model.Endpoint.Service
  <$> k8s.Lookup
        (k8s.onPodAdd scenario.standaloneCache
           (k8s.onEndpointSliceUpdate scenario.noTables
              (k8s.SliceObj scenario.apiSlice)) id
           (k8s.PodObj scenario.apiPod)) "10.0.0.9" = Some "api" ∧
  model.Endpoint.Service
  <$> k8s.Lookup
        (k8s.onEndpointSliceUpdate
           (k8s.onPodAdd scenario.standaloneCache scenario.noTables id
              (k8s.PodObj scenario.apiPod))
           (k8s.SliceObj scenario.apiSlice)) "10.0.0.9" = Some "api".
Proof.
  destruct (pod_and_slice_in_either_order scenario.standaloneCache scenario.noTables
              scenario.apiPod scenario.apiSlice "api") as [H1 H2].
  - discriminate.
  - reflexivity.
  - discriminate.
  - reflexivity.
  - simpl. left.
  - simpl. left.
  - change "10.0.0.9" with (k8s.PodObject.PodIP scenario.apiPod) at 1 2.
    rewrite H1, H2. split; reflexivity.
Defined.

(** The same pod and slice, handled at the same time.  [onPodAdd] reads
    the service of the pod in one critical section and writes the entry in
    another.  When the slice is handled between the two, the pod-to-service
    map holds the service of the slice afterwards, and the entry of the
    address holds the service read before, whatever the map had then (none,
    for a pod that is new): the slice found no entry to update, and the
    entry is written with the old reading. *)
Theorem pod_add_races_with_slice_update
    (c : k8s.Cache) (t : k8s.Tables) (pod : k8s.PodObject.t)
    (eps : k8s.EndpointSlice.t) (svc : string) :
  k8s.PodObject.PodIP pod ≠ "" →
  k8s.EndpointSlice.Labels eps !! k8s.LabelServiceName = Some svc →
  svc ≠ "" →
  k8s.EndpointSlice.Namespace eps = k8s.Pod.Namespace (k8s.PodObject.Meta pod) →
  k8s.Pod.Name (k8s.PodObject.Meta pod)
    ∈ omap k8s.targetPod (k8s.EndpointSlice.Endpoints eps) →
  let raced :=
    k8s.onPodAdd c t (λ t, k8s.onEndpointSliceUpdate t (k8s.SliceObj eps))
      (k8s.PodObj pod) in
  k8s.lookupServiceForPod raced (k8s.Pod.Namespace (k8s.PodObject.Meta pod))
    (k8s.Pod.Name (k8s.PodObject.Meta pod)) = svc ∧
  model.Endpoint.Service <$> k8s.Lookup raced (k8s.PodObject.PodIP pod)
  = Some (k8s.lookupServiceForPod t (k8s.Pod.Namespace (k8s.PodObject.Meta pod))
            (k8s.Pod.Name (k8s.PodObject.Meta pod))).
Proof.
  intros Hip Hlabel Hsvc Hns Htarget raced. subst raced.
  apply String.eqb_neq in Hip. apply String.eqb_neq in Hsvc.
  unfold k8s.Lookup, k8s.onEndpointSliceUpdate, k8s.onPodAdd.
  rewrite Hlabel, Hip. simpl default. rewrite Hsvc.
  destruct (k8s.resolveWorkload c (k8s.PodObject.Meta pod)) as [workload workloadType].
  split.
  - unfold k8s.lookupServiceForPod at 1. cbn [k8s.podToServices].
    destruct (foldl_updateEndpoint (k8s.EndpointSlice.Namespace eps) svc
                (k8s.EndpointSlice.Endpoints eps) t) as [_ Hp].
    rewrite Hp, <- Hns. rewrite decide_True; [reflexivity|].
    apply list_elem_of_fmap. eauto.
  - cbn [k8s.endpoints]. rewrite lookup_insert_eq. reflexivity.
Qed.

(** The pod is new to the cache: after the race the map knows its service
    and the entry of its address has none. *)
Lemma pod_add_races_with_slice_update_witness :
  model.Endpoint.Service
  <$> k8s.Lookup
        (k8s.onPodAdd scenario.standaloneCache scenario.noTables
           (λ t, k8s.onEndpointSliceUpdate t (k8s.SliceObj scenario.apiSlice))
           (k8s.PodObj scenario.apiPod)) "10.0.0.9" = Some "".
Proof.
  destruct (pod_add_races_with_slice_update scenario.standaloneCache scenario.noTables
              scenario.apiPod scenario.apiSlice "api") as [_ H2].
  - discriminate.
  - reflexivity.
  - discriminate.
  - reflexivity.
  - simpl. left.
  - exact H2.
Defined.

(** Pods that go and pods that move.  The delete handler removes the entry
    of the pod's address, given the pod or a tombstone around it, and
    touches no other address.  A pod update is handled as an add: when the
    pod comes with a new address, the entry is written under the new address
    and the one under the old address stays; the later deletion of the pod,
    which carries the new address, leaves it there as well.  A pod without
    an address changes nothing. *)
Theorem pod_delete_and_moved_pod
    (c : k8s.Cache) (t : k8s.Tables) (pod : k8s.PodObject.t) (newIP : string)
    (meanwhile : k8s.Tables → k8s.Tables) :
  k8s.PodObject.PodIP pod ≠ "" → newIP ≠ "" → newIP ≠ k8s.PodObject.PodIP pod →
  let added := k8s.onPodAdd c t id (k8s.PodObj pod) in
  let pod' := {| k8s.PodObject.Meta := k8s.PodObject.Meta pod;
                 k8s.PodObject.PodIP := newIP |} in
  let moved := k8s.onPodAdd c added id (k8s.PodObj pod') in
  is_Some (k8s.Lookup added (k8s.PodObject.PodIP pod)) ∧
  k8s.Lookup (k8s.onPodDelete added (k8s.PodObj pod)) (k8s.PodObject.PodIP pod)
  = None ∧
  k8s.onPodDelete added (k8s.DeletedFinalStateUnknown (k8s.PodObj pod))
  = k8s.onPodDelete added (k8s.PodObj pod) ∧
  (∀ ip, ip ≠ k8s.PodObject.PodIP pod →
     k8s.Lookup (k8s.onPodDelete added (k8s.PodObj pod)) ip = k8s.Lookup added ip) ∧
  is_Some (k8s.Lookup moved newIP) ∧
  k8s.Lookup moved (k8s.PodObject.PodIP pod)
  = k8s.Lookup added (k8s.PodObject.PodIP pod) ∧
  k8s.Lookup (k8s.onPodDelete moved (k8s.PodObj pod')) (k8s.PodObject.PodIP pod)
  = k8s.Lookup added (k8s.PodObject.PodIP pod) ∧
  k8s.onPodAdd c t meanwhile
    (k8s.PodObj {| k8s.PodObject.Meta := k8s.PodObject.Meta pod;
                    k8s.PodObject.PodIP := "" |}) = t.
Proof.
  intros Hip Hnew Hdiff added pod' moved.
  assert (Hlast : k8s.onPodAdd c t meanwhile
            (k8s.PodObj {| k8s.PodObject.Meta := k8s.PodObject.Meta pod;
                            k8s.PodObject.PodIP := "" |}) = t) by reflexivity.
  subst moved. rewrite (onPodAdd_pod c added id pod') by exact Hnew.
  subst added. rewrite (onPodAdd_pod c t id pod) by exact Hip.
  unfold k8s.Lookup, k8s.onPodDelete, k8s.deletedPod.
  pose proof Hip as Hip'. pose proof Hnew as Hnew'.
  apply String.eqb_neq in Hip'. apply String.eqb_neq in Hnew'.
  subst pod'. cbn [k8s.PodObject.PodIP k8s.PodObject.Meta].
  rewrite Hip', Hnew'. cbn [k8s.endpoints k8s.podToServices id].
  split; [rewrite lookup_insert_eq; eauto|].
  split; [apply lookup_delete_eq|].
  split; [reflexivity|].
  split; [intros ip Hne; rewrite lookup_delete_ne by congruence; reflexivity|].
  split; [rewrite lookup_insert_eq; eauto|].
  split; [rewrite lookup_insert_ne by congruence; reflexivity|].
  split; [|exact Hlast].
  rewrite lookup_delete_ne by congruence.
  rewrite lookup_insert_ne by congruence. reflexivity.
Qed.

(** The pod of the sample moves from 10.0.0.9 to 10.0.0.10 and is then
    deleted: the cache still answers for 10.0.0.9. *)
Lemma pod_delete_and_moved_pod_witness :
  is_Some
    (k8s.Lookup
       (k8s.onPodDelete
          (k8s.onPodAdd scenario.standaloneCache
             (k8s.onPodAdd scenario.standaloneCache scenario.noTables id
                (k8s.PodObj scenario.apiPod)) id
             (k8s.PodObj {| k8s.PodObject.Meta := k8s.PodObject.Meta scenario.apiPod;
                             k8s.PodObject.PodIP := "10.0.0.10" |}))
          (k8s.PodObj {| k8s.PodObject.Meta := k8s.PodObject.Meta scenario.apiPod;
                          k8s.PodObject.PodIP := "10.0.0.10" |}))
       "10.0.0.9").
Proof.
  destruct (pod_delete_and_moved_pod scenario.standaloneCache scenario.noTables
              scenario.apiPod "10.0.0.10" id)
    as (Hsome & _ & _ & _ & _ & _ & Hstale & _); try discriminate.
  change "10.0.0.9" with (k8s.PodObject.PodIP scenario.apiPod).
  rewrite Hstale. exact Hsome.
Defined.

(** The deletion of an EndpointSlice, given the slice or a tombstone around
    it, with or without a service label.  Every pod that the slice targets
    leaves the pod-to-service map, and every cached entry under an address
    that the slice lists gets the empty service, whatever service the entry
    had and whichever slice had set it; the other fields of the entry, the
    other entries and the other keys are as before. *)
Theorem slice_delete_clears_service (t : k8s.Tables) (eps : k8s.EndpointSlice.t) :
  let t' := k8s.onEndpointSliceDelete t (k8s.SliceObj eps) in
  k8s.onEndpointSliceDelete t (k8s.DeletedFinalStateUnknown (k8s.SliceObj eps)) = t' ∧
  (∀ name, name ∈ omap k8s.targetPod (k8s.EndpointSlice.Endpoints eps) →
     k8s.lookupServiceForPod t' (k8s.EndpointSlice.Namespace eps) name = "") ∧
  (∀ key, key ∉ k8s.podKey (k8s.EndpointSlice.Namespace eps)
                <$> omap k8s.targetPod (k8s.EndpointSlice.Endpoints eps) →
     k8s.podToServices t' !! key = k8s.podToServices t !! key) ∧
  (∀ ip, ip ∈ concat (k8s.SliceEndpoint.Addresses <$> k8s.EndpointSlice.Endpoints eps) →
     k8s.Lookup t' ip = (λ ep, k8s.withService ep "") <$> k8s.Lookup t ip) ∧
  (∀ ip, ip ∉ concat (k8s.SliceEndpoint.Addresses <$> k8s.EndpointSlice.Endpoints eps) →
     k8s.Lookup t' ip = k8s.Lookup t ip).
Proof.
  intros t'. subst t'. unfold k8s.onEndpointSliceDelete, k8s.deletedSlice, k8s.Lookup.
  destruct (foldl_deleteEndpoint (k8s.EndpointSlice.Namespace eps)
              (k8s.EndpointSlice.Endpoints eps) t) as [He Hp].
  split; [reflexivity|]. split; [|split; [|split]].
  - intros name Hin. unfold k8s.lookupServiceForPod. rewrite Hp, decide_True.
    + reflexivity.
    + apply list_elem_of_fmap. eauto.
  - intros key Hnin. rewrite Hp, decide_False by exact Hnin. reflexivity.
  - intros ip Hin. rewrite He, decide_True by exact Hin. reflexivity.
  - intros ip Hnin. rewrite He, decide_False by exact Hnin. reflexivity.
Qed.

(** ** The workload of a pod *)

(** [resolveWorkload] looks at the first owner reference only.  An owner
    of a kind other than "ReplicaSet" gives its name and its kind as they
    are: the cases of the switch for StatefulSet, DaemonSet and Job are the
    default case.  A ReplicaSet owner gives the first Deployment among the
    owners of the ReplicaSet, as a "Deployment", and otherwise the name of
    the ReplicaSet without its hash suffix, as a "ReplicaSet": so it is when
    the ReplicaSet cannot be fetched, has no Deployment owner, or has one
    with an empty name. *)
Theorem resolveWorkload_first_owner
    (c : k8s.Cache) (pod : k8s.Pod.t) (owner : k8s.OwnerReference.t)
    (others : list k8s.OwnerReference.t) :
  k8s.Pod.OwnerReferences pod = owner :: others →
  let standalone :=
    (k8s.stripReplicaSetHash (k8s.OwnerReference.Name owner), "ReplicaSet") in
  (k8s.OwnerReference.Kind owner ≠ "ReplicaSet" →
   k8s.resolveWorkload c pod
   = (k8s.OwnerReference.Name owner, k8s.OwnerReference.Kind owner)) ∧
  (k8s.OwnerReference.Kind owner = "ReplicaSet" →
   k8s.resolveWorkload c pod
   = match k8s.getReplicaSet c (k8s.Pod.Namespace pod) (k8s.OwnerReference.Name owner) with
     | None => standalone
     | Some rs =>
         match filter (λ ref, k8s.OwnerReference.Kind ref = "Deployment")
                 (k8s.ReplicaSet.OwnerReferences rs) with
         | [] => standalone
         | ref :: _ =>
             if String.eqb (k8s.OwnerReference.Name ref) "" then standalone
             else (k8s.OwnerReference.Name ref, "Deployment")
         end
     end) ∧
  k8s.resolveWorkload c pod
  = k8s.resolveWorkload c
      {| k8s.Pod.Name := k8s.Pod.Name pod; k8s.Pod.Namespace := k8s.Pod.Namespace pod;
         k8s.Pod.OwnerReferences := [owner] |}.
Proof.
  intros Hown standalone. unfold k8s.resolveWorkload. rewrite Hown. cbv zeta.
  cbn [k8s.Pod.OwnerReferences k8s.Pod.Namespace].
  split; [|split; [|reflexivity]].
  - intros Hkind. apply String.eqb_neq in Hkind. rewrite Hkind.
    destruct (String.eqb_spec (k8s.OwnerReference.Kind owner) "StatefulSet") as [->|_];
      [reflexivity|].
    destruct (String.eqb_spec (k8s.OwnerReference.Kind owner) "DaemonSet") as [->|_];
      [reflexivity|].
    destruct (String.eqb_spec (k8s.OwnerReference.Kind owner) "Job") as [->|_];
      reflexivity.
  - intros Hkind. rewrite Hkind. simpl String.eqb. cbv iota.
    unfold k8s.resolveReplicaSetOwner.
    destruct (k8s.getReplicaSet c (k8s.Pod.Namespace pod) (k8s.OwnerReference.Name owner))
      as [rs|]; [|reflexivity].
    induction (k8s.ReplicaSet.OwnerReferences rs) as [|ref refs IH]; [reflexivity|].
    rewrite filter_cons. simpl k8s.firstDeployment.
    destruct (String.eqb_spec (k8s.OwnerReference.Kind ref) "Deployment") as [Hd|Hd].
    + rewrite decide_True by exact Hd.
      destruct (String.eqb (k8s.OwnerReference.Name ref) ""); reflexivity.
    + rewrite decide_False by exact Hd. exact IH.
Qed.

(** A pod of a StatefulSet: the workload is the owner as it stands. *)
Lemma resolveWorkload_first_owner_witness :
  k8s.resolveWorkload scenario.standaloneCache
    {| k8s.Pod.Name := "db-0"; k8s.Pod.Namespace := "default";
       k8s.Pod.OwnerReferences :=
         [ {| k8s.OwnerReference.Kind := "StatefulSet";
              k8s.OwnerReference.Name := "db" |} ] |}
  = ("db", "StatefulSet").
Proof.
  destruct (resolveWorkload_first_owner scenario.standaloneCache
              {| k8s.Pod.Name := "db-0"; k8s.Pod.Namespace := "default";
                 k8s.Pod.OwnerReferences :=
                   [ {| k8s.OwnerReference.Kind := "StatefulSet";
                        k8s.OwnerReference.Name := "db" |} ] |}
              {| k8s.OwnerReference.Kind := "StatefulSet";
                 k8s.OwnerReference.Name := "db" |}
              [] eq_refl) as (Hkind & _ & _).
  apply Hkind. discriminate.
Defined.

(** ** The records of the probes *)

Section Records.

Import ebpf.





Lemma structSize_httpEvent : structSize httpEventFields = 168%nat.
Proof. reflexivity. Qed.





End Records.



(** ** The events of the loader *)

Section LoaderEvents.

Import ebpf.

Lemma littleEndian_bound (b : list byte) :
  (0 ≤ littleEndian b < 256 ^ Z.of_nat (length b))%Z.
Proof.
  induction b as [|x b IH].
  - simpl. lia.
  - cbn [littleEndian length].
    assert (Hx : (0 ≤ Z.of_N (Byte.to_N x) < 256)%Z).
    { pose proof (Byte.to_N_bounded x). lia. }
    replace (Z.of_nat (S (length b))) with (1 + Z.of_nat (length b))%Z by lia.
    rewrite Z.pow_add_r, Z.pow_1_r by lia. nia.
Qed.

Lemma littleEndian_slice (raw : list byte) (lo hi : nat) :
  (0 ≤ littleEndian (slice raw lo hi) < 256 ^ Z.of_nat (hi - lo))%Z.
Proof.
  pose proof (littleEndian_bound (slice raw lo hi)) as Hb.
  assert (Hlen : (length (slice raw lo hi) ≤ hi - lo)%nat)
    by (unfold slice; rewrite length_take; lia).
  assert (Hpow : (256 ^ Z.of_nat (length (slice raw lo hi)) ≤ 256 ^ Z.of_nat (hi - lo))%Z)
    by (apply Z.pow_le_mono_r; lia).
  lia.
Qed.

Ltac by_slice :=
  match goal with
  | |- context [littleEndian (slice ?r ?lo ?hi)] =>
      let Hb := fresh in
      pose proof (littleEndian_slice r lo hi) as Hb;
      let v := eval vm_compute in (256 ^ Z.of_nat (hi - lo))%Z in
      change (256 ^ Z.of_nat (hi - lo))%Z with v in Hb; lia
  end.

Lemma decodeConnSample_wf raw ce : decodeConnSample raw = Some ce → ConnEvent.wf ce.
Proof.
  unfold decodeConnSample. destruct (_ <? _)%nat; [discriminate|].
  intros Hce. injection Hce as <-.
  unfold ConnEvent.wf, is_uint64, is_uint32, is_uint16. simpl.
  repeat match goal with |- _ ∧ _ => split end; by_slice.
Qed.

Lemma decodeHTTPSample_wf raw he :
  decodeHTTPSample raw = Some he →
  is_uint64 (TimestampNs he) ∧ is_uint16 (SrcPort he) ∧ is_uint16 (DstPort he) ∧
  is_uint16 (StatusCode he) ∧ is_uint64 (LatencyNs he) ∧ length (Path he) = 128%nat.
Proof.
  unfold decodeHTTPSample. rewrite structSize_httpEvent.
  destruct (Nat.ltb_spec (length raw) 168) as [|Hlen]; [discriminate|].
  intros Hhe. injection Hhe as <-.
  unfold is_uint64, is_uint16. simpl.
  repeat match goal with |- _ ∧ _ => split end; try by_slice.
  unfold slice. rewrite length_take, length_drop. lia.
Qed.

Lemma connEventToModel_wf ce :
  ConnEvent.wf ce → model.ConnectionEvent.wf (connEventToModel ce).
Proof.
  intros (Hts & Hsi & Hdi & Hsp & Hdp & Hbs & Hbr & Hdu & Hre).
  unfold model.ConnectionEvent.wf, model.Endpoint.wf, connEventToModel. simpl.
  split; [apply int64_range|]. auto 10.
Qed.

Lemma httpEventToModel_wf he :
  is_uint16 (SrcPort he) → is_uint16 (DstPort he) → is_uint16 (StatusCode he) →
  is_uint64 (LatencyNs he) →
  model.HTTPRequestEvent.wf (httpEventToModel he).
Proof.
  intros Hsp Hdp Hst Hla.
  unfold model.HTTPRequestEvent.wf, model.Endpoint.wf, httpEventToModel. simpl.
  split; [apply int64_range|]. auto 10.
Qed.

End LoaderEvents.

(** Whatever the perf readers answer, every event that the two decoding
    loops publish holds values of the Go types of its fields, which is what
    the wire to the server carries unchanged; it has no node and no
    Kubernetes metadata yet; a connection event is "TCP" or "UDP" and a
    request event is "HTTP".  A loop publishes nothing for what the reader
    answers after an error that is not the error of an unknown event. *)
Theorem loader_events_are_well_formed (reads after : list ebpf.PerfRead) (err : string) :
  Forall (λ ev, model.ConnectionEvent.wf ev ∧
                model.ConnectionEvent.Node ev = "" ∧
                model.Endpoint.Service (model.ConnectionEvent.Source ev) = "" ∧
                model.Endpoint.Service (model.ConnectionEvent.Destination ev) = "" ∧
                (model.ConnectionEvent.Protocol ev = "TCP" ∨
                 model.ConnectionEvent.Protocol ev = "UDP"))
    (ebpf.readConnEvents reads) ∧
  Forall (λ ev, model.HTTPRequestEvent.wf ev ∧
                model.HTTPRequestEvent.Node ev = "" ∧
                model.Endpoint.Service (model.HTTPRequestEvent.Source ev) = "" ∧
                model.Endpoint.Service (model.HTTPRequestEvent.Destination ev) = "" ∧
                model.HTTPRequestEvent.Protocol ev = "HTTP")
    (ebpf.readHTTPEvents reads) ∧
  ebpf.readConnEvents (reads ++ ebpf.ReadError err :: after)
  = ebpf.readConnEvents reads ∧
  ebpf.readHTTPEvents (reads ++ ebpf.ReadError err :: after)
  = ebpf.readHTTPEvents reads.
Proof.
  split; [|split; [|split]].
  - induction reads as [|r reads IH]; [constructor|].
    destruct r as [lost raw| |e]; simpl; [|exact IH|constructor].
    destruct (0 <? lost)%Z; [exact IH|].
    destruct (ebpf.decodeConnSample raw) as [ce|] eqn:Hce; [|exact IH].
    constructor; [|exact IH].
    split; [apply connEventToModel_wf, (decodeConnSample_wf raw), Hce|].
    unfold ebpf.connEventToModel. simpl.
    destruct (Byte.to_N (ebpf.ConnEvent.Protocol ce) =? 17)%N; auto.
  - induction reads as [|r reads IH]; [constructor|].
    destruct r as [lost raw| |e]; simpl; [|exact IH|constructor].
    destruct (0 <? lost)%Z; [exact IH|].
    destruct (ebpf.decodeHTTPSample raw) as [he|] eqn:Hhe; [|exact IH].
    constructor; [|exact IH].
    destruct (decodeHTTPSample_wf raw he Hhe) as (_ & Hsp & Hdp & Hst & Hla & _).
    split; [apply httpEventToModel_wf; assumption|].
    unfold ebpf.httpEventToModel. simpl. auto.
  - induction reads as [|r reads IH]; [reflexivity|].
    destruct r as [lost raw| |e]; simpl; [|exact IH|reflexivity].
    destruct (0 <? lost)%Z; [exact IH|].
    destruct (ebpf.decodeConnSample raw); [f_equal|]; exact IH.
  - induction reads as [|r reads IH]; [reflexivity|].
    destruct r as [lost raw| |e]; simpl; [|exact IH|reflexivity].
    destruct (0 <? lost)%Z; [exact IH|].
    destruct (ebpf.decodeHTTPSample raw); [f_equal|]; exact IH.
Qed.
